(** * AIStore target core: a shallow embedding of selected Go sources

    The development follows the Go code of the repository:

    - [ErrValue]  : [cos.ErrValue] (first-error-wins container);
    - [Sentinel]  : the cross-target sentinel of package [xs]
                    ([qcb], [checkSmap], [pending], [rxDone], [rxProgress]);
    - [Dpq]       : the datapath query fast-parse ([dpq.parse]);
    - [Space]     : the space-cleanup jogger of package [space]
                    ([visit], [visitCT], [visitObj], [rmLeftovers], ...);
    - [TgtSpace]  : the out-of-space trigger ([target.OOS]);
    - [SDM]       : the shared data mover demultiplexer ([sharedDM.recv]);
    - [DM]        : the data mover ([RegRecv], [Renew], [quicb], [Close]).

    Go's [int64] values are integers in [Z] with the wrap-around written
    out ([wrap64]); Go maps are [gmap]s; a Go [error] that may be [nil] is an
    [option]; a run-time panic is the [None] of an outer [option]. *)

From Stdlib Require Import ZArith Lia Ascii String.
From stdpp Require Import base option list gmap strings.

Local Open Scope Z_scope.

(** ** Machine integers *)

Module Int64.
Definition min_int : Z := - 2 ^ 63.
Definition max_int : Z := 2 ^ 63 - 1.

(** Two's complement wrap-around of Go's [int64] arithmetic. *)
Definition wrap64 (z : Z) : Z := (z + 2 ^ 63) mod 2 ^ 64 - 2 ^ 63.

Definition in_range (z : Z) : Prop := min_int <= z <= max_int.

(** Go's [/] on [int64]: truncated division; [None] is the division-by-zero
    panic. *)
Definition div (a b : Z) : option Z :=
  if b =? 0 then None else Some (wrap64 (Z.quot a b)).
End Int64.

(** ** cos.ErrValue *)

Module ErrValue.
Import Int64.

(** Error values.  [WrapCnt e n] is [fmt.Errorf("%w (cnt=%d)", e, n)]. *)
Inductive error : Type :=
| ErrNew (msg : string)
| WrapCnt (e : error) (n : Z).

(** [atomic.Value] holds [nil] until the first [Store]; [cnt] is an
    [atomic.Int64]. *)
Record t : Type := mk { value : option error; cnt : Z }.

Definition zero : t := mk None 0.

(** [atomic.Value.Store]: storing [nil] panics. *)
Definition Value_Store (x : option error) (ea : t) : option t :=
  match x with
  | None => None
  | Some e => Some (mk (Some e) (cnt ea))
  end.

(** [func (ea *ErrValue) Store(err error)]. *)
Definition Store (err : option error) (ea : t) : option t :=
  let c := wrap64 (cnt ea + 1) in
  let ea1 := mk (value ea) c in
  if c =? 1 then Value_Store err ea1 else Some ea1.

Definition _load (ea : t) : option error := value ea.

(** [func (ea *ErrValue) Err() error]. *)
Definition Err (ea : t) : option error :=
  match _load ea with
  | Some e => if 1 <? cnt ea then Some (WrapCnt e (cnt ea)) else Some e
  | None => None
  end.

(** A sequence of [Store] calls, left to right; a panic ends the run. *)
Fixpoint StoreAll (errs : list (option error)) (ea : t) : option t :=
  match errs with
  | [] => Some ea
  | err :: rest =>
      match Store err ea with
      | Some ea' => StoreAll rest ea'
      | None => None
      end
  end.
End ErrValue.

(** ** Transport headers *)

Module Transport.
(** The fields of [transport.ObjHdr] that the modelled code reads.
    [Opaque] is a byte slice, each byte an integer in [0, 255]. *)
Record ObjHdr : Type := mkHdr {
  SID : string;
  Demux : string;
  ObjName : string;
  Opcode : Z;
  Opaque : list Z;
}.

(** [binary.BigEndian.Uint64]: reads the first eight bytes, panics
    ([None]) on a shorter slice. *)
Definition BigEndian_Uint64 (b : list Z) : option Z :=
  match b with
  | b0 :: b1 :: b2 :: b3 :: b4 :: b5 :: b6 :: b7 :: _ =>
      Some (Z.lor (Z.shiftl b0 56) (Z.lor (Z.shiftl b1 48) (Z.lor (Z.shiftl b2 40)
           (Z.lor (Z.shiftl b3 32) (Z.lor (Z.shiftl b4 24) (Z.lor (Z.shiftl b5 16)
           (Z.lor (Z.shiftl b6 8) b7)))))))
  | _ => None
  end.
End Transport.

(** ** Cluster map and xaction base *)

Module Meta.
(** Modelled from the spec: [meta.Smap] (the cluster map) is not part of the
    sources.  A node is in the map under its id; nodes under maintenance
    or decommission are excluded from the active set. *)
Record Snode : Type := mkSnode { maint_or_decomm : bool }.

Record Smap : Type := mkSmap {
  Tmap : gmap string Snode;
  Pmap : gmap string Snode;
}.

Definition GetNode (smap : Smap) (id : string) : option Snode :=
  match Tmap smap !! id with
  | Some n => Some n
  | None => Pmap smap !! id
  end.

Definition InMaintOrDecomm (smap : Smap) (tid : string) : bool :=
  match GetNode smap tid with
  | Some n => maint_or_decomm n
  | None => false
  end.

Definition CountActiveTs (smap : Smap) : Z :=
  Z.of_nat (length (filter (λ kv, maint_or_decomm kv.2 = false)
                           (map_to_list (Tmap smap)))).
End Meta.

Module Xact.
Inductive membership_detail : Type :=
| CountMismatch (have want : Z)
| PeerGone (tid : string).

(** The errors an xaction of package [xs] is aborted with. *)
Inductive xerr : Type :=
| ErrMembershipChanges (d : membership_detail)
| ErrTimedOut (tid : string) (since tot : Z) (pending : list string)
| ErrRecvAbort (sid : string) (msg : string)
| ErrBcast (msg : string).

Definition isErrMembershipChanges (e : xerr) : bool :=
  match e with ErrMembershipChanges _ => true | _ => false end.

(** Modelled from the spec: the xaction base ([xact.Base]) is not part of
    the sources.  An xaction is running until it is aborted or finished;
    [Abort(err)] records the error of the first abort and has no effect on
    an xaction already aborted or finished. *)
Record t : Type := mk { abort_err : option xerr; finished : bool }.

Definition running : t := mk None false.

Definition IsAborted (x : t) : bool := bool_decide (is_Some (abort_err x)).
Definition Finished (x : t) : bool := finished x.

Definition Abort (err : xerr) (x : t) : t :=
  if IsAborted x || Finished x then x else mk (Some err) (finished x).
End Xact.

(** ** The sentinel (package xs) *)

Module Sentinel.
Import Int64 Transport Meta Xact.

(** Sentinel opcodes: [iota + 27182]. *)
Definition opDone : Z := 27182.
Definition opAbort : Z := 27183.
Definition opRequest : Z := 27184.
Definition opResponse : Z := 27185.

Definition apairDeleted : Z := -1.

Record apair : Type := mkApair {
  last : Z;      (* last progress update *)
  progress : Z;  (* num visited objects *)
}.

Record sentinel : Type := mkSentinel {
  r : Xact.t;
  pend_m : gmap string apair;  (* map [tid => apair] *)
  pend_p : list string;        (* reusable slice [tid] *)
  pend_i : Z;                  (* periodic log & progress *)
  pend_n : Z;                  (* current num running *)
  s_nat : Z;
}.

Definition set_r (x : Xact.t) (s : sentinel) : sentinel :=
  mkSentinel x (pend_m s) (pend_p s) (pend_i s) (pend_n s) (s_nat s).
Definition set_pend_m (m : gmap string apair) (s : sentinel) : sentinel :=
  mkSentinel (r s) m (pend_p s) (pend_i s) (pend_n s) (s_nat s).
Definition set_pend_p (p : list string) (s : sentinel) : sentinel :=
  mkSentinel (r s) (pend_m s) p (pend_i s) (pend_n s) (s_nat s).
Definition set_pend_i (i : Z) (s : sentinel) : sentinel :=
  mkSentinel (r s) (pend_m s) (pend_p s) i (pend_n s) (s_nat s).
Definition set_pend_n (n : Z) (s : sentinel) : sentinel :=
  mkSentinel (r s) (pend_m s) (pend_p s) (pend_i s) n (s_nat s).

(** [func (s *sentinel) init(r core.Xact, smap *meta.Smap, nat int)];
    [self] is [core.T.SID()]. *)
Definition init (x : Xact.t) (self : string) (smap : Smap) (nat : Z) : sentinel :=
  let peers :=
    filter (λ kv : string * Snode,
              kv.1 ≠ self ∧ InMaintOrDecomm smap kv.1 = false) (Tmap smap) in
  mkSentinel x ((λ _, mkApair 0 0) <$> peers) [] 0 (wrap64 (nat - 1)) nat.

(** [func (s *sentinel) cleanup()]. *)
Definition cleanup (s : sentinel) : sentinel :=
  set_pend_p [] (set_pend_m ∅ s).

(** [func (s *sentinel) initLast(now int64)]: [CAS(0, now)] on every
    timestamp. *)
Definition initLast (now : Z) (s : sentinel) : sentinel :=
  set_pend_m
    ((λ ap, if last ap =? 0 then mkApair now (progress ap) else ap) <$> pend_m s) s.

(** [func (s *sentinel) pending()]: the peers whose timestamp is not
    [apairDeleted], in the iteration order of the map. *)
Definition pending (s : sentinel) : sentinel :=
  set_pend_p
    (omap (λ kv : string * apair,
             if last kv.2 =? apairDeleted then None else Some kv.1)
          (map_to_list (pend_m s))) s.

(** [func (s *sentinel) checkSmap(smap *meta.Smap, pending []string) error]. *)
Definition checkSmap (s : sentinel) (smap : Smap) (pending : list string)
  : option xerr :=
  let nat := CountActiveTs smap in
  if negb (nat =? s_nat s) then
    Some (ErrMembershipChanges (CountMismatch nat (s_nat s)))
  else
    match
      List.find (λ tid, bool_decide (GetNode smap tid = None)
                        || InMaintOrDecomm smap tid) pending
    with
    | Some tid => Some (ErrMembershipChanges (PeerGone tid))
    | None => None
    end.

Inductive QuiRes : Type := QuiActive | QuiDone | QuiAborted.

(** [func (s *sentinel) _qabort(err error) core.QuiRes]. *)
Definition _qabort (err : xerr) (s : sentinel) : QuiRes * sentinel :=
  (QuiAborted, set_r (Abort err (r s)) s).

(** What one call of [qcb] reads from its environment:
    [core.T.Sowner().Get()], [mono.NanoTime()] and the outcome of
    [dm.Bcast] of the [opRequest]. *)
Record qenv : Type := mkQenv {
  q_smap : Smap;
  q_now : Z;
  q_bcast : option xerr;
}.

(** [since := time.Duration(now - last); since > progressTimeout], for a
    peer that is not deleted. *)
Definition timed_out (now progressTimeout : Z) (ap : apair) : bool :=
  negb (last ap =? apairDeleted)
  && (progressTimeout <? wrap64 (now - last ap)).

(** [func (s *sentinel) qcb(dm, tot, ival, progressTimeout, ecnt) core.QuiRes].
    [None] is the panic of [tot / ival] at [ival = 0]. *)
Definition qcb (env : qenv) (tot ival progressTimeout : Z) (ecnt : Z)
           (s : sentinel) : option (QuiRes * sentinel) :=
  match Int64.div tot ival with
  | None => None
  | Some i =>
      if i <=? pend_i s then Some (QuiActive, s)
      else
        let s := set_pend_i i s in
        (* 1. log *)
        let s := pending s in
        if bool_decide (pend_p s = []) then Some (QuiDone, s)
        else
          (* 2. check Smap; abort if membership changed *)
          match checkSmap s (q_smap env) (pend_p s) with
          | Some err => Some (_qabort err s)
          | None =>
              (* 3. check progress timeout *)
              match
                List.find (λ kv : string * apair,
                             timed_out (q_now env) progressTimeout kv.2)
                          (map_to_list (pend_m s))
              with
              | Some (tid, ap) =>
                  Some (_qabort (ErrTimedOut tid (wrap64 (q_now env - last ap))
                                             tot (pend_p s)) s)
              | None =>
                  (* 4. request progress *)
                  match q_bcast env with
                  | Some err => Some (_qabort err s)
                  | None => Some (QuiActive, s)
                  end
              end
          end
  end.

(** [func (s *sentinel) rxDone(hdr *transport.ObjHdr)]. *)
Definition rxDone (hdr : ObjHdr) (s : sentinel) : sentinel :=
  if IsAborted (r s) || Finished (r s) then s
  else
    match pend_m s !! SID hdr with
    | None => s (* unlikely *)
    | Some ap =>
        let prev := last ap in
        let s := set_pend_m
                   (<[SID hdr := mkApair apairDeleted (progress ap)]> (pend_m s)) s in
        if negb (prev =? apairDeleted) then set_pend_n (wrap64 (pend_n s - 1)) s
        else s
    end.

(** [func (s *sentinel) rxAbort(hdr *transport.ObjHdr)]. *)
Definition rxAbort (hdr : ObjHdr) (s : sentinel) : sentinel :=
  if IsAborted (r s) || Finished (r s) then s
  else set_r (Abort (ErrRecvAbort (SID hdr) (ObjName hdr)) (r s)) s.

(** [func (s *sentinel) rxProgress(hdr *transport.ObjHdr)]; [now] is
    [mono.NanoTime()].  [None] is the panic of [BigEndian.Uint64] on an
    [Opaque] shorter than eight bytes. *)
Definition rxProgress (now : Z) (hdr : ObjHdr) (s : sentinel) : option sentinel :=
  match BigEndian_Uint64 (Opaque hdr) with
  | None => None
  | Some u =>
      let numvis := wrap64 u in
      match pend_m s !! SID hdr with
      | None => Some s (* unlikely *)
      | Some ap =>
          let prev := progress ap in
          let ap := mkApair (last ap) numvis in
          if negb (prev =? numvis) then
            (* target hdr.SID is making progress *)
            Some (set_pend_m (<[SID hdr := mkApair now numvis]> (pend_m s)) s)
          else
            Some (set_pend_m (<[SID hdr := ap]> (pend_m s)) s)
      end
  end.

(** Messages of the sentinel protocol as the receive path hands them to the
    sentinel, by opcode. *)
Inductive rxmsg : Type :=
| RxDone (hdr : ObjHdr)
| RxAbort (hdr : ObjHdr)
| RxProgress (now : Z) (hdr : ObjHdr).

Definition rx (m : rxmsg) (s : sentinel) : option sentinel :=
  match m with
  | RxDone hdr => Some (rxDone hdr s)
  | RxAbort hdr => Some (rxAbort hdr s)
  | RxProgress now hdr => rxProgress now hdr s
  end.

Fixpoint rxAll (ms : list rxmsg) (s : sentinel) : option sentinel :=
  match ms with
  | [] => Some s
  | m :: ms' =>
      match rx m s with
      | Some s' => rxAll ms' s'
      | None => None
      end
  end.

(** The peers that [pending] lists. *)
Definition is_pending (tid : string) (s : sentinel) : Prop :=
  tid ∈ pend_p (pending s).
End Sentinel.

(** ** Datapath query parameters (package ais) *)

Module Dpq.
Local Open Scope string_scope.

(** *** Go string primitives *)

(** [strings.IndexByte]. *)
Fixpoint IndexByte (s : string) (c : ascii) : option nat :=
  match s with
  | EmptyString => None
  | String a s' =>
      if Ascii.eqb a c then Some O
      else match IndexByte s' c with
           | Some i => Some (S i)
           | None => None
           end
  end.

(** [s[:n]] and [s[n:]]. *)
Fixpoint str_take (n : nat) (s : string) : string :=
  match n, s with
  | S n', String a s' => String a (str_take n' s')
  | _, _ => EmptyString
  end.

Fixpoint str_drop (n : nat) (s : string) : string :=
  match n, s with
  | S n', String _ s' => str_drop n' s'
  | _, _ => s
  end.

Definition amp : ascii := "&"%char.
Definition eqsign : ascii := "="%char.

(** [func keyEQval(s string) (string, string, bool)]. *)
Definition keyEQval (s : string) : string * string * bool :=
  match IndexByte s eqsign with
  | Some (S i) => (str_take (S i) s, str_drop (S (S i)) s, true)
  | _ => (s, EmptyString, false)
  end.

(** *** What the parser takes from other packages *)

(** The names of the query parameters ([apc.Qparam...]), the keys that the
    debug-only inner switch of [parse] lets pass ([tolerated]:
    [apc.QparamProxyID], [apc.QparamDontHeadRemote] and the keys of
    package [s3]), and the helpers [url.QueryUnescape], [cos.IsParseBool]
    and [archive.ValidateMatchMode].  A failed [QueryUnescape] or
    [ValidateMatchMode] is [None]; the value returned with an error is the
    empty string. *)
Record Env : Type := mkEnv {
  QparamProvider : string;
  QparamNamespace : string;
  QparamSkipVC : string;
  QparamUnixTime : string;
  QparamUUID : string;
  QparamArchpath : string;
  QparamArchmime : string;
  QparamArchregx : string;
  QparamArchmode : string;
  QparamIsGFNRequest : string;
  QparamOrigURL : string;
  QparamAppendType : string;
  QparamAppendHandle : string;
  QparamOWT : string;
  QparamFltPresence : string;
  QparamDontAddRemote : string;
  QparamBinfoWithOrWithoutRemote : string;
  QparamETLName : string;
  QparamSilent : string;
  QparamLatestVer : string;
  tolerated : list string;
  QueryUnescape : string → option string;
  IsParseBool : string → bool;
  ValidateMatchMode : string → option string;
}.

(** *** The dpq structure *)

Record dpq : Type := mkDpq {
  bck_provider : string;
  bck_namespace : string;
  apnd_ty : string;
  apnd_hdl : string;
  arch_path : string;
  arch_mime : string;
  arch_regx : string;
  arch_mmode : string;
  ptime : string;
  uuid : string;
  origURL : string;
  owt : string;
  fltPresence : string;
  etlName : string;
  binfo : string;
  skipVC : bool;
  isGFN : bool;
  dontAddRemote : bool;
  silent : bool;
  latestVer : bool;
  isS3 : bool;
}.

Definition dpq0 : dpq :=
  mkDpq EmptyString EmptyString EmptyString EmptyString EmptyString EmptyString EmptyString EmptyString EmptyString EmptyString EmptyString EmptyString EmptyString EmptyString EmptyString false false false false false false.

Definition set_bck_provider (v : string) (d : dpq) : dpq :=
  mkDpq v (bck_namespace d) (apnd_ty d) (apnd_hdl d) (arch_path d) (arch_mime d) (arch_regx d) (arch_mmode d) (ptime d) (uuid d) (origURL d) (owt d) (fltPresence d) (etlName d) (binfo d) (skipVC d) (isGFN d) (dontAddRemote d) (silent d) (latestVer d) (isS3 d).
Definition set_bck_namespace (v : string) (d : dpq) : dpq :=
  mkDpq (bck_provider d) v (apnd_ty d) (apnd_hdl d) (arch_path d) (arch_mime d) (arch_regx d) (arch_mmode d) (ptime d) (uuid d) (origURL d) (owt d) (fltPresence d) (etlName d) (binfo d) (skipVC d) (isGFN d) (dontAddRemote d) (silent d) (latestVer d) (isS3 d).
Definition set_apnd_ty (v : string) (d : dpq) : dpq :=
  mkDpq (bck_provider d) (bck_namespace d) v (apnd_hdl d) (arch_path d) (arch_mime d) (arch_regx d) (arch_mmode d) (ptime d) (uuid d) (origURL d) (owt d) (fltPresence d) (etlName d) (binfo d) (skipVC d) (isGFN d) (dontAddRemote d) (silent d) (latestVer d) (isS3 d).
Definition set_apnd_hdl (v : string) (d : dpq) : dpq :=
  mkDpq (bck_provider d) (bck_namespace d) (apnd_ty d) v (arch_path d) (arch_mime d) (arch_regx d) (arch_mmode d) (ptime d) (uuid d) (origURL d) (owt d) (fltPresence d) (etlName d) (binfo d) (skipVC d) (isGFN d) (dontAddRemote d) (silent d) (latestVer d) (isS3 d).
Definition set_arch_path (v : string) (d : dpq) : dpq :=
  mkDpq (bck_provider d) (bck_namespace d) (apnd_ty d) (apnd_hdl d) v (arch_mime d) (arch_regx d) (arch_mmode d) (ptime d) (uuid d) (origURL d) (owt d) (fltPresence d) (etlName d) (binfo d) (skipVC d) (isGFN d) (dontAddRemote d) (silent d) (latestVer d) (isS3 d).
Definition set_arch_mime (v : string) (d : dpq) : dpq :=
  mkDpq (bck_provider d) (bck_namespace d) (apnd_ty d) (apnd_hdl d) (arch_path d) v (arch_regx d) (arch_mmode d) (ptime d) (uuid d) (origURL d) (owt d) (fltPresence d) (etlName d) (binfo d) (skipVC d) (isGFN d) (dontAddRemote d) (silent d) (latestVer d) (isS3 d).
Definition set_arch_regx (v : string) (d : dpq) : dpq :=
  mkDpq (bck_provider d) (bck_namespace d) (apnd_ty d) (apnd_hdl d) (arch_path d) (arch_mime d) v (arch_mmode d) (ptime d) (uuid d) (origURL d) (owt d) (fltPresence d) (etlName d) (binfo d) (skipVC d) (isGFN d) (dontAddRemote d) (silent d) (latestVer d) (isS3 d).
Definition set_arch_mmode (v : string) (d : dpq) : dpq :=
  mkDpq (bck_provider d) (bck_namespace d) (apnd_ty d) (apnd_hdl d) (arch_path d) (arch_mime d) (arch_regx d) v (ptime d) (uuid d) (origURL d) (owt d) (fltPresence d) (etlName d) (binfo d) (skipVC d) (isGFN d) (dontAddRemote d) (silent d) (latestVer d) (isS3 d).
Definition set_ptime (v : string) (d : dpq) : dpq :=
  mkDpq (bck_provider d) (bck_namespace d) (apnd_ty d) (apnd_hdl d) (arch_path d) (arch_mime d) (arch_regx d) (arch_mmode d) v (uuid d) (origURL d) (owt d) (fltPresence d) (etlName d) (binfo d) (skipVC d) (isGFN d) (dontAddRemote d) (silent d) (latestVer d) (isS3 d).
Definition set_uuid (v : string) (d : dpq) : dpq :=
  mkDpq (bck_provider d) (bck_namespace d) (apnd_ty d) (apnd_hdl d) (arch_path d) (arch_mime d) (arch_regx d) (arch_mmode d) (ptime d) v (origURL d) (owt d) (fltPresence d) (etlName d) (binfo d) (skipVC d) (isGFN d) (dontAddRemote d) (silent d) (latestVer d) (isS3 d).
Definition set_origURL (v : string) (d : dpq) : dpq :=
  mkDpq (bck_provider d) (bck_namespace d) (apnd_ty d) (apnd_hdl d) (arch_path d) (arch_mime d) (arch_regx d) (arch_mmode d) (ptime d) (uuid d) v (owt d) (fltPresence d) (etlName d) (binfo d) (skipVC d) (isGFN d) (dontAddRemote d) (silent d) (latestVer d) (isS3 d).
Definition set_owt (v : string) (d : dpq) : dpq :=
  mkDpq (bck_provider d) (bck_namespace d) (apnd_ty d) (apnd_hdl d) (arch_path d) (arch_mime d) (arch_regx d) (arch_mmode d) (ptime d) (uuid d) (origURL d) v (fltPresence d) (etlName d) (binfo d) (skipVC d) (isGFN d) (dontAddRemote d) (silent d) (latestVer d) (isS3 d).
Definition set_fltPresence (v : string) (d : dpq) : dpq :=
  mkDpq (bck_provider d) (bck_namespace d) (apnd_ty d) (apnd_hdl d) (arch_path d) (arch_mime d) (arch_regx d) (arch_mmode d) (ptime d) (uuid d) (origURL d) (owt d) v (etlName d) (binfo d) (skipVC d) (isGFN d) (dontAddRemote d) (silent d) (latestVer d) (isS3 d).
Definition set_etlName (v : string) (d : dpq) : dpq :=
  mkDpq (bck_provider d) (bck_namespace d) (apnd_ty d) (apnd_hdl d) (arch_path d) (arch_mime d) (arch_regx d) (arch_mmode d) (ptime d) (uuid d) (origURL d) (owt d) (fltPresence d) v (binfo d) (skipVC d) (isGFN d) (dontAddRemote d) (silent d) (latestVer d) (isS3 d).
Definition set_binfo (v : string) (d : dpq) : dpq :=
  mkDpq (bck_provider d) (bck_namespace d) (apnd_ty d) (apnd_hdl d) (arch_path d) (arch_mime d) (arch_regx d) (arch_mmode d) (ptime d) (uuid d) (origURL d) (owt d) (fltPresence d) (etlName d) v (skipVC d) (isGFN d) (dontAddRemote d) (silent d) (latestVer d) (isS3 d).
Definition set_skipVC (v : bool) (d : dpq) : dpq :=
  mkDpq (bck_provider d) (bck_namespace d) (apnd_ty d) (apnd_hdl d) (arch_path d) (arch_mime d) (arch_regx d) (arch_mmode d) (ptime d) (uuid d) (origURL d) (owt d) (fltPresence d) (etlName d) (binfo d) v (isGFN d) (dontAddRemote d) (silent d) (latestVer d) (isS3 d).
Definition set_isGFN (v : bool) (d : dpq) : dpq :=
  mkDpq (bck_provider d) (bck_namespace d) (apnd_ty d) (apnd_hdl d) (arch_path d) (arch_mime d) (arch_regx d) (arch_mmode d) (ptime d) (uuid d) (origURL d) (owt d) (fltPresence d) (etlName d) (binfo d) (skipVC d) v (dontAddRemote d) (silent d) (latestVer d) (isS3 d).
Definition set_dontAddRemote (v : bool) (d : dpq) : dpq :=
  mkDpq (bck_provider d) (bck_namespace d) (apnd_ty d) (apnd_hdl d) (arch_path d) (arch_mime d) (arch_regx d) (arch_mmode d) (ptime d) (uuid d) (origURL d) (owt d) (fltPresence d) (etlName d) (binfo d) (skipVC d) (isGFN d) v (silent d) (latestVer d) (isS3 d).
Definition set_silent (v : bool) (d : dpq) : dpq :=
  mkDpq (bck_provider d) (bck_namespace d) (apnd_ty d) (apnd_hdl d) (arch_path d) (arch_mime d) (arch_regx d) (arch_mmode d) (ptime d) (uuid d) (origURL d) (owt d) (fltPresence d) (etlName d) (binfo d) (skipVC d) (isGFN d) (dontAddRemote d) v (latestVer d) (isS3 d).
Definition set_latestVer (v : bool) (d : dpq) : dpq :=
  mkDpq (bck_provider d) (bck_namespace d) (apnd_ty d) (apnd_hdl d) (arch_path d) (arch_mime d) (arch_regx d) (arch_mmode d) (ptime d) (uuid d) (origURL d) (owt d) (fltPresence d) (etlName d) (binfo d) (skipVC d) (isGFN d) (dontAddRemote d) (silent d) v (isS3 d).
Definition set_isS3 (v : bool) (d : dpq) : dpq :=
  mkDpq (bck_provider d) (bck_namespace d) (apnd_ty d) (apnd_hdl d) (arch_path d) (arch_mime d) (arch_regx d) (arch_mmode d) (ptime d) (uuid d) (origURL d) (owt d) (fltPresence d) (etlName d) (binfo d) (skipVC d) (isGFN d) (dontAddRemote d) (silent d) (latestVer d) v.

(** *** Parsing *)

Inductive perr : Type :=
| ErrUnescape (value : string)
| ErrMatchMode (value : string)
| ErrArchExclusive
| ErrUnknownKey (rawQuery key : string).

(** The outcome of [parse]: the structure as the call leaves it and the
    returned error, or the panic of a failed [debug.AssertNoErr]. *)
Inductive presult : Type :=
| PReturn (d : dpq) (err : option perr)
| PPanic (e : perr)
| POutOfFuel.

Section Parse.
Context (E : Env).

(** Whether a debug build is modelled: [debug.Func] runs its argument and
    [debug.AssertNoErr] panics on an error in debug builds only. *)
Context (debug : bool).

Definition unescape_or_empty (value : string) : string * option perr :=
  match QueryUnescape E value with
  | Some v => (v, None)
  | None => (EmptyString, Some (ErrUnescape value))
  end.

(** [func (dpq *dpq) _arch(key, val string) (err error)]. *)
Definition _arch (key val : string) (d : dpq) : dpq * option perr :=
  let '(d, err) :=
    if String.eqb key (QparamArchpath E) then
      let '(v, err) := unescape_or_empty val in (set_arch_path v d, err)
    else if String.eqb key (QparamArchmime E) then
      let '(v, err) := unescape_or_empty val in (set_arch_mime v d, err)
    else if String.eqb key (QparamArchregx E) then
      let '(v, err) := unescape_or_empty val in (set_arch_regx v d, err)
    else if String.eqb key (QparamArchmode E) then
      match ValidateMatchMode E val with
      | Some v => (set_arch_mmode v d, None)
      | None => (set_arch_mmode EmptyString d, Some (ErrMatchMode val))
      end
    else (d, None) in
  match err with
  | Some e => (d, Some e)
  | None =>
      (* either/or *)
      if negb (String.eqb (arch_path d) EmptyString)
         && negb (String.eqb (arch_mmode d) EmptyString)
      then (d, Some ErrArchExclusive)
      else (d, None)
  end.

(** The keys named by the cases of the outer [switch] of [parse]. *)
Definition supported_keys : list string :=
  [ QparamProvider E; QparamNamespace E; QparamSkipVC E; QparamUnixTime E;
    QparamUUID E; QparamArchpath E; QparamArchmime E; QparamArchregx E;
    QparamArchmode E; QparamIsGFNRequest E; QparamOrigURL E;
    QparamAppendType E; QparamAppendHandle E; QparamOWT E;
    QparamFltPresence E; QparamDontAddRemote E;
    QparamBinfoWithOrWithoutRemote E; QparamETLName E; QparamSilent E;
    QparamLatestVer E ].

Definition is_supported (key : string) : bool :=
  existsb (String.eqb key) supported_keys.

Definition is_tolerated (key : string) : bool :=
  existsb (String.eqb key) (tolerated E).

(** The outcome of one [switch key]: go on with the structure, return
    with an error, or panic. *)
Inductive sresult : Type :=
| SNext (d : dpq)
| SReturn (d : dpq) (e : perr)
| SPanic (e : perr).

Definition of_unescape (set : string → dpq → dpq) (value : string) (d : dpq)
  : sresult :=
  match unescape_or_empty value with
  | (v, None) => SNext (set v d)
  | (v, Some e) => SReturn (set v d) e
  end.

(** The [switch key] of [parse], cases in source order. *)
Definition switch_key (rawQuery key value : string) (d : dpq) : sresult :=
  if String.eqb key (QparamProvider E) then SNext (set_bck_provider value d)
  else if String.eqb key (QparamNamespace E) then
    of_unescape set_bck_namespace value d
  else if String.eqb key (QparamSkipVC E) then
    SNext (set_skipVC (IsParseBool E value) d)
  else if String.eqb key (QparamUnixTime E) then SNext (set_ptime value d)
  else if String.eqb key (QparamUUID E) then SNext (set_uuid value d)
  else if String.eqb key (QparamArchpath E) || String.eqb key (QparamArchmime E)
          || String.eqb key (QparamArchregx E) || String.eqb key (QparamArchmode E)
  then
    match _arch key value d with
    | (d, Some e) => SReturn d e
    | (d, None) => SNext d
    end
  else if String.eqb key (QparamIsGFNRequest E) then
    SNext (set_isGFN (IsParseBool E value) d)
  else if String.eqb key (QparamOrigURL E) then of_unescape set_origURL value d
  else if String.eqb key (QparamAppendType E) then SNext (set_apnd_ty value d)
  else if String.eqb key (QparamAppendHandle E) then
    of_unescape set_apnd_hdl value d
  else if String.eqb key (QparamOWT E) then SNext (set_owt value d)
  else if String.eqb key (QparamFltPresence E) then SNext (set_fltPresence value d)
  else if String.eqb key (QparamDontAddRemote E) then
    SNext (set_dontAddRemote (IsParseBool E value) d)
  else if String.eqb key (QparamBinfoWithOrWithoutRemote E) then
    SNext (set_binfo value d)
  else if String.eqb key (QparamETLName E) then SNext (set_etlName value d)
  else if String.eqb key (QparamSilent E) then
    SNext (set_silent (IsParseBool E value) d)
  else if String.eqb key (QparamLatestVer E) then
    SNext (set_latestVer (IsParseBool E value) d)
  else
    (* default: debug.Func(func() { switch key { ... } }) *)
    if debug then
      if is_tolerated key then SNext d
      else SPanic (ErrUnknownKey rawQuery key)
    else SNext d.

(** The body of the [for query != ""] loop: the next [key] (up to the
    first ['&']), the rest of the query, and the [switch]. *)
Definition next_pair (query : string) : string * string * string :=
  let '(key, query) :=
    match IndexByte query amp with
    | Some i => (str_take i query, str_drop (S i) query)
    | None => (query, EmptyString)
    end in
  let '(k, v, ok) := keyEQval key in
  if ok then (k, v, query) else (key, EmptyString, query).

Fixpoint parse_loop (fuel : nat) (rawQuery query : string) (d : dpq) : presult :=
  match query with
  | EmptyString => PReturn d None
  | String _ _ =>
      match fuel with
      | O => POutOfFuel
      | S fuel' =>
          let '(key, value, query') := next_pair query in
          match switch_key rawQuery key value d with
          | SNext d' => parse_loop fuel' rawQuery query' d'
          | SReturn d' e => PReturn d' (Some e)
          | SPanic e => PPanic e
          end
      end
  end.

(** [func (dpq *dpq) parse(rawQuery string) (err error)]. *)
Definition parse (rawQuery : string) (d : dpq) : presult :=
  parse_loop (String.length rawQuery) rawQuery rawQuery d.
End Parse.

(** Modelled from the spec: the values of the [apc.Qparam...] constants are
    not part of the sources; the names are those that the interface
    section lists for the data-path fast-parse.  The helpers are stand-ins
    with the same signatures. *)
Definition sampleEnv : Env :=
  mkEnv "provider" "namespace" "skip-vc" "unix-time" "uuid"
        "arch-path" "arch-mime" "arch-regx" "arch-mode" "is-gfn" "orig-url"
        "append-type" "append-handle" "owt" "flt-presence" "dont-add-remote"
        "binfo-with-or-without-remote" "etl-name" "silent" "latest-ver"
        ["pid"; "dont-head-remote"; "uploadId"; "uploads"; "partNumber"]
        (λ s, Some s)
        (λ s, String.eqb s "true")
        (λ s, Some s).
End Dpq.

(** ** The space-cleanup xaction (package space) *)

Module Space.
Import Int64.
Local Open Scope Z_scope.

(** *** Content types, buckets, content descriptors *)

Inductive ctype : Type :=
| WorkCT | ObjCT | ECSliceCT | ECMetaCT | ChunkCT | ChunkMetaCT
| OtherCT (name : string).

Global Instance ctype_eq_dec : EqDecision ctype.
Proof. solve_decision. Defined.

(** [Props.EC.Enabled] is all of the bucket properties that cleanup reads;
    [Props] is [nil] ([None]) until the bucket is initialised from the
    bucket metadata. *)
Record Bprops : Type := mkBprops { EC_Enabled : bool }.

Record Bck : Type := mkBck {
  Name : string;
  Provider : string;
  Ns : string;
  Props : option Bprops;
}.

(** [core.CT], of the first half of the file. *)
Record CT : Type := mkCT {
  ct_fqn : string;
  ct_objName : string;
  ct_contentType : ctype;
  ct_bck : Bck;
  ct_mi : string;
  ct_digest : Z;
  ct_size : Z;
  ct_mtime : Z;
}.

Definition FQN (ct : CT) : string := ct_fqn ct.
Definition Lsize (ct : CT) : Z := ct_size ct.
Definition MtimeUnix (ct : CT) : Z := ct_mtime ct.

Record ParsedFQN : Type := mkParsed {
  p_Bck : Bck;
  p_ContentType : ctype;
  p_ObjName : string;
  p_Mountpath : string;
  p_Digest : Z;
}.

(** What cleanup reads of a loaded [core.LOM]. *)
Record LOM : Type := mkLOM {
  lom_FQN : string;
  lom_ObjName : string;
  lom_bck : Bck;
  lom_mi : string;
  lom_digest : Z;
  lom_atime : Z;
  lom_size : Z;
  lom_IsHRW : bool;
  lom_HasCopies : bool;
  lom_IsCopy : bool;
  lom_ECEnabled : bool;
  lom_IsChunked : bool;
}.

(** [fs.ContentInfo], as [ParseUbase] returns it. *)
Record ContentInfo : Type := mkContentInfo {
  ci_Base : string;
  ci_Extras : list string;
  ci_Ok : bool;
  ci_Old : bool;
}.

(** *** The disk *)

Record finfo : Type := mkFinfo { fi_mtime : Z; fi_size : Z }.

(** What [os.Open] and [Readdirnames(1)] find of a directory. *)
Inductive dirstate : Type := DirEmpty | DirNonEmpty | DirOpenErr | DirReadErr.

(** Regular files by path (with modification time and size), the files
    that [unlink] refuses to remove, directories by path, and the wall
    clock ([time.Now()], in nanoseconds). *)
Record World : Type := mkWorld {
  files : gmap string finfo;
  undeletable : gset string;
  dirs : gmap string dirstate;
  wall : Z;
}.

Definition set_files (f : gmap string finfo) (w : World) : World :=
  mkWorld f (undeletable w) (dirs w) (wall w).
Definition set_dirs (d : gmap string dirstate) (w : World) : World :=
  mkWorld (files w) (undeletable w) d (wall w).

(** [os.Lstat]: [None] is the error. *)
Definition Lstat (fqn : string) (w : World) : option finfo := files w !! fqn.

(** [cos.Stat(fqn) == nil]. *)
Definition Stat_ok (fqn : string) (w : World) : bool :=
  bool_decide (is_Some (files w !! fqn)).

(** [os.Remove]: the world after the call and whether it returned [nil]. *)
Definition os_Remove (fqn : string) (w : World) : World * bool :=
  match files w !! fqn with
  | Some _ =>
      if bool_decide (fqn ∈ undeletable w) then (w, false)
      else (set_files (delete fqn (files w)) w, true)
  | None => (w, false)
  end.

(** [cos.RemoveFile]: as [os.Remove], a missing file is no error. *)
Definition RemoveFile (fqn : string) (w : World) : World * bool :=
  match files w !! fqn with
  | Some _ => os_Remove fqn w
  | None => (w, true)
  end.

(** *** The rebalance and resilver markers, the arguments *)

(** [xreg.GetRebMarked()] and [xreg.GetResilverMarked()]: the running
    xaction, if any, and the persistent markers. *)
Record Marked : Type := mkMarked {
  m_Xact : option string;
  m_Interrupted : bool;
  m_Restarted : bool;
}.

(** [xact.ArgsMsg], as far as cleanup reads it. *)
Record ArgsMsg : Type := mkArgs { Force : bool; Flags : Z }.

Definition flagRmOldWork : Z := 1.
Definition flagRmMisplacedLOMs : Z := 2.
Definition flagRmMisplacedEC : Z := 4.
Definition flagRmAll : Z :=
  Z.lor flagRmOldWork (Z.lor flagRmMisplacedLOMs flagRmMisplacedEC).

(** [func (p *clnP) rmMisplaced() bool]: check other conditions (other than
    too-early) prior to going ahead to remove misplaced.  [g] and [l] are
    the rebalance and the resilver markers. *)
Definition rmMisplaced (g l : Marked) (args : ArgsMsg) : bool :=
  if bool_decide (m_Xact g = None) && bool_decide (m_Xact l = None)
     && negb (m_Interrupted g) && negb (m_Restarted g) && negb (m_Interrupted l)
  then true
  else
    (* force(?) and log *)
    if negb (bool_decide (m_Xact g = None)) then false   (* is running *)
    else if m_Interrupted g then Force args     (* rebalance interrupted *)
    else if m_Restarted g then Force args       (* node restarted *)
    else if negb (bool_decide (m_Xact l = None)) then false (* is running *)
    else if m_Interrupted l then false          (* resilver interrupted *)
    else false.

(** *** What the jogger takes from other packages *)

Inductive initErr : Type := ErrBckNotFound | ErrInitOther.
Inductive loadErr : Type :=
| ErrLmetaCorrupted | ErrLmetaNotFound | ErrNotExist | ErrLoadOther.

(** The configuration ([config.Space]), the arguments, the markers, and the
    functions of packages [fs], [core] and [meta] that the jogger calls and
    that are not part of the sources.  A function that reads the disk takes
    the world; one that writes it returns the world it leaves. *)
Record Env : Type := mkEnv {
  DontCleanupTime : Z;
  BatchSize : Z;
  Args : ArgsMsg;
  XrmZeroSize : Z;
  RebMarked : Marked;
  ResilverMarked : Marked;
  (* fs, path/filepath *)
  Gen : Bck → string → string → ctype → string → string;
  ParseUbase : ctype → string → ContentInfo;
  ubase : string → string;
  Base : string → string;
  LikelyCT : string → bool;
  ContainsCT : string → string → bool;
  (* core, meta *)
  ResolveFQN : string → option (string * ParsedFQN);
  InitFast : Bck → option Bprops;
  lom_InitBck : string → Bck → option initErr;
  lom_InitFQN : string → Bck → initErr + LOM;
  lom_Load : World → LOM → loadErr + LOM;
  lom_FromFS : World → LOM → bool;
  lom_TryLock : LOM → bool;
  lom_RemoveMain : World → LOM → World * bool;
  lom_DelExtraCopies : World → LOM → option string → World * bool * bool;
  T_DeleteObject : World → LOM → World * bool;
  getCompletedID : World → LOM → string * list string;
}.

(** *** The state of one jogger and of what it shares *)

(** [XactCln]: the errors added, the abort error, the counters. *)
Record XactCln : Type := mkXactCln {
  x_errs : list string;
  x_abort : option string;
  x_finished : bool;
  x_objs : Z;
  x_bytes : Z;
}.

(** The runtime fields of [clnJ], the xaction, the two stats counters
    ([cleanup.store.n], [cleanup.store.size]) and the disk. *)
Record state : Type := mkState {
  oldWork : list string;
  misplaced_loms : list LOM;
  misplaced_ec : list CT;
  bck : Bck;
  now : Z;
  nvisits : Z;
  norphan : Z;
  mi : string;
  xcln : XactCln;
  CleanupStoreCount : Z;
  CleanupStoreSize : Z;
  world : World;
}.

Definition set_oldWork (v : list string) (s : state) : state :=
  mkState v (misplaced_loms s) (misplaced_ec s) (bck s) (now s) (nvisits s)
          (norphan s) (mi s) (xcln s) (CleanupStoreCount s) (CleanupStoreSize s)
          (world s).
Definition set_misplaced_loms (v : list LOM) (s : state) : state :=
  mkState (oldWork s) v (misplaced_ec s) (bck s) (now s) (nvisits s)
          (norphan s) (mi s) (xcln s) (CleanupStoreCount s) (CleanupStoreSize s)
          (world s).
Definition set_misplaced_ec (v : list CT) (s : state) : state :=
  mkState (oldWork s) (misplaced_loms s) v (bck s) (now s) (nvisits s)
          (norphan s) (mi s) (xcln s) (CleanupStoreCount s) (CleanupStoreSize s)
          (world s).
Definition set_now (v : Z) (s : state) : state :=
  mkState (oldWork s) (misplaced_loms s) (misplaced_ec s) (bck s) v (nvisits s)
          (norphan s) (mi s) (xcln s) (CleanupStoreCount s) (CleanupStoreSize s)
          (world s).
Definition set_nvisits (v : Z) (s : state) : state :=
  mkState (oldWork s) (misplaced_loms s) (misplaced_ec s) (bck s) (now s) v
          (norphan s) (mi s) (xcln s) (CleanupStoreCount s) (CleanupStoreSize s)
          (world s).
Definition set_norphan (v : Z) (s : state) : state :=
  mkState (oldWork s) (misplaced_loms s) (misplaced_ec s) (bck s) (now s)
          (nvisits s) v (mi s) (xcln s) (CleanupStoreCount s) (CleanupStoreSize s)
          (world s).
Definition set_xcln (v : XactCln) (s : state) : state :=
  mkState (oldWork s) (misplaced_loms s) (misplaced_ec s) (bck s) (now s)
          (nvisits s) (norphan s) (mi s) v (CleanupStoreCount s)
          (CleanupStoreSize s) (world s).
Definition set_stats (cnt size : Z) (s : state) : state :=
  mkState (oldWork s) (misplaced_loms s) (misplaced_ec s) (bck s) (now s)
          (nvisits s) (norphan s) (mi s) (xcln s) cnt size (world s).
Definition set_world (v : World) (s : state) : state :=
  mkState (oldWork s) (misplaced_loms s) (misplaced_ec s) (bck s) (now s)
          (nvisits s) (norphan s) (mi s) (xcln s) (CleanupStoreCount s)
          (CleanupStoreSize s) v.

(** [xcln.AddErr], [xcln.Abort], [xcln.ObjsAdd], [StatsT.Add/Inc]. *)
Definition AddErr (e : string) (s : state) : state :=
  let x := xcln s in
  set_xcln (mkXactCln (e :: x_errs x) (x_abort x) (x_finished x) (x_objs x)
                      (x_bytes x)) s.

Definition Abort (e : string) (s : state) : state :=
  let x := xcln s in
  match x_abort x with
  | Some _ => s
  | None =>
      if x_finished x then s
      else set_xcln (mkXactCln (x_errs x) (Some e) (x_finished x) (x_objs x)
                               (x_bytes x)) s
  end.

Definition ObjsAdd (nfiles nbytes : Z) (s : state) : state :=
  let x := xcln s in
  set_xcln (mkXactCln (x_errs x) (x_abort x) (x_finished x)
                      (wrap64 (x_objs x + nfiles)) (wrap64 (x_bytes x + nbytes))) s.

Definition StatsAdd (nfiles nbytes : Z) (s : state) : state :=
  set_stats (wrap64 (CleanupStoreCount s + nfiles))
            (wrap64 (CleanupStoreSize s + nbytes)) s.

(** [func (j *clnJ) done() bool]: the xaction is aborted or finished (the
    stop channel is written only after the jogger has returned). *)
Definition done (s : state) : bool :=
  bool_decide (is_Some (x_abort (xcln s))) || x_finished (xcln s).

(** [mtime.Add(j.dont()).After(j.now)]. *)
Definition too_early (E : Env) (t : Z) (s : state) : bool :=
  now s <? t + DontCleanupTime E.

(** *** Removals *)

(** The local counters of [rmLeftovers]. *)
Record rmcnt : Type := mkRmcnt { nfiles : Z; nbytes : Z; n : Z }.

Definition count_removed (size : Z) (c : rmcnt) : rmcnt :=
  mkRmcnt (wrap64 (nfiles c + 1)) (wrap64 (nbytes c + size)) (n c).

Definition count_throttled (size : Z) (c : rmcnt) : rmcnt :=
  mkRmcnt (wrap64 (nfiles c + 1)) (wrap64 (nbytes c + size)) (wrap64 (n c + 1)).

(** 1. rm older work: the loop over [j.oldWork]. *)
Fixpoint rmOldWork (l : list string) (c : rmcnt) (s : state) : rmcnt * state :=
  match l with
  | [] => (c, s)
  | workfqn :: l' =>
      match Lstat workfqn (world s) with
      | Some finfo =>
          let '(w, ok) := RemoveFile workfqn (world s) in
          if ok then rmOldWork l' (count_removed (fi_size finfo) c) (set_world w s)
          else rmOldWork l' c (AddErr workfqn (set_world w s))
      | None => rmOldWork l' c s
      end
  end.

Section WithEnv.
Context (E : Env).

(** One misplaced object: the [switch] that removes it. *)
Definition rmMisplacedLOM (mlom : LOM) (s : state) : state * bool :=
  let fqn := lom_FQN mlom in
  let '(w, removed, ok) :=
    match lom_InitBck E (lom_ObjName mlom) (bck s) with
    | Some _ => let '(w, ok) := os_Remove fqn (world s) in (w, ok, ok)
    | None =>
        if negb (lom_FromFS E (world s) mlom) then
          let '(w, ok) := os_Remove fqn (world s) in (w, ok, ok)
        else lom_DelExtraCopies E (world s) mlom (Some fqn)
    end in
  let s := set_world w s in
  ((if ok then s else AddErr fqn s), removed).

(** 2. rm misplaced: the loop over [j.misplaced.loms]; the flag tells
    that [j.done()] made the function return. *)
Fixpoint rmMisplacedLOMs (l : list LOM) (c : rmcnt) (s : state)
  : rmcnt * state * bool :=
  match l with
  | [] => (c, s, false)
  | mlom :: l' =>
      let '(s, removed) := rmMisplacedLOM mlom s in
      if removed then
        let c := count_throttled (lom_size mlom) c in
        if done s then (c, s, true) else rmMisplacedLOMs l' c s
      else rmMisplacedLOMs l' c s
  end.

(** 3. rm EC slices and replicas that are still without corresponding
    metafile: the loop over [j.misplaced.ec]. *)
Fixpoint rmMisplacedEC (l : list CT) (c : rmcnt) (s : state)
  : rmcnt * state * bool :=
  match l with
  | [] => (c, s, false)
  | ct :: l' =>
      let metaFQN := Gen E (ct_bck ct) (ct_mi ct) (ct_objName ct) ECMetaCT EmptyString in
      if Stat_ok metaFQN (world s) then rmMisplacedEC l' c s
      else
        let '(w, ok) := os_Remove (FQN ct) (world s) in
        if ok then
          let c := count_throttled (Lsize ct) c in
          let s := set_world w s in
          if done s then (c, s, true) else rmMisplacedEC l' c s
        else rmMisplacedEC l' c (set_world w s)
  end.

(** [func (j *clnJ) rmLeftovers(specifier int)]. *)
Definition rmLeftovers (specifier : Z) (s : state) : state :=
  let c := mkRmcnt 0 0 0 in
  (* 1. rm older work *)
  let '(c, s) :=
    if negb (Z.land specifier flagRmOldWork =? 0) then
      let '(c, s) := rmOldWork (oldWork s) c s in
      (c, set_now (wall (world s)) (set_oldWork [] s))
    else (c, s) in
  (* 2. rm misplaced *)
  let '(c, s, returned) :=
    if negb (Z.land specifier flagRmMisplacedLOMs =? 0) then
      let '(c, s, returned) :=
        if negb (bool_decide (misplaced_loms s = []))
           && rmMisplaced (RebMarked E) (ResilverMarked E) (Args E)
        then rmMisplacedLOMs (misplaced_loms s) c s
        else (c, s, false) in
      if returned then (c, s, true)
      else (c, set_now (wall (world s)) (set_misplaced_loms [] s), false)
    else (c, s, false) in
  if returned then s
  else
    (* 3. rm EC slices and replicas *)
    let '(c, s, returned) :=
      if negb (Z.land specifier flagRmMisplacedEC =? 0) then
        let '(c, s, returned) := rmMisplacedEC (misplaced_ec s) c s in
        if returned then (c, s, true)
        else (c, set_now (wall (world s)) (set_misplaced_ec [] s), false)
      else (c, s, false) in
    if returned then s
    else ObjsAdd (nfiles c) (nbytes c) (StatsAdd (nfiles c) (nbytes c) s).

(** [func (j *clnJ) rmAnyBatch(specifier int)]. *)
Definition rmAnyBatch (specifier : Z) (s : state) : state :=
  let batch := BatchSize E in
  if specifier =? flagRmOldWork then
    if Z.of_nat (length (oldWork s)) <? batch then s else rmLeftovers specifier s
  else if specifier =? flagRmMisplacedLOMs then
    if Z.of_nat (length (misplaced_loms s)) <? batch then s
    else rmLeftovers specifier s
  else if specifier =? flagRmMisplacedEC then
    if Z.of_nat (length (misplaced_ec s)) <? batch then s
    else rmLeftovers specifier s
  else s.

(** *** Content descriptors *)

(** [func NewCTFromFQN(fqn string, b meta.Bowner) (ct *CT, err error)],
    with a bucket owner: the descriptor ([None] is [nil]) and whether an
    error is returned. *)
Definition NewCTFromFQN (fqn : string) : option CT * bool :=
  match ResolveFQN E fqn with
  | None => (None, true)
  | Some (hrwFQN, parsed) =>
      let b := p_Bck parsed in
      let mk props :=
        mkCT fqn (p_ObjName parsed) (p_ContentType parsed)
             (mkBck (Name b) (Provider b) (Ns b) props)
             (p_Mountpath parsed) (p_Digest parsed) 0 0 in
      match InitFast E b with
      | Some props => (Some (mk (Some props)), false)
      | None => (Some (mk (Props b)), true)
      end
  end.

(** [func (ct *CT) Clone(ctType string) *CT]. *)
Definition Clone (ct : CT) (ctType : ctype) : CT :=
  mkCT (Gen E (ct_bck ct) (ct_mi ct) (ct_objName ct) ctType EmptyString)
       (ct_objName ct) ctType (ct_bck ct) (ct_mi ct) (ct_digest ct) 0 0.

(** [func LOM2CT(lom *LOM, ctType string, extras ...string) *CT]. *)
Definition LOM2CT (lom : LOM) (ctType : ctype) : CT :=
  mkCT (Gen E (lom_bck lom) (lom_mi lom) (lom_ObjName lom) ctType EmptyString)
       (lom_ObjName lom) ctType (lom_bck lom) (lom_mi lom) (lom_digest lom) 0 0.

(** [func (ct *CT) LoadSliceFromFS() error]. *)
Definition LoadSliceFromFS (ct : CT) (w : World) : option CT :=
  match Lstat (FQN ct) w with
  | None => None
  | Some st =>
      Some (mkCT (ct_fqn ct) (ct_objName ct) (ct_contentType ct) (ct_bck ct)
                 (ct_mi ct) (ct_digest ct) (fi_size st) (fi_mtime st))
  end.

(** [ct.Bck().Props.EC.Enabled] of a descriptor returned without error. *)
Definition ct_EC_Enabled (ct : CT) : bool :=
  match Props (ct_bck ct) with
  | Some p => EC_Enabled p
  | None => false
  end.

(** *** Visiting *)

Definition queueOldWork (fqn : string) (s : state) : state :=
  rmAnyBatch flagRmOldWork (set_oldWork (oldWork s ++ [fqn]) s).

Definition queueMisplacedEC (ct : CT) (s : state) : state :=
  rmAnyBatch flagRmMisplacedEC (set_misplaced_ec (misplaced_ec s ++ [ct]) s).

Definition queueMisplacedLOM (lom : LOM) (s : state) : state :=
  rmAnyBatch flagRmMisplacedLOMs (set_misplaced_loms (misplaced_loms s ++ [lom]) s).

(** [func (j *clnJ) initCTLOM(lom *core.LOM, fqn string) error]: the state
    and whether [nil] is returned. *)
Definition initCTLOM (objName fqn : string) (s : state) : state * bool :=
  match lom_InitBck E objName (bck s) with
  | None => (s, true)
  | Some _ => (Abort fqn s, false)
  end.

(** The handle that [core.AllocLOM(name)] and [lom.InitBck] give. *)
Definition ctLOM (objName : string) (s : state) : LOM :=
  mkLOM EmptyString objName (bck s) (mi s) 0 0 0 false false false false false.

(** [func (j *clnJ) visitPartial(fqn, uploadID string, lom *core.LOM)]. *)
Definition visitPartial (fqn : string) (s : state) : state :=
  queueOldWork fqn s.

(** [func (j *clnJ) visitChunk(chunkFQN string, lom *core.LOM, uploadID string)]. *)
Definition visitChunk (chunkFQN : string) (lom : LOM) (uploadID : string)
           (s : state) : state :=
  let '(id, errs) := getCompletedID E (world s) lom in
  let s := fold_right AddErr s errs in
  if negb (String.eqb id EmptyString) then
    if negb (String.eqb id uploadID) then
      (* have completed manifest, can remove this stray chunk *)
      queueOldWork chunkFQN s
    else s
  else
    (* partial manifest *)
    let fqn := Gen E (lom_bck lom) (lom_mi lom) (lom_ObjName lom) ChunkMetaCT uploadID in
    let partial :=
      match Lstat fqn (world s) with
      | Some finfo =>
          if too_early E (fi_mtime finfo) s then None
          else Some (queueOldWork chunkFQN s)
      | None => Some s
      end in
    match partial with
    | None => s
    | Some s =>
        (* the chunk appears to be a) orphan and b) old enough *)
        queueOldWork chunkFQN (set_norphan (wrap64 (norphan s + 1)) s)
    end.

(** [func (j *clnJ) visitCT(parsedFQN *fs.ParsedFQN, fqn string)];
    [None] is the panic of [contentInfo.Extras[0]] on an empty slice. *)
Definition visitCT (parsedFQN : ParsedFQN) (fqn : string) (s : state)
  : option state :=
  match p_ContentType parsedFQN with
  | WorkCT =>
      let contentInfo := ParseUbase E WorkCT (ubase E fqn) in
      (* workfiles: remove old or do nothing *)
      if ci_Ok contentInfo && ci_Old contentInfo then Some (queueOldWork fqn s)
      else Some s
  | ECSliceCT =>
      match NewCTFromFQN fqn with
      | (Some ct, false) =>
          if negb (ct_EC_Enabled ct) then Some (queueOldWork fqn s)
          else
            match LoadSliceFromFS ct (world s) with
            | None => Some s
            | Some ct =>
                if too_early E (MtimeUnix ct) s then Some s
                else
                  let metaFQN :=
                    Gen E (ct_bck ct) (ct_mi ct) (ct_objName ct) ECMetaCT EmptyString in
                  if negb (Stat_ok metaFQN (world s))
                  then Some (queueMisplacedEC ct s)
                  else Some s
            end
      | _ => Some (queueOldWork fqn s)
      end
  | ECMetaCT =>
      match NewCTFromFQN fqn with
      | (Some ct, false) =>
          if negb (ct_EC_Enabled ct) then Some (queueOldWork fqn s)
          else
            (* Metafile is saved the last. If there is no corresponding
               replica or slice, it is safe to remove the stray metafile. *)
            let sliceCT := Clone ct ECSliceCT in
            if Stat_ok (FQN sliceCT) (world s) then Some s
            else
              let objCT := Clone ct ObjCT in
              if Stat_ok (FQN objCT) (world s) then Some s
              else Some (queueOldWork fqn s)
      | _ => Some (queueOldWork fqn s)
      end
  | ChunkCT =>
      let contentInfo := ParseUbase E ChunkCT (p_ObjName parsedFQN) in
      if negb (ci_Ok contentInfo) then Some (queueOldWork fqn s)
      else
        match ci_Extras contentInfo with
        | [] => None
        | uploadID :: _ =>
            let '(s, ok) := initCTLOM (ci_Base contentInfo) fqn s in
            if ok then
              Some (visitChunk fqn (ctLOM (ci_Base contentInfo) s) uploadID s)
            else Some s
        end
  | ChunkMetaCT =>
      let contentInfo := ParseUbase E ChunkMetaCT (p_ObjName parsedFQN) in
      if negb (ci_Ok contentInfo) then Some (queueOldWork fqn s)
      else
        let '(s, ok) := initCTLOM (ci_Base contentInfo) fqn s in
        if ok then
          match ci_Extras contentInfo with
          | _ :: _ => Some (visitPartial fqn s)
          | [] => Some s
          end
        else Some s
  | _ => Some s
  end.

(** [func (j *clnJ) rmExtraCopies(lom *core.LOM)]. *)
Definition rmExtraCopies (lom : LOM) (s : state) : state :=
  if negb (lom_TryLock E lom) then s (* must be busy *)
  else
    (* reload under lock and check atime - again *)
    match lom_Load E (world s) lom with
    | inl ErrNotExist => s
    | inl _ => AddErr (lom_FQN lom) s
    | inr lom =>
        if too_early E (lom_atime lom) s then s
        else if lom_IsCopy lom then s (* extremely unlikely but ok *)
        else
          let '(w, _, ok) := lom_DelExtraCopies E (world s) lom None in
          let s := set_world w s in
          if ok then s else AddErr (lom_FQN lom) s
    end.

(** [func (j *clnJ) visitObj(fqn string, lom *core.LOM)]. *)
Definition visitObj (fqn : string) (s : state) : state :=
  match lom_InitFQN E fqn (bck s) with
  | inl ErrBckNotFound => Abort fqn s     (* bucket gone - aborting *)
  | inl ErrInitOther => s
  | inr lom =>
      (* handle load err *)
      match lom_Load E (world s) lom with
      | inl ErrLmetaCorrupted | inl ErrLmetaNotFound =>
          let '(w, ok) := lom_RemoveMain E (world s) lom in
          let s := set_world w s in
          if ok then s else AddErr fqn s
      | inl ErrNotExist | inl ErrLoadOther => s
      | inr lom =>
          (* too early; NOTE: default dont-cleanup = 2h *)
          if too_early E (lom_atime lom) s then s
          else if lom_IsHRW lom then
            let s := if lom_HasCopies lom then rmExtraCopies lom s else s in
            if (lom_size lom =? 0)
               && (Z.land (Flags (Args E)) (XrmZeroSize E) =? XrmZeroSize E)
            then
              (* remove in place *)
              let '(w, ok) := T_DeleteObject E (world s) lom in
              let s := set_world w s in
              if ok then
                set_stats (wrap64 (CleanupStoreCount s + 1)) (CleanupStoreSize s) s
              else s
            else s
          else if lom_IsCopy lom then
            s (* will be _visited_ separately (if not already) *)
          else if lom_ECEnabled lom then
            (* misplaced EC *)
            let metaFQN :=
              Gen E (lom_bck lom) (lom_mi lom) (lom_ObjName lom) ECMetaCT EmptyString in
            if negb (Stat_ok metaFQN (world s))
            then queueMisplacedEC (LOM2CT lom ObjCT) s
            else s
          else
            (* misplaced object *)
            queueMisplacedLOM lom s
      end
  end.

(** [func (j *clnJ) rmEmptyDir(fqn string)]. *)
Definition rmEmptyDir (fqn : string) (s : state) : state :=
  let base := Base E fqn in
  if LikelyCT E base then s
  else if (String.length fqn <? String.length base + String.length (Name (bck s)) + 8)%nat
  then s
  else if negb (ContainsCT E (Dpq.str_take (String.length fqn - String.length base) fqn)
                           (Name (bck s)))
  then s
  else
    match dirs (world s) !! fqn with
    | None | Some DirOpenErr => AddErr fqn s
    | Some DirNonEmpty => s
    | Some DirEmpty =>
        set_world (set_dirs (delete fqn (dirs (world s))) (world s)) s
    | Some DirReadErr => s
    end.

(** A directory entry of the walk: the path and [de.IsDir()]. *)
Record DirEntry : Type := mkDirEntry { de_fqn : string; IsDir : bool }.

(** [func (j *clnJ) visit(fqn string, de fs.DirEntry) error]; the
    returned error is always [nil]. *)
Definition visit (fqn : string) (de : DirEntry) (s : state) : option state :=
  if IsDir de then Some (rmEmptyDir fqn s)
  else if done s then Some s
  else
    let early :=
      match Lstat fqn (world s) with
      | Some finfo => too_early E (fi_mtime finfo) s
      | None => false
      end in
    if early then Some s (* skipping - too early *)
    else
      match ResolveFQN E fqn with
      | None => Some (AddErr fqn s)
      | Some (_, parsed) =>
          let visited :=
            if bool_decide (p_ContentType parsed = ObjCT)
            then Some (visitObj fqn s)
            else visitCT parsed fqn s in
          match visited with
          | Some s => Some (set_nvisits (wrap64 (nvisits s + 1)) s)
          | None => None
          end
      end.

(** [fs.Walk] with [j.visit] as the callback, over the entries that the
    walk finds. *)
Fixpoint walk (entries : list DirEntry) (s : state) : option state :=
  match entries with
  | [] => Some s
  | de :: entries' =>
      match visit (de_fqn de) de s with
      | Some s => walk entries' s
      | None => None
      end
  end.

(** [func (j *clnJ) jogBck()]: walk and visit, then remove the leftovers;
    [walk_err] is the error that [fs.Walk] returns. *)
Definition jogBck (entries : list DirEntry) (walk_err : option string) (s : state)
  : option state :=
  match walk entries s with
  | None => None
  | Some s =>
      match walk_err with
      | Some e => Some (AddErr e s)
      | None => Some (rmLeftovers flagRmAll s)
      end
  end.
End WithEnv.

(** *** A sample mountpath *)

(** Modelled from the spec: the path schema of [fs.CSM.Gen] and
    [core.ResolveFQN] is not part of the sources; a path encodes the
    content type, the bucket and the object name. *)
Definition ctype_dir (c : ctype) : string :=
  match c with
  | WorkCT => "%wk" | ObjCT => "%ob" | ECSliceCT => "%ec" | ECMetaCT => "%mt"
  | ChunkCT => "%ch" | ChunkMetaCT => "%ut" | OtherCT name => name
  end.

Definition sampleGen (b : Bck) (mi objName : string) (c : ctype) (extra : string)
  : string :=
  (mi +:+ "/" +:+ ctype_dir c +:+ "/" +:+ Name b +:+ "/" +:+ objName +:+ extra)%string.

Definition sampleBck : Bck := mkBck "b1" "ais" EmptyString None.

(** The paths of the sample: the EC metafile, the EC slice and the replica
    of object [o1], and a misplaced object [o2]. *)
Definition sampleResolve (fqn : string) : option (string * ParsedFQN) :=
  if String.eqb fqn "/mp1/%mt/b1/o1" then
    Some (fqn, mkParsed sampleBck ECMetaCT "o1" "/mp1" 1)
  else if String.eqb fqn "/mp1/%ec/b1/o1" then
    Some (fqn, mkParsed sampleBck ECSliceCT "o1" "/mp1" 1)
  else if String.eqb fqn "/mp1/%ob/b1/o1" then
    Some (fqn, mkParsed sampleBck ObjCT "o1" "/mp1" 1)
  else if String.eqb fqn "/mp1/%ob/b1/o2" then
    Some (fqn, mkParsed sampleBck ObjCT "o2" "/mp1" 2)
  else None.

(** A sample environment: a two-hour window counted in seconds, batches of
    eight, erasure coding enabled on the bucket, objects that load without
    error, and [DelExtraCopies(fqn)] that unlinks the given path. *)
Definition sampleEnv (g l : Marked) (args : ArgsMsg) : Env :=
  mkEnv 7200 8 args 1 g l
        sampleGen
        (λ _ _, mkContentInfo EmptyString [] false false)
        (λ fqn, fqn) (λ fqn, fqn) (λ _, true) (λ _ _, false)
        sampleResolve
        (λ _, Some (mkBprops true))
        (λ _ _, None)
        (λ fqn b, inr (mkLOM fqn "o2" b "/mp1" 2 0 10 false false false false false))
        (λ _ lom, inr lom)
        (λ _ _, true)
        (λ _, true)
        (λ w lom, os_Remove (lom_FQN lom) w)
        (λ w lom fqn,
           match fqn with
           | Some f => let '(w, ok) := os_Remove f w in (w, ok, ok)
           | None => (w, false, true)
           end)
        (λ w lom, os_Remove (lom_FQN lom) w)
        (λ _ _, (EmptyString, [])).

Definition noMark : Marked := mkMarked None false false.
Definition rebRunning : Marked := mkMarked (Some "reb[g7]") false false.

Definition sampleWorld (paths : list string) (clock : Z) : World :=
  mkWorld (list_to_map ((λ p, (p, mkFinfo 1000 10)) <$> paths)) ∅ ∅ clock.

(** A jogger on mountpath [/mp1] in bucket [b1], nothing queued. *)
Definition sampleState (paths : list string) (clock : Z) : state :=
  mkState [] [] [] sampleBck clock 0 0 "/mp1"
          (mkXactCln [] None false 0 0) 0 0 (sampleWorld paths clock).
End Space.

(** ** The out-of-space trigger (package ais) *)

Module TgtSpace.
Import Int64.
Local Open Scope Z_scope.

(** [minAutoDetectInterval = 10 * time.Minute], in nanoseconds. *)
Definition minAutoDetectInterval : Z := 10 * 60 * 1000000000.

(** Modelled from the spec: [fs.CapStatus] is not part of the sources.
    The capacity status carries the highest used percentage over the
    mountpaths and the watermarks; crossing the high watermark is a
    capacity error, crossing the out-of-space mark is out-of-space.  The
    zero value reports no error. *)
Record CapStatus : Type := mkCapStatus { PctMax : Z; HighWM : Z; OOS_WM : Z }.

Definition CapStatus0 : CapStatus := mkCapStatus 0 0 0.

Definition IsOOS (cs : CapStatus) : bool := OOS_WM cs <? PctMax cs.

Inductive capErr : Type := ErrCapExceeded (cs : CapStatus).

Definition Err (cs : CapStatus) : option capErr :=
  if IsOOS cs || (HighWM cs <? PctMax cs) then Some (ErrCapExceeded cs) else None.

Inductive nodeFlag : Type := FlagOOS | FlagLowCapacity.

(** What the trigger does, in the order in which it does it: the node
    alert set by [OOS], then, inside the goroutine that [OOS] starts, the
    cleanup run (with the capacity status it returns) and the LRU run. *)
Inductive event : Type :=
| SetFlag (f : nodeFlag)
| RunCleanup (cs2 : CapStatus)
| RunLRU.

Global Instance capStatus_eq_dec : EqDecision CapStatus.
Proof. solve_decision. Defined.
Global Instance nodeFlag_eq_dec : EqDecision nodeFlag.
Proof. solve_decision. Defined.
Global Instance event_eq_dec : EqDecision event.
Proof. solve_decision. Defined.

(** What one trigger reads from its environment: the outcome of
    [fs.CapRefresh] (status, error, capacity error), the monotonic clock in
    [OOS] and in the goroutine, whether [xreg.RenewStoreCleanup] and
    [xreg.RenewLRU] give a new xaction to run (no error and none running),
    and the capacity status that [space.RunCleanup] returns. *)
Record Env : Type := mkEnv {
  CapRefresh : CapStatus * bool * option capErr;
  NanoTime : Z;
  NanoTime_after_cleanup : Z;
  RenewStoreCleanup_new : bool;
  RunCleanup_cs : CapStatus;
  RenewLRU_new : bool;
}.

(** [func (t *target) runSpaceCleanup(xargs, wg) fs.CapStatus]. *)
Definition runSpaceCleanup (E : Env) : CapStatus * list event :=
  if negb (RenewStoreCleanup_new E) then (CapStatus0, [])
  else (RunCleanup_cs E, [RunCleanup (RunCleanup_cs E)]).

(** [func (t *target) runLRU(id, wg, force, bcks...)]. *)
Definition runLRU (E : Env) : list event :=
  if negb (RenewLRU_new E) then [] else [RunLRU].

(** The goroutine of [OOS]: run serially - cleanup first, LRU second (but
    only if out-of-space persists).  Returns the events and the new
    [lastTrigOOS]. *)
Definition oos_goroutine (E : Env) : list event * Z :=
  let '(cs2, evs) := runSpaceCleanup E in
  let lastTrigOOS := NanoTime_after_cleanup E in
  match Err cs2 with
  | Some _ => (evs ++ runLRU E, lastTrigOOS)
  | None => (evs, lastTrigOOS)
  end.

(** [func (t *target) OOS(csRefreshed *fs.CapStatus, config, tcdf) (cs fs.CapStatus)]:
    the returned status, the events of this trigger, and [lastTrigOOS]
    after it. *)
Definition OOS (E : Env) (csRefreshed : option CapStatus) (lastTrigOOS : Z)
  : CapStatus * list event * Z :=
  let '(cs, failed, errCap) :=
    match csRefreshed with
    | Some cs => (cs, false, Err cs)
    | None => CapRefresh E
    end in
  if failed then (cs, [], lastTrigOOS)
  else
    match errCap with
    | None => (cs, [], lastTrigOOS) (* unlikely; nothing to do *)
    | Some _ =>
        if wrap64 (NanoTime E - lastTrigOOS) <? minAutoDetectInterval
        then (cs, [], lastTrigOOS)
        else
          let flag := if IsOOS cs then FlagOOS else FlagLowCapacity in
          let '(evs, lastTrigOOS) := oos_goroutine E in
          (cs, SetFlag flag :: evs, lastTrigOOS)
    end.
End TgtSpace.

(** ** The shared data mover (package bundle) *)

Module SDM.
Import Int64 Transport.
Local Open Scope Z_scope.

(** Two's complement wrap-around of Go's [int32] arithmetic (the idle tick
    count is an [atomic.Int32]). *)
Definition wrap32 (z : Z) : Z := (z + 2 ^ 31) mod 2 ^ 32 - 2 ^ 31.

(** [oldAgeTickCount]: [cmn.SharedStreamsDflt] (ten minutes) in ticks of
    [hk.Prune2mIval] (two minutes), rounded up. *)
Definition oldAgeTickCount : Z := (10 + 2 - 1) / 2.

(** A [transport.Receiver]: its [ID()] and what its [RecvObj] returns for a
    header and a payload ([None] is [nil]). *)
Record Receiver : Type := mkReceiver {
  ID : string;
  RecvObj : ObjHdr → list Z → option string;
}.

Record rxent : Type := mkRxent {
  rx : Receiver;
  ticks : Z;  (* idle tick count *)
}.

(** [receivers] is [nil] (no entry) while the data mover is closed. *)
Record sharedDM : Type := mkSDM {
  receivers : gmap string rxent;
  opened : bool;
}.

Definition isOpen (sdm : sharedDM) : bool := opened sdm.

(** [func (sdm *sharedDM) getActive() string]: [None] is the empty string. *)
Definition getActive (sdm : sharedDM) : option string :=
  fst <$> List.find (λ kv : string * rxent, ticks kv.2 <? oldAgeTickCount)
                    (map_to_list (receivers sdm)).

(** [func (sdm *sharedDM) Open() error]; [regOk] tells whether the
    transport-level [dm.RegRecv()] succeeds. *)
Definition Open (regOk : bool) (sdm : sharedDM) : sharedDM * bool :=
  if isOpen sdm then (sdm, true)
  else if regOk then (mkSDM ∅ true, true)
  else (mkSDM ∅ false, false).

(** [func (sdm *sharedDM) housekeep(int64) time.Duration]. *)
Definition housekeep (sdm : sharedDM) : sharedDM :=
  if negb (isOpen sdm) then sdm
  else mkSDM ((λ en, mkRxent (rx en) (wrap32 (ticks en + 1))) <$> receivers sdm)
             (opened sdm).

(** [func (sdm *sharedDM) Close() error]. *)
Definition Close (sdm : sharedDM) : sharedDM * bool :=
  match getActive sdm with
  | Some xid => (sdm, false)
  | None => (mkSDM ∅ false, true)
  end.

(** [func (sdm *sharedDM) RegRecv(rx transport.Receiver)]. *)
Definition RegRecv (r : Receiver) (sdm : sharedDM) : sharedDM :=
  if isOpen sdm then mkSDM (<[ID r := mkRxent r 0]> (receivers sdm)) (opened sdm)
  else sdm.

(** [func (sdm *sharedDM) UseRecv(rx transport.Receiver)]. *)
Definition UseRecv (r : Receiver) (sdm : sharedDM) : sharedDM :=
  match receivers sdm !! ID r with
  | Some _ => sdm
  | None => RegRecv r sdm
  end.

(** [func (sdm *sharedDM) UnregRecv(xid string)]. *)
Definition UnregRecv (xid : string) (sdm : sharedDM) : sharedDM :=
  mkSDM (delete xid (receivers sdm)) (opened sdm).

Inductive rerr : Type :=
| ErrTransport (e : string)
| ErrInvalidUUID (xid : string)
| ErrNotFound (xid oname : string)
| ErrMismatch (xid id : string)
| ErrRecvObj (e : string).

(** One invocation of a receiver's [RecvObj]. *)
Definition call : Type := Receiver * ObjHdr * list Z.

(** [func (sdm *sharedDM) recv(hdr *transport.ObjHdr, r io.Reader, err error) error]:
    the returned error, the [RecvObj] invocations made, and the data mover
    after the call.  [CheckValidUUID] is [xact.CheckValidUUID(xid) == nil]. *)
Definition recv (CheckValidUUID : string → bool) (sdm : sharedDM)
           (hdr : ObjHdr) (r : list Z) (err : option string)
  : option rerr * list call * sharedDM :=
  match err with
  | Some e => (Some (ErrTransport e), [], sdm)
  | None =>
      let xid := Demux hdr in
      if negb (CheckValidUUID xid) then (Some (ErrInvalidUUID xid), [], sdm)
      else
        match receivers sdm !! xid with
        | None => (Some (ErrNotFound xid (ObjName hdr)), [], sdm)
        | Some en =>
            (* (unlikely) *)
            if negb (String.eqb (ID (rx en)) xid)
            then (Some (ErrMismatch xid (ID (rx en))), [], sdm)
            else
              match RecvObj (rx en) hdr r with
              | Some e => (Some (ErrRecvObj e), [(rx en, hdr, r)], sdm)
              | None =>
                  (None, [(rx en, hdr, r)],
                   mkSDM (alter (λ en, mkRxent (rx en) 0) xid (receivers sdm))
                         (opened sdm))
              end
        end
  end.
End SDM.

(** ** The data mover (package bundle) *)

Module DM.
Import Int64 Transport.
Local Open Scope Z_scope.

(** [SDMName]. *)
Definition SDMName : string := "shared-dm".

(** The constants of packages [apc] and [cmn] that the data mover reads;
    their values are not part of the sources. *)
Record Consts : Type := mkConsts {
  CompressNever : string;
  NetIntraData : string;
  NetIntraControl : string;
}.

(** [transport.RecvObj]: the error that the callback returns for a header,
    a payload and the transport error it is handed. *)
Definition RecvObj : Type := ObjHdr → list Z → option string → option string.

(** [bp]: the client and the streams are pointers, here [nil] or not. *)
Record bp : Type := mkBp {
  client : bool;
  recv : option RecvObj;
  streams : bool;
  trname : string;
  net : string;
}.

Definition bp0 : bp := mkBp false None false EmptyString EmptyString.

(** The xaction that drives the data mover: its abort state and the Rx
    counters that [InObjsAdd] adds to. *)
Record xact : Type := mkXact {
  x_base : Xact.t;
  in_objs : Z;
  in_bytes : Z;
}.

Definition InObjsAdd (cnt size : Z) (x : xact) : xact :=
  mkXact (x_base x) (wrap64 (in_objs x + cnt)) (wrap64 (in_bytes x + size)).

Record stage_t : Type := mkStage {
  regged : bool;
  opened : bool;
  laterx : bool;
}.

(** [DM]; [config] stands for the pointer to the configuration, [owt] for
    the [cmn.OWT] enum. *)
Record DM : Type := mkDM {
  data : bp;
  ack : bp;
  xctn : option xact;
  config : Z;
  compression : string;
  multiplier : Z;
  owt : Z;
  stage : stage_t;
  sizePDU : Z;
  maxHdrSize : Z;
}.

Record Extra : Type := mkExtra {
  RecvAck : option RecvObj;
  Config : Z;
  Compression : string;
  Multiplier : Z;
  SizePDU : Z;
  MaxHdrSize : Z;
}.

Definition set_stage (st : stage_t) (dm : DM) : DM :=
  mkDM (data dm) (ack dm) (xctn dm) (config dm) (compression dm) (multiplier dm)
       (owt dm) st (sizePDU dm) (maxHdrSize dm).
Definition set_regged (b : bool) (dm : DM) : DM :=
  set_stage (mkStage b (opened (stage dm)) (laterx (stage dm))) dm.
Definition set_opened (b : bool) (dm : DM) : DM :=
  set_stage (mkStage (regged (stage dm)) b (laterx (stage dm))) dm.
Definition set_laterx (b : bool) (dm : DM) : DM :=
  set_stage (mkStage (regged (stage dm)) (opened (stage dm)) b) dm.
Definition set_xctn (x : option xact) (dm : DM) : DM :=
  mkDM (data dm) (ack dm) x (config dm) (compression dm) (multiplier dm)
       (owt dm) (stage dm) (sizePDU dm) (maxHdrSize dm).
Definition set_config (c : Z) (dm : DM) : DM :=
  mkDM (data dm) (ack dm) (xctn dm) c (compression dm) (multiplier dm)
       (owt dm) (stage dm) (sizePDU dm) (maxHdrSize dm).
Definition set_streams (d a : bool) (dm : DM) : DM :=
  mkDM (mkBp (client (data dm)) (recv (data dm)) d (trname (data dm)) (net (data dm)))
       (mkBp (client (ack dm)) (recv (ack dm)) a (trname (ack dm)) (net (ack dm)))
       (xctn dm) (config dm) (compression dm) (multiplier dm)
       (owt dm) (stage dm) (sizePDU dm) (maxHdrSize dm).

(** [func (dm *DM) useACKs() bool]. *)
Definition useACKs (dm : DM) : bool := bool_decide (is_Some (recv (ack dm))).

(** [func (dm *DM) IsFree() bool]. *)
Definition IsFree (dm : DM) : bool := negb (regged (stage dm)).

Section WithConsts.
Context (K : Consts).

(** [extra.Compression], with the empty string read as [apc.CompressNever]. *)
Definition compression_of (extra : Extra) : string :=
  if String.eqb (Compression extra) EmptyString then CompressNever K
  else Compression extra.

(** [func (dm *DM) init(trname string, recvCB transport.RecvObj, owt cmn.OWT, extra Extra)]. *)
Definition init (trname_ : string) (recvCB : option RecvObj) (owt_ : Z)
           (extra : Extra) (dm : DM) : DM :=
  let data_net :=
    if String.eqb (net (data dm)) EmptyString then NetIntraData K
    else net (data dm) in
  let ack_net :=
    if String.eqb (net (ack dm)) EmptyString then NetIntraControl K
    else net (ack dm) in
  let data_ := mkBp true recvCB (streams (data dm)) trname_ data_net in
  let ack_ :=
    match RecvAck extra with
    | None =>
        mkBp (client (ack dm)) None (streams (ack dm)) (trname (ack dm)) ack_net
    | Some cb =>
        mkBp true (Some cb) (streams (ack dm)) ("ack." +:+ trname_) ack_net
    end in
  mkDM data_ ack_ (xctn dm) (config dm) (compression_of extra) (Multiplier extra)
       owt_ (stage dm) (SizePDU extra) (MaxHdrSize extra).

(** [func NewDM(trname string, recvCB transport.RecvObj, owt cmn.OWT, extra Extra) *DM]. *)
Definition NewDM (trname_ : string) (recvCB : option RecvObj) (owt_ : Z)
           (extra : Extra) : DM :=
  init trname_ recvCB owt_ extra
       (mkDM bp0 bp0 None (Config extra) EmptyString 0 0
             (mkStage false false false) 0 0).

(** [func (dm *DM) Renew(trname, recvCB, owt, extra) *DM]: the data mover
    after the call (its configuration is always refreshed) and the new
    one, when one is returned.  (A production build: [debug.Assert] is
    compiled out.) *)
Definition Renew (trname_ : string) (recvCB : option RecvObj) (owt_ : Z)
           (extra : Extra) (dm : DM) : DM * option DM :=
  let dm := set_config (Config extra) dm in
  if (multiplier dm =? Multiplier extra)
     && String.eqb (compression dm) (compression_of extra)
     && (sizePDU dm =? SizePDU extra) && (maxHdrSize dm =? MaxHdrSize extra)
  then (dm, None)
  else (dm, Some (NewDM trname_ recvCB owt_ extra)).
End WithConsts.

(** What the data mover asks of package [transport] and of its xaction,
    in the order of the calls. *)
Inductive event : Type :=
| Handle (name : string) (ok : bool)
| Unhandle (name : string) (ok : bool)
| Quiesce (timeout : Z)
| StreamsClose (name : string) (gracefully : bool).

Inductive regErr : Type :=
| ErrDuplicatedReg
| ErrHandle (name : string).

(** [func (dm *DM) RegRecv() error]; [handle] and [unhandle] tell whether
    [transport.Handle] and [transport.Unhandle] return [nil] for a name
    (a production build: [debug.Assert] is compiled out). *)
Definition RegRecv (handle unhandle : string → bool) (dm : DM)
  : DM * option regErr * list event :=
  if regged (stage dm) then (dm, Some ErrDuplicatedReg, [])
  else
    let d := trname (data dm) in
    if negb (handle d) then (dm, Some (ErrHandle d), [Handle d false])
    else
      if useACKs dm then
        let a := trname (ack dm) in
        if negb (handle a) then
          (dm, Some (ErrHandle a),
           [Handle d true; Handle a false; Unhandle d (unhandle d)])
        else (set_regged true dm, None, [Handle d true; Handle a true])
      else (set_regged true dm, None, [Handle d true]).

(** [time.Second], in nanoseconds. *)
Definition Second : Z := 1000000000.

(** [func (dm *DM) UnregRecv()], on a data mover that is not [nil];
    [quiesceTime] is [dm.config.Transport.QuiesceTime.D()], and [rx] is
    what the callbacks of [dm.Quiesce] leave in [stage.laterx] ([quicb]
    is called by the xaction's [Quiesce], which is not part of the
    sources). *)
Definition UnregRecv (quiesceTime : Z) (rx : bool) (unhandle : string → bool)
           (dm : DM) : DM * list event :=
  if negb (regged (stage dm)) then (dm, [])
  else
    let '(dm, q) :=
      match xctn dm with
      | Some x =>
          (set_laterx rx dm,
           [Quiesce (if Xact.IsAborted (x_base x) then Second else quiesceTime)])
      | None => (dm, [])
      end in
    let d := trname (data dm) in
    let a := trname (ack dm) in
    (set_regged false dm,
     q ++ [Unhandle d (unhandle d)]
       ++ (if useACKs dm then [Unhandle a (unhandle a)] else [])).

(** [func (dm *DM) Open()]. *)
Definition Open (dm : DM) : DM :=
  set_opened true (set_streams true (if useACKs dm then true else streams (ack dm)) dm).

(** [func (dm *DM) Close(err error)], on a data mover that is not [nil]. *)
Definition Close (err : option string) (dm : DM) : DM * list event :=
  if negb (opened (stage dm)) then (dm, [])
  else
    let dm := set_opened false dm in
    let aborted :=
      match xctn dm with
      | Some x => Xact.IsAborted (x_base x)
      | None => false
      end in
    (* nil: close gracefully via `fin`, otherwise abort *)
    let gracefully := bool_decide (err = None) && negb aborted in
    (dm,
     StreamsClose (trname (data dm)) gracefully
       :: (if useACKs dm then [StreamsClose (trname (ack dm)) gracefully] else [])).

Inductive QuiRes : Type := QuiInactiveCB | QuiActive.

(** [func (dm *DM) quicb(time.Duration) core.QuiRes]. *)
Definition quicb (dm : DM) : QuiRes * DM :=
  let aborted :=
    match xctn dm with
    | Some x => Xact.IsAborted (x_base x)
    | None => false
    end in
  if aborted then (QuiInactiveCB, dm)
  else if laterx (stage dm) then (QuiActive, set_laterx false dm)
  else (QuiInactiveCB, dm).

(** [func (dm *DM) wrapRecvData(hdr, reader, err) error]; [bckName] and
    [size] are [hdr.Bck.Name] and [hdr.ObjAttrs.Size].  [None] is the
    nil-pointer panic of a data mover without receive callback or, for a
    name other than the shared one, without xaction. *)
Definition wrapRecvData (bckName : string) (size : Z) (hdr : ObjHdr)
           (reader : list Z) (err : option string) (dm : DM)
  : option (DM * option string) :=
  match recv (data dm) with
  | None => None
  | Some cb =>
      if String.eqb (trname (data dm)) SDMName then Some (dm, cb hdr reader err)
      else
        match xctn dm with
        | None =>
            if negb (String.eqb bckName EmptyString)
               && negb (String.eqb (ObjName hdr) EmptyString) && (0 <=? size)
            then None
            else Some (set_laterx true dm, cb hdr reader err)
        | Some x =>
            let x :=
              if negb (String.eqb bckName EmptyString)
                 && negb (String.eqb (ObjName hdr) EmptyString) && (0 <=? size)
              then InObjsAdd 1 size x else x in
            Some (set_laterx true (set_xctn (Some x) dm), cb hdr reader err)
        end
  end.

(** [func (dm *DM) wrapRecvACK(hdr, reader, err) error]. *)
Definition wrapRecvACK (hdr : ObjHdr) (reader : list Z) (err : option string)
           (dm : DM) : option (DM * option string) :=
  match recv (ack dm) with
  | None => None
  | Some cb => Some (set_laterx true dm, cb hdr reader err)
  end.
End DM.

(** * Properties *)

(** ** cos.ErrValue *)

Module ErrValueSpec.
Import Int64 ErrValue.

Lemma wrap64_id z : in_range z → wrap64 z = z.
Proof.
  unfold in_range, min_int, max_int, wrap64. intros H.
  rewrite Z.mod_small; lia.
Qed.

(** After a first [Store] that took effect, every later [Store] keeps the
    stored error and adds one to the count. *)
Lemma StoreAll_keeps (rest : list (option error)) :
  ∀ (e : error) (c : Z),
    1 <= c → c + Z.of_nat (length rest) <= max_int →
    StoreAll rest (mk (Some e) c) = Some (mk (Some e) (c + Z.of_nat (length rest))).
Proof.
  induction rest as [|x rest IH]; intros e c Hc Hlen; simpl in *.
  - do 2 f_equal. lia.
  - unfold Store. simpl.
    rewrite wrap64_id by (unfold in_range, min_int, max_int in *; lia).
    destruct (Z.eqb_spec (c + 1) 1) as [Heq|_]; [lia|].
    rewrite IH by (unfold max_int in *; lia). do 2 f_equal. lia.
Qed.

(** C9 (as amended): the error of the first [Store] call, which must not be
    [nil], is the one retained.  Later calls, with a [nil] error or not,
    only add to the count; [Err()] returns the first error, wrapped with
    the count when [Store] was called more than once.  The count is an
    [int64]: the statement is for fewer than [2^63] calls. *)
Theorem Store_first_call_wins (e : error) (rest : list (option error)) :
  1 + Z.of_nat (length rest) <= max_int →
  ∃ ea,
    StoreAll (Some e :: rest) zero = Some ea
    ∧ value ea = Some e
    ∧ cnt ea = 1 + Z.of_nat (length rest)
    ∧ Err ea = Some (match rest with
                     | [] => e
                     | _ :: _ => WrapCnt e (1 + Z.of_nat (length rest))
                     end).
Proof.
  intros Hlen. exists (mk (Some e) (1 + Z.of_nat (length rest))).
  split; [|split; [|split]].
  - cbn [StoreAll]. unfold Store, zero. cbn [cnt value].
    change (wrap64 (0 + 1)) with 1. cbn [Z.eqb Pos.eqb Value_Store cnt].
    apply StoreAll_keeps; unfold max_int in *; lia.
  - reflexivity.
  - reflexivity.
  - unfold Err, _load. cbn [value cnt].
    destruct rest as [|x rest]; [reflexivity|].
    destruct (Z.ltb_spec 1 (1 + Z.of_nat (length (x :: rest)))) as [_|H];
      [reflexivity|]. simpl in H. lia.
Qed.

Lemma Store_first_call_wins_witness :
  ∃ ea,
    StoreAll [Some (ErrNew "e1"); None; Some (ErrNew "e2")] zero = Some ea
    ∧ value ea = Some (ErrNew "e1")
    ∧ cnt ea = 1 + Z.of_nat (length [None; Some (ErrNew "e2")])
    ∧ Err ea = Some (WrapCnt (ErrNew "e1")
                       (1 + Z.of_nat (length [None; Some (ErrNew "e2")]))).
Proof.
  apply (Store_first_call_wins (ErrNew "e1") [None; Some (ErrNew "e2")]).
  vm_compute. discriminate.
Defined.

(** C9, as stated, fails when the first call carries [nil]: the later
    non-nil error is never retained (the first [Store] panics inside
    [atomic.Value]). *)
Lemma Store_nil_first_counterexample :
  StoreAll [None; Some (ErrNew "e1")] zero = None
  ∧ Store None zero = None.
Proof. split; reflexivity. Qed.
End ErrValueSpec.

(** ** The sentinel *)

Module SentinelSpec.
Import Int64 Transport Meta Xact Sentinel.

(** Sample cluster: this target [t1] and the peers [t2], [t3]. *)
Definition smap3 : Smap :=
  mkSmap (<["t1" := mkSnode false]> (<["t2" := mkSnode false]>
           (<["t3" := mkSnode false]> ∅))) ∅.

(** [t3] has left the cluster map. *)
Definition smap2 : Smap :=
  mkSmap (<["t1" := mkSnode false]> (<["t2" := mkSnode false]> ∅)) ∅.

(** The sentinel of [t1] after [init] and [initLast 1]. *)
Definition s3 : sentinel := initLast 1 (init Xact.running "t1" smap3 3).

Definition hdr_of (sid : string) (numvis : Z) : ObjHdr :=
  mkHdr sid EmptyString EmptyString 0 [0; 0; 0; 0; 0; 0; 0; numvis].

Lemma elem_of_pending (tid : string) (s : sentinel) :
  is_pending tid s ↔
  ∃ ap, pend_m s !! tid = Some ap ∧ last ap ≠ apairDeleted.
Proof.
  unfold is_pending, pending. simpl. rewrite list_elem_of_omap. split.
  - intros [[k ap] [Hin Hf]]. simpl in Hf.
    apply elem_of_map_to_list in Hin.
    destruct (Z.eqb_spec (last ap) apairDeleted); [discriminate|].
    injection Hf as ->. eauto.
  - intros [ap [Hl Hne]]. exists (tid, ap). split.
    + by apply elem_of_map_to_list.
    + simpl. destruct (Z.eqb_spec (last ap) apairDeleted); [done|done].
Qed.

Lemma timed_out_not_deleted now pt ap :
  timed_out now pt ap = true →
  last ap ≠ apairDeleted ∧ pt < wrap64 (now - last ap).
Proof.
  unfold timed_out. intros H. apply andb_prop in H as [H1 H2].
  apply negb_true_iff in H1. apply Z.eqb_neq in H1. apply Z.ltb_lt in H2. done.
Qed.

Lemma find_some_of_elem {A} (f : A → bool) (l : list A) (x : A) :
  x ∈ l → f x = true → ∃ y, List.find f l = Some y ∧ y ∈ l ∧ f y = true.
Proof.
  intros Hin Hf. destruct (List.find f l) as [y|] eqn:E.
  - apply List.find_some in E as [HI Hy]. exists y.
    split; [done|]. split; [by apply list_elem_of_In|done].
  - apply list_elem_of_In in Hin.
    pose proof (List.find_none f l E x Hin). congruence.
Qed.

Lemma Abort_running err x :
  IsAborted x || Finished x = false → abort_err (Abort err x) = Some err.
Proof. unfold Abort. intros ->. reflexivity. Qed.

Lemma Abort_IsAborted_or_Finished err x :
  IsAborted (Abort err x) || Finished (Abort err x) = true.
Proof.
  unfold Abort. destruct (IsAborted x || Finished x) eqn:E; [done|].
  reflexivity.
Qed.

(** The membership condition that [checkSmap] tests. *)
Definition membership_changed (s : sentinel) (smap : Smap) (p : list string) : Prop :=
  CountActiveTs smap ≠ s_nat s
  ∨ ∃ tid, tid ∈ p ∧ (GetNode smap tid = None ∨ InMaintOrDecomm smap tid = true).

Lemma checkSmap_changed s smap p :
  membership_changed s smap p →
  ∃ d, checkSmap s smap p = Some (ErrMembershipChanges d).
Proof.
  intros H. unfold checkSmap.
  destruct (Z.eqb_spec (CountActiveTs smap) (s_nat s)) as [Heq|Hne]; simpl.
  - destruct H as [H|[tid [Hin Hbad]]]; [done|].
    edestruct (find_some_of_elem
                 (λ tid, bool_decide (GetNode smap tid = None)
                         || InMaintOrDecomm smap tid) p tid) as [y [-> _]];
      [done| |by eexists].
    simpl. destruct Hbad as [Hn| ->]; [|by rewrite orb_true_r].
    by rewrite bool_decide_eq_true_2.
  - by eexists.
Qed.

Lemma checkSmap_unchanged s smap p :
  checkSmap s smap p = None → ¬ membership_changed s smap p.
Proof.
  unfold checkSmap, membership_changed.
  destruct (Z.eqb_spec (CountActiveTs smap) (s_nat s)) as [Heq|Hne]; simpl;
    [|discriminate].
  destruct (List.find _ p) eqn:E; [discriminate|]. intros _ [H|[tid [Hin Hbad]]];
    [done|].
  apply list_elem_of_In in Hin.
  pose proof (List.find_none _ _ E tid Hin) as Hf. simpl in Hf.
  apply orb_false_elim in Hf as [H1 H2].
  destruct Hbad as [Hn|Hm]; [|congruence].
  by rewrite bool_decide_eq_true_2 in H1.
Qed.

Lemma checkSmap_only_membership s smap p e :
  checkSmap s smap p = Some e → isErrMembershipChanges e = true.
Proof.
  unfold checkSmap. destruct (negb _); [by intros [= <-]|].
  destruct (List.find _ p); [by intros [= <-]|discriminate].
Qed.

(** C3 (as amended): at a call of [qcb] that passes the periodic gate
    ([tot / ival] is beyond the last checked tick), a tracked peer that has
    not reported done and whose last progress is older than
    [progressTimeout] makes [qcb] abort the xaction and return
    [QuiAborted]. *)
Theorem qcb_progress_timeout_aborts
    (env : qenv) (tot ival pt ecnt : Z) (s : sentinel) (i : Z)
    (tid : string) (ap : apair) :
  Int64.div tot ival = Some i →
  pend_i s < i →
  pend_m s !! tid = Some ap →
  timed_out (q_now env) pt ap = true →
  ∃ s' err,
    qcb env tot ival pt ecnt s = Some (QuiAborted, s')
    ∧ r s' = Abort err (r s)
    ∧ IsAborted (r s') || Finished (r s') = true
    ∧ (IsAborted (r s) || Finished (r s) = false → abort_err (r s') = Some err)
    ∧ (isErrMembershipChanges err = true
       ∨ ∃ tid' ap', pend_m s !! tid' = Some ap'
                     ∧ timed_out (q_now env) pt ap' = true
                     ∧ err = ErrTimedOut tid' (wrap64 (q_now env - last ap')) tot
                               (pend_p (pending s))).
Proof.
  intros Hdiv Hgate Hm Hto. unfold qcb. rewrite Hdiv.
  destruct (Z.leb_spec i (pend_i s)) as [?|_]; [lia|].
  assert (Hp : is_pending tid s).
  { apply elem_of_pending. exists ap. split; [done|].
    by apply timed_out_not_deleted in Hto as [? _]. }
  unfold is_pending in Hp.
  change (pend_p (pending (set_pend_i i s))) with (pend_p (pending s)).
  rewrite bool_decide_eq_false_2 by (intros E; rewrite E in Hp; by apply elem_of_nil in Hp).
  destruct (checkSmap (pending (set_pend_i i s)) (q_smap env) (pend_p (pending s)))
    as [err|] eqn:Hc.
  - exists (set_r (Abort err (r s)) (pending (set_pend_i i s))), err.
    split; [done|]. split; [done|]. split; [apply Abort_IsAborted_or_Finished|].
    split; [apply Abort_running|]. left. eapply checkSmap_only_membership, Hc.
  - change (pend_m (pending (set_pend_i i s))) with (pend_m s).
    edestruct (find_some_of_elem
                 (λ kv : string * apair, timed_out (q_now env) pt kv.2)
                 (map_to_list (pend_m s)) (tid, ap)) as [[tid' ap'] [-> [Hin Hf]]];
      [by apply elem_of_map_to_list|done|].
    eexists _, _. split; [done|]. split; [done|].
    split; [apply Abort_IsAborted_or_Finished|]. split; [apply Abort_running|].
    right. exists tid', ap'. apply elem_of_map_to_list in Hin. done.
Qed.

Lemma qcb_progress_timeout_aborts_witness :
  ∃ s' err,
    qcb (mkQenv smap3 1000 None) 50 10 100 0 s3 = Some (QuiAborted, s')
    ∧ r s' = Abort err (r s3)
    ∧ IsAborted (r s') || Finished (r s') = true
    ∧ (IsAborted (r s3) || Finished (r s3) = false → abort_err (r s') = Some err)
    ∧ (isErrMembershipChanges err = true
       ∨ ∃ tid' ap', pend_m s3 !! tid' = Some ap'
                     ∧ timed_out 1000 100 ap' = true
                     ∧ err = ErrTimedOut tid' (wrap64 (1000 - last ap')) 50
                               (pend_p (pending s3))).
Proof.
  apply (qcb_progress_timeout_aborts (mkQenv smap3 1000 None) 50 10 100 0 s3 5
           "t2" (mkApair 1 0)).
  - reflexivity.
  - vm_compute. reflexivity.
  - vm_compute. reflexivity.
  - reflexivity.
Defined.

(** C3, as stated, fails at a call that the periodic gate turns away: peer
    [t2] is tracked, has not reported done and its last progress (at 1) is
    older than the timeout (100) at time 1000, yet [qcb] returns
    [QuiActive] and leaves the xaction running. *)
Lemma qcb_gated_timeout_counterexample :
  pend_m (set_pend_i 5 s3) !! "t2" = Some (mkApair 1 0)
  ∧ timed_out 1000 100 (mkApair 1 0) = true
  ∧ qcb (mkQenv smap3 1000 None) 50 10 100 0 (set_pend_i 5 s3)
    = Some (QuiActive, set_pend_i 5 s3)
  ∧ abort_err (r (set_pend_i 5 s3)) = None.
Proof. repeat split; vm_compute; reflexivity. Qed.

(** C4: at a periodic check of [qcb] (a call past the gate of one check
    per interval), with peers pending, a changed cluster map (the
    active-target count differs from the one recorded at [init], or a
    pending peer is missing from the map or is in maintenance or
    decommission) makes [qcb] abort the xaction with a membership-changes
    error. *)
Theorem qcb_membership_changed_aborts
    (env : qenv) (tot ival pt ecnt : Z) (s : sentinel) (i : Z) :
  Int64.div tot ival = Some i →
  pend_i s < i →
  pend_p (pending s) ≠ [] →
  membership_changed s (q_smap env) (pend_p (pending s)) →
  ∃ s' d,
    qcb env tot ival pt ecnt s = Some (QuiAborted, s')
    ∧ r s' = Abort (ErrMembershipChanges d) (r s)
    ∧ (IsAborted (r s) || Finished (r s) = false →
       abort_err (r s') = Some (ErrMembershipChanges d)).
Proof.
  intros Hdiv Hgate Hp Hch. unfold qcb. rewrite Hdiv.
  destruct (Z.leb_spec i (pend_i s)) as [?|_]; [lia|].
  change (pend_p (pending (set_pend_i i s))) with (pend_p (pending s)).
  rewrite bool_decide_eq_false_2 by done.
  destruct (checkSmap_changed (pending (set_pend_i i s)) (q_smap env)
              (pend_p (pending s)) Hch) as [d ->].
  eexists _, d. split; [done|]. split; [done|]. apply Abort_running.
Qed.

Lemma qcb_membership_changed_aborts_witness :
  ∃ s' d,
    qcb (mkQenv smap2 5 None) 50 10 100 0 s3 = Some (QuiAborted, s')
    ∧ r s' = Abort (ErrMembershipChanges d) (r s3)
    ∧ (IsAborted (r s3) || Finished (r s3) = false →
       abort_err (r s') = Some (ErrMembershipChanges d)).
Proof.
  apply (qcb_membership_changed_aborts (mkQenv smap2 5 None) 50 10 100 0 s3 5).
  - reflexivity.
  - vm_compute. reflexivity.
  - vm_compute. discriminate.
  - left. vm_compute. discriminate.
Defined.

(** The check is periodic: with [t3] gone from the cluster map, a call
    between two ticks returns [QuiActive], and the call of the next tick
    aborts the xaction with the membership-changes error (two active
    targets where three were counted at [init]). *)
Example qcb_membership_next_tick :
  qcb (mkQenv smap2 5 None) 50 10 100 0 (set_pend_i 5 s3)
  = Some (QuiActive, set_pend_i 5 s3)
  ∧ ∃ s', qcb (mkQenv smap2 5 None) 60 10 100 0 (set_pend_i 5 s3)
          = Some (QuiAborted, s')
          ∧ abort_err (r s')
            = Some (ErrMembershipChanges (CountMismatch 2 3)).
Proof. split; [vm_compute; reflexivity|]. eexists. split; vm_compute; reflexivity. Qed.

(** Between two ticks [qcb] checks nothing. *)
Lemma qcb_gated (env : qenv) (tot ival pt ecnt : Z) (s : sentinel) (i : Z) :
  Int64.div tot ival = Some i → i <= pend_i s →
  qcb env tot ival pt ecnt s = Some (QuiActive, s).
Proof.
  intros Hdiv Hgate. unfold qcb. rewrite Hdiv.
  by destruct (Z.leb_spec i (pend_i s)) as [_|?]; [|lia].
Qed.

(** *** Receiving [opDone] and [opResponse] *)

(** [initLast] leaves the mark of a peer that reported done in place. *)
Lemma initLast_keeps_deleted (now : Z) (tid : string) (s : sentinel) (ap : apair) :
  pend_m s !! tid = Some ap → last ap = apairDeleted →
  pend_m (initLast now s) !! tid = Some ap.
Proof.
  intros Hm Hl. unfold initLast. simpl. rewrite lookup_fmap, Hm. simpl.
  rewrite Hl. reflexivity.
Qed.

Lemma rxDone_idempotent (hdr : ObjHdr) (s : sentinel) :
  rxDone hdr (rxDone hdr s) = rxDone hdr s.
Proof.
  unfold rxDone at 2 3.
  destruct (IsAborted (r s) || Finished (r s)) eqn:Hr.
  { unfold rxDone. by rewrite Hr. }
  destruct (pend_m s !! SID hdr) as [ap|] eqn:Hm.
  2:{ unfold rxDone. by rewrite Hr, Hm. }
  destruct (negb (last ap =? apairDeleted)); unfold rxDone; simpl;
    rewrite Hr, lookup_insert_eq; simpl; by rewrite insert_insert_eq.
Qed.

(** The first [opDone] of a pending peer of a running xaction takes one off
    the count and the peer off the pending list. *)
Lemma rxDone_first (hdr : ObjHdr) (s : sentinel) :
  IsAborted (r s) || Finished (r s) = false →
  is_pending (SID hdr) s →
  pend_n (rxDone hdr s) = wrap64 (pend_n s - 1)
  ∧ ¬ is_pending (SID hdr) (rxDone hdr s).
Proof.
  intros Hr Hp. apply elem_of_pending in Hp as [ap [Hm Hne]].
  unfold rxDone. rewrite Hr, Hm.
  destruct (Z.eqb_spec (last ap) apairDeleted) as [?|_]; [done|]. simpl.
  split; [done|]. rewrite elem_of_pending. simpl. rewrite lookup_insert_eq.
  intros [ap' [[= <-] Hne']]. done.
Qed.

(** Further [opDone] messages, from whatever peers, neither re-admit a peer
    that reported done nor count it again. *)
Lemma rxDone_keeps_deleted (hdr : ObjHdr) (tid : string) (s : sentinel) :
  ¬ is_pending tid s → ¬ is_pending tid (rxDone hdr s).
Proof.
  intros Hn Hp. apply Hn. apply elem_of_pending in Hp as [ap [Hm Hne]].
  apply elem_of_pending. unfold rxDone in Hm.
  destruct (IsAborted (r s) || Finished (r s)); [by eauto|].
  destruct (pend_m s !! SID hdr) as [ap0|] eqn:Hm0; [|by eauto].
  assert (Hm' : <[SID hdr := mkApair apairDeleted (progress ap0)]> (pend_m s) !! tid
                = Some ap).
  { by destruct (negb (last ap0 =? apairDeleted)). }
  destruct (decide (SID hdr = tid)) as [<-|Hd].
  - rewrite lookup_insert_eq in Hm'. injection Hm' as <-. done.
  - rewrite lookup_insert_ne in Hm' by done. eauto.
Qed.

Lemma rxDone_again (hdr : ObjHdr) (s : sentinel) :
  pend_n (rxDone hdr (rxDone hdr s)) = pend_n (rxDone hdr s).
Proof. by rewrite rxDone_idempotent. Qed.

(** A progress report with a changed [num-visited] stores a fresh
    timestamp whatever the old one was, [apairDeleted] included. *)
Lemma rxProgress_stores_now (now : Z) (hdr : ObjHdr) (s : sentinel)
      (u : Z) (ap : apair) :
  BigEndian_Uint64 (Opaque hdr) = Some u →
  pend_m s !! SID hdr = Some ap →
  progress ap ≠ wrap64 u →
  ∃ s', rxProgress now hdr s = Some s'
        ∧ pend_m s' !! SID hdr = Some (mkApair now (wrap64 u)).
Proof.
  intros Hu Hm Hne. unfold rxProgress. rewrite Hu, Hm.
  destruct (Z.eqb_spec (progress ap) (wrap64 u)) as [?|_]; [done|]. simpl.
  eexists. split; [done|]. simpl. by rewrite lookup_insert_eq.
Qed.

(** C10 at the failing input [opDone(t2); opResponse(t2, num-visited 7);
    opDone(t2)] on the sentinel of a running xaction with peers [t2] and
    [t3] pending: the progress report that follows the first [opDone] puts
    [t2] back on the pending list, and the second [opDone] takes a second
    one off the pending-peer count. *)
Theorem rxDone_rxProgress_rxDone_counts_twice :
  pend_n s3 = 2
  ∧ pend_p (pending s3) = ["t3"; "t2"]
  ∧ (∃ s', rxAll [RxDone (hdr_of "t2" 7)] s3 = Some s'
           ∧ pend_n s' = 1 ∧ pend_p (pending s') = ["t3"])
  ∧ (∃ s', rxAll [RxDone (hdr_of "t2" 7); RxProgress 100 (hdr_of "t2" 7)] s3 = Some s'
           ∧ pend_n s' = 1 ∧ pend_p (pending s') = ["t3"; "t2"])
  ∧ (∃ s', rxAll [RxDone (hdr_of "t2" 7); RxProgress 100 (hdr_of "t2" 7);
                  RxDone (hdr_of "t2" 7)] s3 = Some s'
           ∧ pend_n s' = 0 ∧ pend_p (pending s') = ["t3"]).
Proof.
  split; [reflexivity|]. split; [vm_compute; reflexivity|].
  split; [|split]; eexists; (split; [reflexivity|]); split; vm_compute; reflexivity.
Qed.
End SentinelSpec.

(** ** The sentinel: bookkeeping of the pending peers *)

Module SentinelExtra.
Import Int64 Transport Meta Xact Sentinel SentinelSpec.

(** The peers that have not reported done, as a map. *)
Definition live (m : gmap string apair) : gmap string apair :=
  filter (λ kv : string * apair, last kv.2 ≠ apairDeleted) m.

Lemma length_pending_list (m : gmap string apair) :
  length (omap (λ kv : string * apair,
                  if last kv.2 =? apairDeleted then None else Some kv.1)
               (map_to_list m))
  = size (live m).
Proof.
  unfold live. induction m as [|k ap m Hk IH] using map_ind.
  - by rewrite map_to_list_empty, map_filter_empty, map_size_empty.
  - rewrite (map_to_list_insert m k ap Hk). simpl.
    destruct (Z.eqb_spec (last ap) apairDeleted) as [Hd|Hd].
    + rewrite map_filter_insert_False by (simpl; tauto).
      rewrite delete_id by done. exact IH.
    + rewrite map_filter_insert_True by done.
      rewrite map_size_insert_None by (by rewrite map_lookup_filter_None; left).
      simpl. f_equal. exact IH.
Qed.

Lemma length_pending (s : sentinel) :
  length (pend_p (pending s)) = size (live (pend_m s)).
Proof. apply length_pending_list. Qed.

(** [pend.n] is the number of peers that [pending] lists (and an [int64]). *)
Definition counts_pending (s : sentinel) : Prop :=
  pend_n s = Z.of_nat (length (pend_p (pending s))) ∧ pend_n s <= max_int.

Lemma live_mark_deleted (m : gmap string apair) (tid : string) (ap : apair) :
  m !! tid = Some ap →
  live (<[tid := mkApair apairDeleted (progress ap)]> m) = delete tid (live m).
Proof.
  intros Hm. unfold live. rewrite map_filter_insert_False by (simpl; tauto).
  by rewrite map_filter_delete.
Qed.

Lemma rxDone_counts (hdr : ObjHdr) (s : sentinel) :
  counts_pending s → counts_pending (rxDone hdr s).
Proof.
  unfold counts_pending. rewrite !length_pending. intros [Hc Hmax]. unfold rxDone.
  destruct (IsAborted (r s) || Finished (r s)); [done|].
  destruct (pend_m s !! SID hdr) as [ap|] eqn:Hm; [|done].
  destruct (Z.eqb_spec (last ap) apairDeleted) as [Hd|Hd]; simpl.
  - rewrite (live_mark_deleted _ _ _ Hm).
    rewrite delete_id; [done|].
    unfold live. apply map_lookup_filter_None. right. intros ap' Hm'. simpl.
    rewrite Hm in Hm'. injection Hm' as <-. tauto.
  - rewrite (live_mark_deleted _ _ _ Hm).
    assert (Hl : live (pend_m s) !! SID hdr = Some ap).
    { unfold live. by apply map_lookup_filter_Some. }
    pose proof (map_size_delete_Some (SID hdr) (live (pend_m s))) as Hsz.
    assert (Hpos : (0 < size (live (pend_m s)))%nat).
    { destruct (size (live (pend_m s))) eqn:E; [|lia].
      apply map_size_empty_inv in E. rewrite E in Hl. by rewrite lookup_empty in Hl. }
    rewrite Hsz by eauto. rewrite Hc in *.
    unfold max_int in *. unfold wrap64. rewrite Z.mod_small; lia.
Qed.

Lemma rxAbort_counts (hdr : ObjHdr) (s : sentinel) :
  counts_pending s → counts_pending (rxAbort hdr s).
Proof.
  unfold counts_pending, rxAbort.
  by destruct (IsAborted (r s) || Finished (r s)).
Qed.

(** *** The peers of [init] *)

(** The active targets of the map: those not in maintenance or decommission. *)
Definition active (smap : Smap) : gmap string Snode :=
  filter (λ kv : string * Snode, maint_or_decomm kv.2 = false) (Tmap smap).

Lemma CountActiveTs_size (smap : Smap) :
  CountActiveTs smap = Z.of_nat (size (active smap)).
Proof.
  unfold CountActiveTs, active. f_equal.
  induction (Tmap smap) as [|k n m Hk IH] using map_ind.
  - by rewrite map_to_list_empty, map_filter_empty, map_size_empty.
  - rewrite (map_to_list_insert m k n Hk). rewrite filter_cons.
    destruct (decide (maint_or_decomm (k, n).2 = false)) as [Ha|Ha].
    + rewrite map_filter_insert_True by done.
      rewrite map_size_insert_None by (by rewrite map_lookup_filter_None; left).
      simpl. f_equal. exact IH.
    + rewrite map_filter_insert_False by done. rewrite delete_id by done. exact IH.
Qed.

Lemma InMaintOrDecomm_target (smap : Smap) (tid : string) (n : Snode) :
  Tmap smap !! tid = Some n → InMaintOrDecomm smap tid = maint_or_decomm n.
Proof. intros H. unfold InMaintOrDecomm, GetNode. by rewrite H. Qed.

Lemma init_peers (x : Xact.t) (self : string) (smap : Smap) (nat : Z) (tid : string) :
  pend_m (init x self smap nat) !! tid
  = (λ _, mkApair 0 0) <$> delete self (active smap) !! tid.
Proof.
  unfold init, active. simpl. rewrite lookup_fmap. f_equal.
  destruct (decide (self = tid)) as [<-|Hne].
  - rewrite lookup_delete_eq. apply map_lookup_filter_None. right.
    intros n _ [Hs _]. done.
  - rewrite lookup_delete_ne by done.
    destruct (Tmap smap !! tid) as [n|] eqn:Ht.
    + destruct (maint_or_decomm n) eqn:Hm.
      * transitivity (@None Snode); [|symmetry]; apply map_lookup_filter_None; right;
          intros n' Hn'; rewrite Ht in Hn'; injection Hn' as <-; simpl.
        -- intros [_ Hi]. rewrite (InMaintOrDecomm_target _ _ _ Ht) in Hi. congruence.
        -- congruence.
      * transitivity (Some n); [|symmetry]; apply map_lookup_filter_Some;
          (split; [done|]); simpl; [|done].
        split; [congruence|]. by rewrite (InMaintOrDecomm_target _ _ _ Ht).
    + transitivity (@None Snode); [|symmetry]; apply map_lookup_filter_None; by left.
Qed.

(** X1: right after [init], the peers that [pending] lists are exactly the
    targets of the cluster map other than this target itself that are not in
    maintenance or being decommissioned. *)
Theorem init_pending_peers
    (x : Xact.t) (self : string) (smap : Smap) (nat : Z) (tid : string) :
  is_pending tid (init x self smap nat) ↔
  tid ≠ self
  ∧ ∃ n, Tmap smap !! tid = Some n ∧ maint_or_decomm n = false.
Proof.
  rewrite elem_of_pending. setoid_rewrite init_peers. split.
  - intros [ap [Hl _]].
    destruct (delete self (active smap) !! tid) as [n|] eqn:Hd; [|done].
    apply lookup_delete_Some in Hd as [Hne Ha].
    unfold active in Ha. apply map_lookup_filter_Some in Ha as [Ht Hm].
    split; [done|]. by exists n.
  - intros [Hne [n [Ht Hm]]]. exists (mkApair 0 0). split; [|done].
    assert (Hd : delete self (active smap) !! tid = Some n).
    { apply lookup_delete_Some. split; [done|]. unfold active.
      by apply map_lookup_filter_Some. }
    by rewrite Hd.
Qed.

(** *** The count of pending peers *)

Lemma init_counts (x : Xact.t) (self : string) (smap : Smap) (n : Snode) :
  Tmap smap !! self = Some n → maint_or_decomm n = false →
  CountActiveTs smap <= max_int →
  counts_pending (init x self smap (CountActiveTs smap)).
Proof.
  intros Hself Hact Hmax. unfold counts_pending. rewrite length_pending.
  assert (Hm : pend_m (init x self smap (CountActiveTs smap))
               = (λ _, mkApair 0 0) <$> delete self (active smap)).
  { apply map_eq. intros tid. rewrite init_peers. by rewrite lookup_fmap. }
  assert (Hlive : live (pend_m (init x self smap (CountActiveTs smap)))
                  = pend_m (init x self smap (CountActiveTs smap))).
  { unfold live. apply map_filter_id. intros tid ap. rewrite Hm, lookup_fmap.
    destruct (delete self (active smap) !! tid); [|done]. by intros [= <-]. }
  rewrite Hlive, Hm, map_size_fmap.
  assert (Ha : active smap !! self = Some n).
  { unfold active. by apply map_lookup_filter_Some. }
  rewrite map_size_delete_Some by eauto.
  assert (Hpos : (0 < size (active smap))%nat).
  { destruct (size (active smap)) eqn:E; [|lia].
    apply map_size_empty_inv in E. rewrite E in Ha. by rewrite lookup_empty in Ha. }
  change (pend_n (init x self smap (CountActiveTs smap)))
    with (wrap64 (CountActiveTs smap - 1)).
  rewrite CountActiveTs_size in *. unfold max_int in *.
  unfold wrap64. rewrite Z.mod_small; lia.
Qed.

Lemma live_initLast (now : Z) (m : gmap string apair) :
  now ≠ apairDeleted →
  live ((λ ap, if last ap =? 0 then mkApair now (progress ap) else ap) <$> m)
  = (λ ap, if last ap =? 0 then mkApair now (progress ap) else ap) <$> live m.
Proof.
  intros Hnow. apply map_eq. intros tid. unfold live. rewrite lookup_fmap.
  destruct (m !! tid) as [ap|] eqn:Hm.
  - destruct (decide (last ap = apairDeleted)) as [Hd|Hd].
    + assert (Hn : filter (λ kv : string * apair, last kv.2 ≠ apairDeleted) m !! tid = None).
      { apply map_lookup_filter_None. right. intros ap' Hm'.
        rewrite Hm in Hm'. injection Hm' as <-. simpl. tauto. }
      rewrite Hn. apply map_lookup_filter_None. right. intros ap'.
      rewrite lookup_fmap, Hm. simpl. intros [= <-]. simpl.
      destruct (Z.eqb_spec (last ap) 0) as [H0|H0]; simpl; [|tauto].
      unfold apairDeleted in Hd. lia.
    + assert (Hs : filter (λ kv : string * apair, last kv.2 ≠ apairDeleted) m !! tid
                   = Some ap) by (by apply map_lookup_filter_Some).
      rewrite Hs. apply map_lookup_filter_Some. rewrite lookup_fmap, Hm.
      split; [done|]. simpl. by destruct (Z.eqb_spec (last ap) 0).
  - assert (Hn : filter (λ kv : string * apair, last kv.2 ≠ apairDeleted) m !! tid = None)
      by (apply map_lookup_filter_None; by left).
    rewrite Hn. apply map_lookup_filter_None. left. by rewrite lookup_fmap, Hm.
Qed.

Lemma initLast_counts (now : Z) (s : sentinel) :
  now ≠ apairDeleted → counts_pending s → counts_pending (initLast now s).
Proof.
  intros Hnow. unfold counts_pending. rewrite !length_pending.
  unfold initLast. simpl. by rewrite live_initLast, map_size_fmap.
Qed.

(** The messages other than progress reports. *)
Definition done_or_abort (m : rxmsg) : Prop :=
  match m with RxProgress _ _ => False | _ => True end.

(** X2: on a target that is itself an active target of the cluster map, with
    [nat] the number of active targets, [pend.n] equals the number of peers
    that [pending] lists after [init] and [initLast], and stays equal to it
    under every sequence of [opDone] and [opAbort] messages, whatever their
    senders and however often they repeat. *)
Theorem pend_n_counts_pending
    (x : Xact.t) (self : string) (smap : Smap) (n : Snode) (now : Z)
    (ms : list rxmsg) :
  Tmap smap !! self = Some n → maint_or_decomm n = false →
  CountActiveTs smap <= max_int →
  now ≠ apairDeleted →
  Forall done_or_abort ms →
  ∃ s', rxAll ms (initLast now (init x self smap (CountActiveTs smap))) = Some s'
        ∧ pend_n s' = Z.of_nat (length (pend_p (pending s'))).
Proof.
  intros Hself Hact Hmax Hnow Hms.
  assert (H0 : counts_pending (initLast now (init x self smap (CountActiveTs smap)))).
  { apply initLast_counts; [done|]. by eapply init_counts. }
  revert H0. generalize (initLast now (init x self smap (CountActiveTs smap))).
  induction Hms as [|m ms Hm _ IH]; intros s Hs.
  - exists s. split; [done|]. apply Hs.
  - destruct m as [hdr|hdr|t hdr]; simpl in *; [| |done].
    + apply IH. by apply rxDone_counts.
    + apply IH. by apply rxAbort_counts.
Qed.

Lemma pend_n_counts_pending_witness :
  ∃ s', rxAll [RxDone (hdr_of "t2" 0); RxDone (hdr_of "t2" 0); RxAbort (hdr_of "t3" 0)]
              (initLast 1 (init Xact.running "t1" smap3 (CountActiveTs smap3)))
        = Some s'
        ∧ pend_n s' = Z.of_nat (length (pend_p (pending s'))).
Proof.
  apply (pend_n_counts_pending Xact.running "t1" smap3 (mkSnode false) 1
           [RxDone (hdr_of "t2" 0); RxDone (hdr_of "t2" 0); RxAbort (hdr_of "t3" 0)]).
  - vm_compute. reflexivity.
  - reflexivity.
  - vm_compute. discriminate.
  - discriminate.
  - repeat constructor.
Defined.

(** *** What [qcb] returns *)

Lemma checkSmap_Some_changed (s : sentinel) (smap : Smap) (p : list string) (e : xerr) :
  checkSmap s smap p = Some e → membership_changed s smap p.
Proof.
  unfold checkSmap, membership_changed.
  destruct (Z.eqb_spec (CountActiveTs smap) (s_nat s)) as [Heq|Hne]; simpl;
    [|by left].
  destruct (List.find _ p) as [tid|] eqn:E; [|discriminate]. intros _. right.
  apply List.find_some in E as [Hin Hf]. exists tid.
  split; [by apply list_elem_of_In|].
  apply orb_prop in Hf as [Hf|Hf]; [left|by right].
  by apply bool_decide_eq_true_1 in Hf.
Qed.

Lemma find_none_of_all {A} (f : A → bool) (l : list A) :
  (∀ x, x ∈ l → f x = false) → List.find f l = None.
Proof.
  intros H. destruct (List.find f l) as [y|] eqn:E; [|done].
  apply List.find_some in E as [Hin Hf]. apply list_elem_of_In in Hin.
  rewrite (H y Hin) in Hf. discriminate.
Qed.

(** X3: [qcb] returns [QuiDone] only when no peer is pending: every tracked
    peer has reported done.  It then leaves the xaction as it was (no abort)
    and sends no progress request before the last peer is done. *)
Theorem qcb_done_only_without_pending
    (env : qenv) (tot ival pt ecnt : Z) (s s' : sentinel) :
  qcb env tot ival pt ecnt s = Some (QuiDone, s') →
  (∀ tid ap, pend_m s !! tid = Some ap → last ap = apairDeleted)
  ∧ pend_p s' = []
  ∧ r s' = r s
  ∧ pend_m s' = pend_m s.
Proof.
  unfold qcb. destruct (Int64.div tot ival) as [i|]; [|discriminate].
  destruct (i <=? pend_i s); [discriminate|].
  case_bool_decide as Hp.
  - intros [= <-]. split; [|done].
    intros tid ap Hm. destruct (decide (last ap = apairDeleted)) as [|Hne]; [done|].
    assert (Hin : is_pending tid s) by (apply elem_of_pending; eauto).
    unfold is_pending in Hin.
    change (pend_p (pending (set_pend_i i s))) with (pend_p (pending s)) in Hp.
    rewrite Hp in Hin. by apply elem_of_nil in Hin.
  - destruct (checkSmap _ _ _); [discriminate|].
    destruct (List.find _ _) as [[tid ap]|]; [discriminate|].
    by destruct (q_bcast env).
Qed.

Lemma qcb_done_only_without_pending_witness :
  (∀ tid ap, pend_m (rxDone (hdr_of "t3" 0) (rxDone (hdr_of "t2" 0) s3)) !! tid = Some ap →
             last ap = apairDeleted)
  ∧ pend_p (pending (set_pend_i 5 (rxDone (hdr_of "t3" 0) (rxDone (hdr_of "t2" 0) s3)))) = []
  ∧ r (pending (set_pend_i 5 (rxDone (hdr_of "t3" 0) (rxDone (hdr_of "t2" 0) s3))))
    = r (rxDone (hdr_of "t3" 0) (rxDone (hdr_of "t2" 0) s3))
  ∧ pend_m (pending (set_pend_i 5 (rxDone (hdr_of "t3" 0) (rxDone (hdr_of "t2" 0) s3))))
    = pend_m (rxDone (hdr_of "t3" 0) (rxDone (hdr_of "t2" 0) s3)).
Proof.
  apply (qcb_done_only_without_pending (mkQenv smap3 1000 None) 50 10 100 0
           (rxDone (hdr_of "t3" 0) (rxDone (hdr_of "t2" 0) s3))).
  vm_compute. reflexivity.
Defined.

(** X4: [qcb] does not abort a healthy xaction.  Past the periodic gate, with
    peers pending, an unchanged cluster map, no pending peer beyond the
    progress timeout and a successful broadcast of the progress request,
    [qcb] returns [QuiActive], records the tick and the pending list, and
    leaves the xaction and the peers' records alone. *)
Theorem qcb_healthy_stays_active
    (env : qenv) (tot ival pt ecnt : Z) (s : sentinel) (i : Z) :
  Int64.div tot ival = Some i →
  pend_i s < i →
  pend_p (pending s) ≠ [] →
  ¬ membership_changed s (q_smap env) (pend_p (pending s)) →
  (∀ tid ap, pend_m s !! tid = Some ap → timed_out (q_now env) pt ap = false) →
  q_bcast env = None →
  qcb env tot ival pt ecnt s = Some (QuiActive, pending (set_pend_i i s)).
Proof.
  intros Hdiv Hgate Hp Hsame Hto Hb. unfold qcb. rewrite Hdiv.
  destruct (Z.leb_spec i (pend_i s)) as [?|_]; [lia|].
  change (pend_p (pending (set_pend_i i s))) with (pend_p (pending s)).
  rewrite bool_decide_eq_false_2 by done.
  destruct (checkSmap (pending (set_pend_i i s)) (q_smap env) (pend_p (pending s)))
    as [e|] eqn:Hc.
  { exfalso. apply Hsame. by eapply (checkSmap_Some_changed (pending (set_pend_i i s))). }
  change (pend_m (pending (set_pend_i i s))) with (pend_m s).
  rewrite find_none_of_all.
  - by rewrite Hb.
  - intros [tid ap] Hin. apply elem_of_map_to_list in Hin. simpl. by eapply Hto.
Qed.

Lemma qcb_healthy_stays_active_witness :
  qcb (mkQenv smap3 50 None) 50 10 100 0 s3
  = Some (QuiActive, pending (set_pend_i 5 s3)).
Proof.
  apply (qcb_healthy_stays_active (mkQenv smap3 50 None) 50 10 100 0 s3 5).
  - reflexivity.
  - vm_compute. reflexivity.
  - vm_compute. discriminate.
  - apply checkSmap_unchanged. vm_compute. reflexivity.
  - intros tid ap Hm.
    assert (Hin : (tid, ap) ∈ map_to_list (pend_m s3))
      by (by apply elem_of_map_to_list).
    vm_compute in Hin.
    repeat (apply elem_of_cons in Hin as [[= -> ->]|Hin]; [reflexivity|]).
    by apply elem_of_nil in Hin.
  - reflexivity.
Defined.

(** *** Receiving *)

Lemma set_pend_m_id (s : sentinel) : set_pend_m (pend_m s) s = s.
Proof. by destruct s. Qed.

(** X5: a progress report that repeats the last reported [num-visited] of
    its sender changes nothing: whatever the time of its arrival, it does
    not refresh the sender's last-progress timestamp. *)
Theorem rxProgress_repeated_report
    (now1 now2 : Z) (hdr : ObjHdr) (s s1 : sentinel) :
  rxProgress now1 hdr s = Some s1 →
  rxProgress now2 hdr s1 = Some s1.
Proof.
  unfold rxProgress. destruct (BigEndian_Uint64 (Opaque hdr)) as [u|]; [|discriminate].
  destruct (pend_m s !! SID hdr) as [ap|] eqn:Hm.
  - intros Hs1.
    assert (Hl : ∃ t, pend_m s1 !! SID hdr = Some (mkApair t (wrap64 u))).
    { destruct (negb (progress ap =? wrap64 u)); injection Hs1 as <-; simpl;
        rewrite lookup_insert_eq; eauto. }
    destruct Hl as [t Hl]. rewrite Hl. simpl. rewrite Z.eqb_refl. simpl.
    rewrite insert_id by done. by rewrite set_pend_m_id.
  - intros [= <-]. by rewrite Hm.
Qed.

Lemma rxProgress_repeated_report_witness :
  rxProgress 900 (hdr_of "t2" 7)
    (set_pend_m (<["t2" := mkApair 100 7]> (pend_m s3)) s3)
  = Some (set_pend_m (<["t2" := mkApair 100 7]> (pend_m s3)) s3).
Proof.
  apply (rxProgress_repeated_report 100 900 (hdr_of "t2" 7) s3).
  reflexivity.
Defined.

(** X6: an [opAbort] from a peer aborts a running xaction with the
    received-abort error of that peer, and the first abort stands: a later
    [opAbort] or [opDone], from whatever peer, changes nothing any more. *)
Theorem rxAbort_first_wins (h1 h2 h3 : ObjHdr) (s : sentinel) :
  IsAborted (r s) || Finished (r s) = false →
  abort_err (r (rxAbort h1 s)) = Some (ErrRecvAbort (SID h1) (ObjName h1))
  ∧ pend_m (rxAbort h1 s) = pend_m s
  ∧ pend_n (rxAbort h1 s) = pend_n s
  ∧ rxAbort h2 (rxAbort h1 s) = rxAbort h1 s
  ∧ rxDone h3 (rxAbort h1 s) = rxAbort h1 s.
Proof.
  intros Hr. unfold rxAbort at 1 2 3 4 6. rewrite Hr. unfold Abort. rewrite Hr.
  repeat split; unfold rxAbort, rxDone, Abort; rewrite Hr; reflexivity.
Qed.

Lemma rxAbort_first_wins_witness :
  abort_err (r (rxAbort (hdr_of "t2" 0) s3))
  = Some (ErrRecvAbort (SID (hdr_of "t2" 0)) (ObjName (hdr_of "t2" 0)))
  ∧ pend_m (rxAbort (hdr_of "t2" 0) s3) = pend_m s3
  ∧ pend_n (rxAbort (hdr_of "t2" 0) s3) = pend_n s3
  ∧ rxAbort (hdr_of "t3" 0) (rxAbort (hdr_of "t2" 0) s3) = rxAbort (hdr_of "t2" 0) s3
  ∧ rxDone (hdr_of "t3" 0) (rxAbort (hdr_of "t2" 0) s3) = rxAbort (hdr_of "t2" 0) s3.
Proof.
  apply (rxAbort_first_wins (hdr_of "t2" 0) (hdr_of "t3" 0) (hdr_of "t3" 0) s3).
  reflexivity.
Defined.

(** X7: [initLast] sets the timestamps that are still zero and no other: a
    timestamp already set, the mark of a peer that reported done included,
    is kept, and after a first [initLast] with a non-zero time a second one
    changes nothing. *)
Theorem initLast_sets_once (now1 now2 : Z) (s : sentinel) :
  (∀ tid ap, pend_m s !! tid = Some ap → last ap ≠ 0 →
             pend_m (initLast now1 s) !! tid = Some ap)
  ∧ (∀ tid ap, pend_m s !! tid = Some ap → last ap = 0 →
               pend_m (initLast now1 s) !! tid = Some (mkApair now1 (progress ap)))
  ∧ (now1 ≠ 0 → initLast now2 (initLast now1 s) = initLast now1 s).
Proof.
  split; [|split].
  - intros tid ap Hm Hl. unfold initLast. simpl. rewrite lookup_fmap, Hm. simpl.
    by destruct (Z.eqb_spec (last ap) 0).
  - intros tid ap Hm Hl. unfold initLast. simpl. rewrite lookup_fmap, Hm. simpl.
    by rewrite Hl.
  - intros Hnow. unfold initLast. destruct s as [x m p i n nat]. simpl.
    unfold set_pend_m. simpl. f_equal.
    rewrite <- map_fmap_compose. apply map_fmap_ext. intros tid ap _. simpl.
    destruct (Z.eqb_spec (last ap) 0) as [H0|H0]; simpl.
    + by destruct (Z.eqb_spec now1 0).
    + by destruct (Z.eqb_spec (last ap) 0).
Qed.
End SentinelExtra.

(** ** dpq.parse *)

Module DpqSpec.
Import Dpq.
Local Open Scope string_scope.
Local Open Scope nat_scope.

Lemma IndexByte_lt (s : string) (c : ascii) (i : nat) :
  IndexByte s c = Some i → i < String.length s.
Proof.
  revert i. induction s as [|a s IH]; intros i; simpl; [discriminate|].
  destruct (Ascii.eqb a c).
  - intros [= <-]. lia.
  - destruct (IndexByte s c) as [j|]; [|discriminate].
    intros [= <-]. specialize (IH j eq_refl). lia.
Qed.

Lemma str_drop_length (n : nat) (s : string) :
  String.length (str_drop n s) = String.length s - n.
Proof.
  revert s. induction n as [|n IH]; intros [|a s]; simpl; try lia. apply IH.
Qed.

Lemma IndexByte_app (seg rest : string) (c : ascii) :
  IndexByte seg c = None →
  IndexByte (seg ++ String c rest) c = Some (String.length seg).
Proof.
  induction seg as [|a seg IH]; simpl.
  - by rewrite Ascii.eqb_refl.
  - destruct (Ascii.eqb a c); [discriminate|].
    destruct (IndexByte seg c); [discriminate|]. intros _. by rewrite IH.
Qed.

Lemma str_take_app (seg rest : string) :
  str_take (String.length seg) (seg ++ rest) = seg.
Proof.
  induction seg as [|a seg IH]; simpl; [by destruct rest|]. by rewrite IH.
Qed.

Lemma str_drop_app (seg rest : string) (c : ascii) :
  str_drop (S (String.length seg)) (seg ++ String c rest) = rest.
Proof. induction seg as [|a seg IH]; simpl; [done|]. apply IH. Qed.

(** The key that the loop body reads off a segment [key=value]. *)
Definition key_of (seg : string) : string := (keyEQval seg).1.1.
Definition value_of (seg : string) : string := (keyEQval seg).1.2.

Lemma next_pair_last (seg : string) :
  IndexByte seg amp = None →
  next_pair seg = (key_of seg, value_of seg, EmptyString).
Proof.
  intros H. unfold next_pair, key_of, value_of. rewrite H.
  unfold keyEQval. destruct (IndexByte seg eqsign) as [[|i]|]; reflexivity.
Qed.

Lemma next_pair_app (seg rest : string) :
  IndexByte seg amp = None →
  next_pair (seg ++ String amp rest) = (key_of seg, value_of seg, rest).
Proof.
  intros H. unfold next_pair, key_of, value_of.
  rewrite (IndexByte_app _ _ _ H), str_take_app, str_drop_app.
  unfold keyEQval. destruct (IndexByte seg eqsign) as [[|i]|]; reflexivity.
Qed.

Lemma next_pair_shrinks (a : ascii) (q : string) :
  String.length (next_pair (String a q)).2 ≤ String.length q.
Proof.
  unfold next_pair.
  destruct (IndexByte (String a q) amp) as [i|] eqn:Hi.
  - destruct (keyEQval _) as [[k v] [|]]; simpl;
      change (str_drop i match i with 0 => q | S _ => _ end) with (str_drop (S i) (String a q));
      rewrite ?str_drop_length; simpl; try lia.
    all: destruct i; simpl; rewrite ?str_drop_length; lia.
  - destruct (keyEQval _) as [[k v] [|]]; simpl; lia.
Qed.

Section WithEnv.
Context (E : Env).

(** A key outside the supported list reaches the [default] case. *)
Lemma switch_key_default (debug : bool) (raw key value : string) (d : dpq) :
  is_supported E key = false →
  switch_key E debug raw key value d =
    if debug then
      if is_tolerated E key then SNext d else SPanic (ErrUnknownKey raw key)
    else SNext d.
Proof.
  unfold is_supported, supported_keys. cbn [existsb]. intros H.
  repeat (apply orb_false_elim in H as [? H]).
  unfold switch_key.
  repeat match goal with
         | Hk : String.eqb key ?k = false |- _ => rewrite Hk; clear Hk
         end.
  reflexivity.
Qed.

(** The loop terminates within [String.length query] iterations. *)
Lemma parse_loop_fuel (debug : bool) (raw : string) (fuel1 fuel2 : nat) :
  ∀ (query : string) (d : dpq),
    String.length query ≤ fuel1 → String.length query ≤ fuel2 →
    parse_loop E debug fuel1 raw query d = parse_loop E debug fuel2 raw query d
    ∧ parse_loop E debug fuel1 raw query d ≠ POutOfFuel.
Proof.
  revert fuel2. induction fuel1 as [|f1 IH]; intros fuel2 query d H1 H2.
  - destruct query; simpl in *; [|lia]. destruct fuel2; done.
  - destruct query as [|a q]; [destruct fuel2; done|].
    destruct fuel2 as [|f2]; [simpl in *; lia|].
    cbn [parse_loop].
    pose proof (next_pair_shrinks a q) as Hs.
    destruct (next_pair (String a q)) as [[key value] q']. simpl in H1, H2, Hs.
    destruct (switch_key E debug raw key value d); [|done|done].
    apply IH; lia.
Qed.

Lemma parse_terminates (debug : bool) (raw : string) (d : dpq) :
  parse E debug raw d ≠ POutOfFuel.
Proof. unfold parse. by apply (parse_loop_fuel debug raw _ (String.length raw)). Qed.

(** A production build never looks at [rawQuery]: it is only part of the
    unknown-key error of the debug-only check. *)
Lemma parse_loop_production_raw (fuel : nat) (raw1 raw2 : string) :
  ∀ (query : string) (d : dpq),
    parse_loop E false fuel raw1 query d = parse_loop E false fuel raw2 query d.
Proof.
  induction fuel as [|f IH]; intros [|a q] d; try reflexivity.
  cbn [parse_loop]. destruct (next_pair (String a q)) as [[key value] q'].
  assert (Hsw : switch_key E false raw1 key value d
                = switch_key E false raw2 key value d) by reflexivity.
  rewrite Hsw. destruct (switch_key E false raw2 key value d); [apply IH|done|done].
Qed.

(** In a production build the [switch] goes on or returns an unescape or
    archive error; it neither panics nor reports an unknown key. *)
Lemma switch_key_production (raw key value : string) (d : dpq) :
  match switch_key E false raw key value d with
  | SNext _ => True
  | SReturn _ e => ∀ r k, e ≠ ErrUnknownKey r k
  | SPanic _ => False
  end.
Proof.
  unfold switch_key, of_unescape, _arch, unescape_or_empty.
  repeat case_match; simplify_eq; done.
Qed.

(** A production build returns (it never panics), and never with the
    unknown-key error. *)
Lemma parse_loop_production_returns (fuel : nat) (raw : string) :
  ∀ (query : string) (d : dpq),
    String.length query ≤ fuel →
    ∃ d' err, parse_loop E false fuel raw query d = PReturn d' err
              ∧ ∀ r k, err ≠ Some (ErrUnknownKey r k).
Proof.
  induction fuel as [|f IH]; intros [|a q] d Hlen.
  - by eexists _, _.
  - simpl in Hlen. lia.
  - by eexists _, _.
  - cbn [parse_loop]. pose proof (next_pair_shrinks a q) as Hs.
    destruct (next_pair (String a q)) as [[key value] q']. simpl in Hlen, Hs.
    pose proof (switch_key_production raw key value d) as Hsw.
    destruct (switch_key E false raw key value d) as [d'|d' e|e].
    + apply IH. lia.
    + eexists _, _. split; [done|]. intros r k [= ->]. by eapply Hsw.
    + done.
Qed.

Lemma length_app_amp (seg rest : string) :
  String.length (seg ++ String amp rest)
  = S (String.length seg + String.length rest).
Proof. induction seg as [|a seg IH]; simpl; [done|]. rewrite IH. lia. Qed.

Lemma parse_loop_unknown_first (debug : bool) (fuel : nat)
      (raw seg rest : string) (d : dpq) :
  IndexByte seg amp = None →
  is_supported E (key_of seg) = false →
  parse_loop E debug (S fuel) raw (seg ++ String amp rest) d =
    if debug then
      if is_tolerated E (key_of seg) then parse_loop E debug fuel raw rest d
      else PPanic (ErrUnknownKey raw (key_of seg))
    else parse_loop E debug fuel raw rest d.
Proof.
  intros Hseg Hkey.
  assert (Hq : ∃ a q, seg ++ String amp rest = String a q).
  { destruct seg; simpl; eauto. }
  destruct Hq as [a [q Hq]].
  cbn [parse_loop]. rewrite Hq. cbn [parse_loop]. rewrite <- Hq.
  rewrite (next_pair_app _ _ Hseg), (switch_key_default _ _ _ _ _ Hkey).
  destruct debug; [destruct (is_tolerated E (key_of seg))|]; reflexivity.
Qed.

(** C2 (as amended): a segment [key=value] whose key is outside the
    supported list is skipped by a production build: the query parses
    as the rest of the query does, and no error is returned for the
    key.  The check for unknown keys is in [debug.Func]: only in a debug
    build, and only for a key that is not one of the tolerated keys
    either, the call fails, by the panic of [debug.AssertNoErr]. *)
Theorem parse_unknown_key (seg rest : string) (d : dpq) :
  IndexByte seg amp = None →
  is_supported E (key_of seg) = false →
  parse E false (seg ++ String amp rest) d = parse E false rest d
  ∧ parse E false seg d = PReturn d None
  ∧ (∀ (raw : string) (d0 : dpq),
       ∃ d' err, parse E false raw d0 = PReturn d' err
                 ∧ ∀ r k, err ≠ Some (ErrUnknownKey r k))
  ∧ (is_tolerated E (key_of seg) = false →
     parse E true (seg ++ String amp rest) d
     = PPanic (ErrUnknownKey (seg ++ String amp rest) (key_of seg))).
Proof.
  intros Hseg Hkey. split; [|split; [|split]].
  - unfold parse. rewrite length_app_amp.
    rewrite (parse_loop_unknown_first false _ _ _ _ d Hseg Hkey).
    rewrite (parse_loop_production_raw _ _ rest).
    apply parse_loop_fuel; lia.
  - unfold parse. destruct seg as [|a q]; [done|].
    cbn [String.length parse_loop].
    rewrite (next_pair_last _ Hseg), (switch_key_default _ _ _ _ _ Hkey).
    by destruct (String.length q).
  - intros raw d0. by apply parse_loop_production_returns.
  - intros Htol. unfold parse. rewrite length_app_amp.
    rewrite (parse_loop_unknown_first true _ _ _ _ d Hseg Hkey).
    by rewrite Htol.
Qed.
End WithEnv.

Lemma parse_unknown_key_witness :
  parse sampleEnv false "foo=bar&uuid=x1" dpq0 = parse sampleEnv false "uuid=x1" dpq0
  ∧ parse sampleEnv false "foo=bar" dpq0 = PReturn dpq0 None
  ∧ (∀ (raw : string) (d0 : dpq),
       ∃ d' err, parse sampleEnv false raw d0 = PReturn d' err
                 ∧ ∀ r k, err ≠ Some (ErrUnknownKey r k))
  ∧ (is_tolerated sampleEnv (key_of "foo=bar") = false →
     parse sampleEnv true "foo=bar&uuid=x1" dpq0
     = PPanic (ErrUnknownKey "foo=bar&uuid=x1" (key_of "foo=bar"))).
Proof.
  apply (parse_unknown_key sampleEnv "foo=bar" "uuid=x1" dpq0); reflexivity.
Defined.

(** C2, as stated, fails: the key [foo] is outside the supported list, and
    a production build returns no error for it; a tolerated key ([pid])
    passes in a debug build as well. *)
Lemma parse_unknown_key_counterexample :
  is_supported sampleEnv "foo" = false
  ∧ parse sampleEnv false "foo=bar" dpq0 = PReturn dpq0 None
  ∧ parse sampleEnv false "foo=bar&uuid=x1" dpq0
    = PReturn (set_uuid "x1" dpq0) None
  ∧ is_supported sampleEnv "pid" = false
  ∧ parse sampleEnv true "pid=p7" dpq0 = PReturn dpq0 None.
Proof. repeat split; reflexivity. Qed.
End DpqSpec.

(** ** dpq.parse: splitting, composition, builds *)

Module DpqExtra.
Import Dpq DpqSpec.
Local Open Scope string_scope.
Local Open Scope nat_scope.

Lemma IndexByte_split (s : string) (c : ascii) (i : nat) :
  IndexByte s c = Some i →
  s = str_take i s ++ String c (str_drop (S i) s)
  ∧ IndexByte (str_take i s) c = None
  ∧ String.length (str_take i s) = i.
Proof.
  revert i. induction s as [|a s IH]; intros i; simpl; [discriminate|].
  destruct (Ascii.eqb_spec a c) as [->|Hne].
  - intros [= <-]. done.
  - destruct (IndexByte s c) as [j|]; [|discriminate]. intros [= <-].
    destruct (IH j eq_refl) as (Hs & Hn & Hl).
    apply Ascii.eqb_neq in Hne.
    change (str_take (S j) (String a s)) with (String a (str_take j s)).
    change (str_drop (S (S j)) (String a s)) with (str_drop (S j) s).
    split; [|split].
    + change (String a s = String a (str_take j s ++ String c (str_drop (S j) s))).
      by rewrite <- Hs.
    + cbn [IndexByte]. by rewrite Hne, Hn.
    + cbn [String.length]. by rewrite Hl.
Qed.

Lemma app_String_assoc (s1 s2 : string) (c : ascii) (r : string) :
  (s1 ++ String c s2) ++ r = s1 ++ String c (s2 ++ r).
Proof.
  induction s1 as [|a s1 IH]; [done|].
  change (String a ((s1 ++ String c s2) ++ r) = String a (s1 ++ String c (s2 ++ r))).
  by rewrite IH.
Qed.

(** *** keyEQval *)

(** X8: [keyEQval] splits at the first ['=']: a non-empty key without
    ['='] followed by ['='] and a value comes back as that key and that
    value (the value may hold further ['=']); a string that starts with
    ['='] is returned whole, with an empty value and [ok] false; whenever
    [ok] is returned, the input is key, ['='], value, with a non-empty key
    that has no ['=']; whenever it is not, the input is returned whole. *)
Theorem keyEQval_split :
  (∀ k v, k ≠ EmptyString → IndexByte k eqsign = None →
          keyEQval (k ++ String eqsign v) = (k, v, true))
  ∧ (∀ v, keyEQval (String eqsign v) = (String eqsign v, EmptyString, false))
  ∧ (∀ s k v, keyEQval s = (k, v, true) →
              s = k ++ String eqsign v ∧ k ≠ EmptyString
              ∧ IndexByte k eqsign = None)
  ∧ (∀ s k v, keyEQval s = (k, v, false) → k = s ∧ v = EmptyString).
Proof.
  split; [|split; [|split]].
  - intros k v Hk Hn. unfold keyEQval. rewrite (IndexByte_app _ _ _ Hn).
    destruct (String.length k) as [|n] eqn:Hlen; [by destruct k|].
    rewrite <- Hlen. by rewrite str_take_app, str_drop_app.
  - intros v. reflexivity.
  - intros s k v. unfold keyEQval.
    destruct (IndexByte s eqsign) as [[|i]|] eqn:Hi; [done| |done].
    destruct (IndexByte_split _ _ _ Hi) as (Hs & Hn & Hl). intros Heq.
    assert (k = str_take (S i) s) as -> by congruence.
    assert (v = str_drop (S (S i)) s) as -> by congruence.
    split; [done|]. split; [|done]. intros He. by rewrite He in Hl.
  - intros s k v. unfold keyEQval.
    by destruct (IndexByte s eqsign) as [[|i]|]; intros [= <- <-].
Qed.

Section WithEnv.
Context (E : Env).

Lemma parse_loop_step (debug : bool) (fuel : nat) (raw q : string) (d : dpq) :
  q ≠ EmptyString →
  parse_loop E debug (S fuel) raw q d =
    match switch_key E debug raw (next_pair q).1.1 (next_pair q).1.2 d with
    | SNext d' => parse_loop E debug fuel raw (next_pair q).2 d'
    | SReturn d' e => PReturn d' (Some e)
    | SPanic e => PPanic e
    end.
Proof.
  destruct q as [|a q]; [done|]. intros _. cbn [parse_loop].
  by destruct (next_pair (String a q)) as [[key value] q'].
Qed.

Lemma parse_loop_nil (debug : bool) (fuel : nat) (raw : string) (d : dpq) :
  parse_loop E debug fuel raw EmptyString d = PReturn d None.
Proof. by destruct fuel. Qed.

(** *** Composition *)

Lemma parse_loop_app (raw1 raw2 raw3 : string) :
  is_supported E EmptyString = false →
  ∀ (n : nat) (q1 q2 : string) (d : dpq) (f1 f : nat),
    String.length q1 ≤ n →
    String.length q1 ≤ f1 →
    String.length (q1 ++ String amp q2) ≤ f →
    parse_loop E false f raw1 (q1 ++ String amp q2) d =
      match parse_loop E false f1 raw2 q1 d with
      | PReturn d' None => parse_loop E false (String.length q2) raw3 q2 d'
      | res => res
      end.
Proof.
  intros Hempty. induction n as [|n IH]; intros q1 q2 d f1 f Hn Hf1 Hf.
  - destruct q1; [|simpl in Hn; lia].
    rewrite parse_loop_nil. simpl in Hf. destruct f as [|f]; [lia|].
    rewrite parse_loop_step by done.
    rewrite (next_pair_app EmptyString q2 eq_refl). simpl.
    change (key_of EmptyString) with EmptyString.
    rewrite (switch_key_default _ _ _ _ _ _ Hempty).
    rewrite (parse_loop_production_raw _ _ raw1 raw3).
    apply parse_loop_fuel; lia.
  - destruct q1 as [|a q].
    { rewrite parse_loop_nil. simpl in Hf. destruct f as [|f]; [lia|].
      rewrite parse_loop_step by done.
      rewrite (next_pair_app EmptyString q2 eq_refl). simpl.
      change (key_of EmptyString) with EmptyString.
      rewrite (switch_key_default _ _ _ _ _ _ Hempty).
      rewrite (parse_loop_production_raw _ _ raw1 raw3).
      apply parse_loop_fuel; lia. }
    rewrite length_app_amp in Hf.
    destruct f as [|f]; [lia|]. destruct f1 as [|f1]; [simpl in Hf1; lia|].
    rewrite (parse_loop_step _ f1) by done.
    rewrite parse_loop_step by done.
    destruct (IndexByte (String a q) amp) as [i|] eqn:Hi.
    + destruct (IndexByte_split _ _ _ Hi) as (Hs & Hnone & Hl).
      set (seg := str_take i (String a q)) in *.
      set (q1' := str_drop (S i) (String a q)) in *.
      rewrite Hs, app_String_assoc.
      rewrite !(next_pair_app _ _ Hnone). simpl.
      assert (Hsw : switch_key E false raw1 (key_of seg) (value_of seg) d
                    = switch_key E false raw2 (key_of seg) (value_of seg) d)
        by reflexivity.
      rewrite Hsw.
      destruct (switch_key E false raw2 (key_of seg) (value_of seg) d);
        [|done|done].
      assert (Hlen : String.length (String a q)
                     = S (String.length seg + String.length q1')).
      { rewrite Hs at 1. apply length_app_amp. }
      apply IH.
      * simpl in Hn, Hlen. lia.
      * simpl in Hf1, Hlen. lia.
      * rewrite length_app_amp. lia.
    + rewrite (next_pair_app _ _ Hi), (next_pair_last _ Hi). simpl.
      assert (Hsw : switch_key E false raw1 (key_of (String a q)) (value_of (String a q)) d
                    = switch_key E false raw2 (key_of (String a q)) (value_of (String a q)) d)
        by reflexivity.
      rewrite Hsw.
      destruct (switch_key E false raw2 _ _ d); [|done|done].
      rewrite parse_loop_nil.
      rewrite (parse_loop_production_raw _ _ raw1 raw3).
      apply parse_loop_fuel; lia.
Qed.

(** X9: in a production build, parsing two queries joined by ['&'] is
    parsing the first and then, when it returned no error, the second on
    the structure that the first left; an error of the first is the
    result, and the second is not read.  (The empty key must not be one of
    the supported names: the seam can leave an empty pair.) *)
Theorem parse_app (q1 q2 : string) (d : dpq) :
  is_supported E EmptyString = false →
  parse E false (q1 ++ String amp q2) d =
    match parse E false q1 d with
    | PReturn d' None => parse E false q2 d'
    | res => res
    end.
Proof.
  intros Hempty. unfold parse.
  by apply (parse_loop_app _ _ _ Hempty (String.length q1)).
Qed.

(** *** The archive parameters *)

Definition arch_either_or (d : dpq) : Prop :=
  arch_path d = EmptyString ∨ arch_mmode d = EmptyString.

Lemma eqb_empty_false (s : string) :
  negb (String.eqb s EmptyString) = false → s = EmptyString.
Proof. destruct (String.eqb_spec s EmptyString); [done|discriminate]. Qed.

Lemma switch_key_either_or (debug : bool) (raw key value : string) (d : dpq) :
  arch_either_or d →
  match switch_key E debug raw key value d with
  | SNext d' => arch_either_or d'
  | SReturn d' e =>
      e = ErrArchExclusive →
      arch_path d' ≠ EmptyString ∧ arch_mmode d' ≠ EmptyString
  | SPanic _ => True
  end.
Proof.
  intros Hd. unfold switch_key, of_unescape, _arch, unescape_or_empty.
  repeat case_match; simplify_eq; try done;
    try (intros [=]);
    try match goal with
        | H : _ && _ = false |- _ =>
            apply andb_false_iff in H as [H|H]; apply eqb_empty_false in H;
            [by left|by right]
        | H : _ && _ = true |- _ =>
            let Hp := fresh in
            let Hm := fresh in
            apply andb_true_iff in H as [Hp Hm];
            apply negb_true_iff in Hp, Hm;
            apply String.eqb_neq in Hp, Hm; done
        end.
Qed.

Lemma parse_loop_either_or (debug : bool) (raw : string) (fuel : nat) :
  ∀ (q : string) (d : dpq),
    arch_either_or d →
    match parse_loop E debug fuel raw q d with
    | PReturn d' None => arch_either_or d'
    | PReturn d' (Some e) =>
        e = ErrArchExclusive →
        arch_path d' ≠ EmptyString ∧ arch_mmode d' ≠ EmptyString
    | _ => True
    end.
Proof.
  induction fuel as [|fuel IH]; intros q d Hd.
  - by destruct q.
  - destruct q as [|a q]; [done|].
    rewrite parse_loop_step by done.
    pose proof (switch_key_either_or debug raw (next_pair (String a q)).1.1
                  (next_pair (String a q)).1.2 d Hd) as Hsw.
    destruct (switch_key E debug raw _ _ d); [by apply IH|done|done].
Qed.

(** X10: the archive path and the archive match mode are either/or: when
    the structure does not hold both before the call, a parse that returns
    no error leaves at most one of them set, and a parse that returns the
    mutually-exclusive error leaves both set (the value that raised the
    error has been stored). *)
Theorem parse_arch_either_or (debug : bool) (raw : string) (d : dpq) :
  arch_path d = EmptyString ∨ arch_mmode d = EmptyString →
  match parse E debug raw d with
  | PReturn d' None => arch_path d' = EmptyString ∨ arch_mmode d' = EmptyString
  | PReturn d' (Some e) =>
      e = ErrArchExclusive →
      arch_path d' ≠ EmptyString ∧ arch_mmode d' ≠ EmptyString
  | _ => True
  end.
Proof. intros Hd. by apply parse_loop_either_or. Qed.

(** *** Debug and production builds *)

Lemma switch_key_builds (raw key value : string) (d : dpq) :
  match switch_key E true raw key value d with
  | SPanic e =>
      e = ErrUnknownKey raw key
      ∧ is_supported E key = false ∧ is_tolerated E key = false
  | res => switch_key E false raw key value d = res
  end.
Proof.
  destruct (is_supported E key) eqn:Hs.
  - unfold is_supported, supported_keys in Hs. cbn [existsb] in Hs.
    unfold switch_key.
    repeat match goal with
           | |- context [if String.eqb key ?k then _ else _] =>
               destruct (String.eqb key k) eqn:?; simpl in Hs |- *
           | |- context [String.eqb key ?k || _] =>
               destruct (String.eqb key k) eqn:?; simpl in Hs |- *
           end;
      try discriminate; try reflexivity;
      try (unfold of_unescape; by destruct (unescape_or_empty _ _) as [? [?|]]);
      try (by destruct (_arch _ _ _ _) as [? [?|]]).
  - rewrite !(switch_key_default _ _ _ _ _ _ Hs).
    by destruct (is_tolerated E key).
Qed.

Lemma parse_loop_builds (raw : string) (fuel : nat) :
  ∀ (q : string) (d : dpq),
    match parse_loop E true fuel raw q d with
    | PReturn d' err => parse_loop E false fuel raw q d = PReturn d' err
    | PPanic e =>
        ∃ key, e = ErrUnknownKey raw key
               ∧ is_supported E key = false ∧ is_tolerated E key = false
    | POutOfFuel => parse_loop E false fuel raw q d = POutOfFuel
    end.
Proof.
  induction fuel as [|fuel IH]; intros q d.
  - by destruct q.
  - destruct q as [|a q]; [done|].
    rewrite !parse_loop_step by done.
    pose proof (switch_key_builds raw (next_pair (String a q)).1.1
                  (next_pair (String a q)).1.2 d) as Hsw.
    destruct (switch_key E true raw _ _ d) as [d'|d' e|e].
    + rewrite Hsw. apply IH.
    + by rewrite Hsw.
    + destruct Hsw as (-> & ? & ?). eauto.
Qed.

(** X11: a debug build differs from a production build in one way only:
    where it panics, and it panics only with the unknown-key error of the
    whole query, for a key that is neither supported nor tolerated.
    Whatever a debug build returns, structure and error, a production
    build returns for the same query. *)
Theorem parse_debug_production (raw : string) (d : dpq) :
  match parse E true raw d with
  | PReturn d' err => parse E false raw d = PReturn d' err
  | PPanic e =>
      ∃ key, e = ErrUnknownKey raw key
             ∧ is_supported E key = false ∧ is_tolerated E key = false
  | POutOfFuel => False
  end.
Proof.
  pose proof (parse_loop_builds raw (String.length raw) raw d) as H.
  pose proof (parse_terminates E true raw d) as Ht.
  unfold parse in *. by destruct (parse_loop E true _ raw raw d).
Qed.
End WithEnv.

Lemma parse_app_witness :
  parse sampleEnv false "uuid=x1&arch-path=a%2Fb&silent=true" dpq0
  = match parse sampleEnv false "uuid=x1&arch-path=a%2Fb" dpq0 with
    | PReturn d' None => parse sampleEnv false "silent=true" d'
    | res => res
    end.
Proof.
  apply (parse_app sampleEnv "uuid=x1&arch-path=a%2Fb" "silent=true" dpq0).
  reflexivity.
Defined.

Lemma parse_arch_either_or_witness :
  match parse sampleEnv false "arch-path=a.txt&arch-mode=prefix" dpq0 with
  | PReturn d' None => arch_path d' = EmptyString ∨ arch_mmode d' = EmptyString
  | PReturn d' (Some e) =>
      e = ErrArchExclusive →
      arch_path d' ≠ EmptyString ∧ arch_mmode d' ≠ EmptyString
  | _ => True
  end.
Proof.
  apply (parse_arch_either_or sampleEnv false "arch-path=a.txt&arch-mode=prefix" dpq0).
  by left.
Defined.
End DpqExtra.

(** ** The cleanup jogger *)

Module SpaceSpec.
Import Int64 Space.
Local Open Scope Z_scope.

(** *** The disk only loses files *)

Lemma os_Remove_files fqn w w' ok f :
  os_Remove fqn w = (w', ok) →
  files w !! f = None → files w' !! f = None.
Proof.
  unfold os_Remove. destruct (files w !! fqn); [|by intros [= <- _]].
  case_bool_decide; intros [= <- _]; [done|]. simpl.
  intros Hnone. destruct (decide (fqn = f)) as [->|Hne].
  - apply lookup_delete_eq.
  - by rewrite lookup_delete_ne.
Qed.

Lemma os_Remove_undeletable fqn w w' ok :
  os_Remove fqn w = (w', ok) → undeletable w' = undeletable w.
Proof.
  unfold os_Remove. destruct (files w !! fqn); [|by intros [= <- _]].
  by case_bool_decide; intros [= <- _].
Qed.

Lemma os_Remove_gone fqn w w' ok :
  os_Remove fqn w = (w', ok) →
  files w' !! fqn = None ∨ fqn ∈ undeletable w.
Proof.
  unfold os_Remove. destruct (files w !! fqn) eqn:Hf; [|intros [= <- _]; by left].
  case_bool_decide; intros [= <- _]; [by right|]. left. simpl.
  apply lookup_delete_eq.
Qed.

Lemma RemoveFile_files fqn w w' ok f :
  RemoveFile fqn w = (w', ok) →
  files w !! f = None → files w' !! f = None.
Proof.
  unfold RemoveFile. destruct (files w !! fqn); [apply os_Remove_files|].
  by intros [= <- _].
Qed.

Lemma RemoveFile_undeletable fqn w w' ok :
  RemoveFile fqn w = (w', ok) → undeletable w' = undeletable w.
Proof.
  unfold RemoveFile. destruct (files w !! fqn); [apply os_Remove_undeletable|].
  by intros [= <- _].
Qed.

Lemma RemoveFile_gone fqn w w' ok :
  RemoveFile fqn w = (w', ok) →
  files w' !! fqn = None ∨ fqn ∈ undeletable w.
Proof.
  unfold RemoveFile. destruct (files w !! fqn) eqn:Hf; [apply os_Remove_gone|].
  intros [= <- _]. by left.
Qed.

(** The loop over [j.oldWork] unlinks every queued file that [unlink] does
    not refuse, and brings no file back. *)
Lemma rmOldWork_spec (l : list string) :
  ∀ (c : rmcnt) (s : state) (c' : rmcnt) (s' : state),
    rmOldWork l c s = (c', s') →
    undeletable (world s') = undeletable (world s)
    ∧ (∀ f, files (world s) !! f = None → files (world s') !! f = None)
    ∧ (∀ f, f ∈ l → files (world s') !! f = None ∨ f ∈ undeletable (world s)).
Proof.
  induction l as [|fqn l IH]; intros c s c' s' H; simpl in H.
  - injection H as <- <-. split; [done|]. split; [done|].
    intros f Hf. by apply elem_of_nil in Hf.
  - unfold Lstat in H. destruct (files (world s) !! fqn) as [fi|] eqn:Hfi.
    + destruct (RemoveFile fqn (world s)) as [w ok] eqn:Hrm.
      pose proof (RemoveFile_undeletable _ _ _ _ Hrm) as Hu.
      pose proof (RemoveFile_gone _ _ _ _ Hrm) as Hg.
      assert (Hstep : ∃ c1 s1, rmOldWork l c1 s1 = (c', s') ∧ world s1 = w).
      { destruct ok; eexists _, _; (split; [exact H|done]). }
      destruct Hstep as [c1 [s1 [H1 Hw]]].
      destruct (IH _ _ _ _ H1) as [IHu [IHf IHl]]. rewrite Hw in IHu, IHf, IHl.
      split; [congruence|]. split.
      * intros f Hf. apply IHf. by eapply RemoveFile_files.
      * intros f Hf. apply elem_of_cons in Hf as [->|Hf].
        -- destruct Hg as [Hg|Hg]; [left; by apply IHf|by right].
        -- rewrite <- Hu. by apply IHl.
    + destruct (IH _ _ _ _ H) as [IHu [IHf IHl]].
      split; [done|]. split; [done|].
      intros f Hf. apply elem_of_cons in Hf as [->|Hf]; [left; by apply IHf|].
      by apply IHl.
Qed.

Lemma rmOldWork_set_misplaced_loms (v : list LOM) (l : list string) :
  ∀ (c : rmcnt) (s : state),
    rmOldWork l c (set_misplaced_loms v s)
    = ((rmOldWork l c s).1, set_misplaced_loms v (rmOldWork l c s).2).
Proof.
  induction l as [|fqn l IH]; intros c s; [done|]. simpl.
  destruct (Lstat fqn (world s)) as [fi|]; [|apply IH].
  destruct (RemoveFile fqn (world s)) as [w [|]].
  - exact (IH (count_removed (fi_size fi) c) (set_world w s)).
  - exact (IH c (AddErr fqn (set_world w s))).
Qed.

Section WithEnv.
Context (E : Env).

(** [rmLeftovers(flagRmOldWork)] only runs the first step. *)
Lemma rmLeftovers_oldWork (s : state) :
  world (rmLeftovers E flagRmOldWork s)
  = world (rmOldWork (oldWork s) (mkRmcnt 0 0 0) s).2
  ∧ oldWork (rmLeftovers E flagRmOldWork s) = [].
Proof.
  unfold rmLeftovers.
  change (Z.land flagRmOldWork flagRmOldWork =? 0) with false.
  change (Z.land flagRmOldWork flagRmMisplacedLOMs =? 0) with true.
  change (Z.land flagRmOldWork flagRmMisplacedEC =? 0) with true.
  cbn [negb]. destruct (rmOldWork (oldWork s) (mkRmcnt 0 0 0) s) as [c s1].
  done.
Qed.

(** A file handed to [queueOldWork] is on the queue, or the batch was
    flushed and the file is gone (or [unlink] refused it). *)
Lemma queueOldWork_spec (fqn : string) (s : state) :
  let s' := queueOldWork E fqn s in
  fqn ∈ oldWork s'
  ∨ files (world s') !! fqn = None
  ∨ fqn ∈ undeletable (world s).
Proof.
  unfold queueOldWork, rmAnyBatch. simpl.
  change (flagRmOldWork =? flagRmOldWork) with true. cbn match.
  destruct (_ <? _).
  - left. simpl. apply elem_of_app. right. by apply list_elem_of_singleton.
  - right. destruct (rmLeftovers_oldWork (set_oldWork (oldWork s ++ [fqn]) s))
      as [-> _].
    destruct (rmOldWork _ _ _) as [c s1] eqn:Hrm.
    destruct (rmOldWork_spec _ _ _ _ _ Hrm) as [_ [_ Hl]]. simpl in *.
    apply Hl. apply elem_of_app. right. by apply list_elem_of_singleton.
Qed.

(** C6: a file (not a directory) whose modification time plus the
    dont-cleanup window is after the jogger's current time [j.now] is
    skipped by [visit]: the call returns with the state as it was, so
    the file is neither removed nor put on the old-work, misplaced or
    orphan queues. *)
Theorem visit_too_early_skips
    (fqn : string) (de : DirEntry) (s : state) (finfo : finfo) :
  IsDir de = false →
  Lstat fqn (world s) = Some finfo →
  now s < fi_mtime finfo + DontCleanupTime E →
  visit E fqn de s = Some s.
Proof.
  intros Hdir Hst Hearly. unfold visit. rewrite Hdir, Hst.
  destruct (done s); [done|].
  unfold too_early. by rewrite (proj2 (Z.ltb_lt _ _) Hearly).
Qed.

(** The loop over the misplaced EC slices and replicas only unlinks. *)
Lemma rmMisplacedEC_spec (l : list CT) :
  ∀ (c : rmcnt) (s : state) (c' : rmcnt) (s' : state) (b : bool),
    rmMisplacedEC E l c s = (c', s', b) →
    undeletable (world s') = undeletable (world s)
    ∧ (∀ f, files (world s) !! f = None → files (world s') !! f = None).
Proof.
  induction l as [|ct l IH]; intros c s c' s' b H; simpl in H.
  - by injection H as <- <- <-.
  - destruct (Stat_ok _ (world s)); [by eapply IH|].
    destruct (os_Remove (FQN ct) (world s)) as [w ok] eqn:Hrm.
    pose proof (os_Remove_undeletable _ _ _ _ Hrm) as Hu.
    assert (Hf : ∀ f, files (world s) !! f = None → files w !! f = None)
      by (intros f; by eapply os_Remove_files).
    destruct ok.
    + destruct (done (set_world w s)).
      * injection H as <- <- <-. done.
      * destruct (IH _ _ _ _ _ H) as [IHu IHf]. simpl in *.
        split; [congruence|]. intros f Hn. by apply IHf, Hf.
    + destruct (IH _ _ _ _ _ H) as [IHu IHf]. simpl in *.
      split; [congruence|]. intros f Hn. by apply IHf, Hf.
Qed.

(** At the end of the bucket walk, with no misplaced object on the queue,
    [rmLeftovers(flagRmAll)] leaves no file of the old-work queue on disk
    but those that [unlink] refuses. *)
Lemma rmLeftovers_unlinks_oldWork (s : state) (fqn : string) :
  misplaced_loms s = [] →
  fqn ∈ oldWork s →
  files (world (rmLeftovers E flagRmAll s)) !! fqn = None
  ∨ fqn ∈ undeletable (world s).
Proof.
  intros Hm Hin. unfold rmLeftovers.
  change (Z.land flagRmAll flagRmOldWork =? 0) with false.
  change (Z.land flagRmAll flagRmMisplacedLOMs =? 0) with false.
  change (Z.land flagRmAll flagRmMisplacedEC =? 0) with false.
  cbn [negb].
  destruct (rmOldWork (oldWork s) (mkRmcnt 0 0 0) s) as [c s1] eqn:Hrm.
  destruct (rmOldWork_spec _ _ _ _ _ Hrm) as [Hu [Hf Hl]].
  assert (Hm1 : misplaced_loms s1 = []).
  { pose proof (rmOldWork_set_misplaced_loms [] (oldWork s) (mkRmcnt 0 0 0) s) as Hc.
    rewrite Hrm in Hc. simpl in Hc.
    assert (Hs : set_misplaced_loms [] s = s) by (destruct s; simpl in *; by subst).
    rewrite Hs, Hrm in Hc. by injection Hc as ->. }
  cbn [misplaced_loms set_now set_oldWork]. rewrite Hm1.
  rewrite bool_decide_eq_true_2 by done. cbn [negb andb].
  destruct (Hl fqn Hin) as [Hgone|Hund]; [|by right]. left.
  set (s2 := set_now _ (set_misplaced_loms [] _)).
  destruct (rmMisplacedEC E (misplaced_ec s2) c s2) as [[c3 s3] b] eqn:Hec.
  destruct (rmMisplacedEC_spec _ _ _ _ _ _ Hec) as [_ Hf3].
  destruct b; simpl; by apply Hf3.
Qed.
End WithEnv.

(** *** The gate on misplaced objects *)

(** No rebalance or resilver is running, none was interrupted, and the node
    was not restarted in the middle of a rebalance. *)
Definition all_clear (g l : Marked) : Prop :=
  m_Xact g = None ∧ m_Xact l = None ∧ m_Interrupted g = false
  ∧ m_Restarted g = false ∧ m_Interrupted l = false.

Lemma rmMisplaced_iff (g l : Marked) (args : ArgsMsg) :
  rmMisplaced g l args = true ↔
  all_clear g l
  ∨ (Force args = true ∧ m_Xact g = None
     ∧ (m_Interrupted g = true ∨ m_Restarted g = true)).
Proof.
  unfold rmMisplaced, all_clear.
  destruct g as [gx gi gr], l as [lx li lr], args as [force flags]. simpl.
  destruct gx, lx, gi, gr, li, force; simpl;
    repeat (rewrite bool_decide_eq_true_2 by done);
    repeat (rewrite bool_decide_eq_false_2 by done); simpl;
    intuition (discriminate || congruence || auto).
Qed.


Section WithEnv.
Context (E : Env).

Lemma rmMisplacedEC_set_misplaced_loms (v : list LOM) (l : list CT) :
  ∀ (c : rmcnt) (s : state),
    rmMisplacedEC E l c (set_misplaced_loms v s)
    = ((rmMisplacedEC E l c s).1.1,
       set_misplaced_loms v (rmMisplacedEC E l c s).1.2,
       (rmMisplacedEC E l c s).2).
Proof.
  induction l as [|ct l IH]; intros c s; [done|]. simpl.
  destruct (Stat_ok _ (world s)); [apply IH|].
  destruct (os_Remove (FQN ct) (world s)) as [w [|]].
  - change (done (set_world w (set_misplaced_loms v s))) with (done (set_world w s)).
    destruct (done (set_world w s)); [done|].
    exact (IH (count_throttled (Lsize ct) c) (set_world w s)).
  - exact (IH c (set_world w s)).
Qed.

(** With the gate closed, [rmLeftovers] leaves the disk as it would with
    no misplaced object on the queue. *)
Lemma rmLeftovers_gate_closed (specifier : Z) (s : state) :
  rmMisplaced (RebMarked E) (ResilverMarked E) (Args E) = false →
  world (rmLeftovers E specifier s)
  = world (rmLeftovers E specifier (set_misplaced_loms [] s)).
Proof.
  intros Hgate. unfold rmLeftovers. rewrite Hgate.
  destruct (negb (Z.land specifier flagRmOldWork =? 0)).
  - change (oldWork (set_misplaced_loms [] s)) with (oldWork s).
    rewrite rmOldWork_set_misplaced_loms.
    destruct (rmOldWork (oldWork s) (mkRmcnt 0 0 0) s) as [c s1]. cbn [fst snd].
    rewrite !andb_false_r.
    destruct (negb (Z.land specifier flagRmMisplacedLOMs =? 0));
      destruct (negb (Z.land specifier flagRmMisplacedEC =? 0)); try done.
    set (X := set_now (wall (world s1)) (set_oldWork [] s1)).
    change (set_now (wall (world (set_misplaced_loms [] s1)))
                    (set_oldWork [] (set_misplaced_loms [] s1)))
      with (set_misplaced_loms [] X).
    change (misplaced_ec (set_misplaced_loms [] X)) with (misplaced_ec X).
    rewrite rmMisplacedEC_set_misplaced_loms.
    destruct (rmMisplacedEC E (misplaced_ec X) c X) as [[c2 s2] [|]]; done.
  - rewrite !andb_false_r.
    destruct (negb (Z.land specifier flagRmMisplacedLOMs =? 0));
      destruct (negb (Z.land specifier flagRmMisplacedEC =? 0)); try done.
    change (misplaced_ec (set_misplaced_loms [] s)) with (misplaced_ec s).
    rewrite rmMisplacedEC_set_misplaced_loms.
    destruct (rmMisplacedEC E (misplaced_ec s) _ s) as [[c2 s2] [|]]; done.
Qed.

(** The removal of misplaced EC slices and replicas does not read the
    markers, the force flag or any other argument: it is the same under
    every environment with the same path generator. *)
Lemma rmMisplacedEC_not_gated (E2 : Env) (l : list CT) :
  Gen E2 = Gen E →
  ∀ (c : rmcnt) (s : state), rmMisplacedEC E2 l c s = rmMisplacedEC E l c s.
Proof.
  intros HG. induction l as [|ct l IH]; intros c s; [done|]. simpl.
  rewrite HG. destruct (Stat_ok _ (world s)); [apply IH|].
  destruct (os_Remove (FQN ct) (world s)) as [w [|]]; [|apply IH].
  destruct (done (set_world w s)); [done|apply IH].
Qed.

(** A queued misplaced EC slice or replica whose metafile is still missing
    is unlinked by [rmLeftovers], whatever the markers say. *)
Lemma rmMisplacedEC_head (ct : CT) (l : list CT) (c : rmcnt) (s : state) :
  Stat_ok (Gen E (ct_bck ct) (ct_mi ct) (ct_objName ct) ECMetaCT EmptyString)
          (world s) = false →
  is_Some (files (world s) !! FQN ct) →
  FQN ct ∉ undeletable (world s) →
  ∃ w, os_Remove (FQN ct) (world s) = (w, true)
       ∧ files w !! FQN ct = None
       ∧ rmMisplacedEC E (ct :: l) c s
         = if done (set_world w s)
           then (count_throttled (Lsize ct) c, set_world w s, true)
           else rmMisplacedEC E l (count_throttled (Lsize ct) c) (set_world w s).
Proof.
  intros Hmeta [fi Hfi] Hu. cbn [rmMisplacedEC]. rewrite Hmeta.
  unfold os_Remove. rewrite Hfi. rewrite bool_decide_eq_false_2 by done.
  eexists. split; [done|]. split; [simpl; apply lookup_delete_eq|done].
Qed.

(** With the gate open, [rmLeftovers(flagRmMisplacedLOMs)] runs the removal
    loop over the queue of misplaced objects. *)
Lemma rmLeftovers_gate_open (s : state) :
  rmMisplaced (RebMarked E) (ResilverMarked E) (Args E) = true →
  rmLeftovers E flagRmMisplacedLOMs s
  = match rmMisplacedLOMs E (misplaced_loms s) (mkRmcnt 0 0 0) s with
    | (c, s', true) => s'
    | (c, s', false) =>
        ObjsAdd (nfiles c) (nbytes c)
          (StatsAdd (nfiles c) (nbytes c)
             (set_now (wall (world s')) (set_misplaced_loms [] s')))
    end.
Proof.
  intros Hgate. unfold rmLeftovers. rewrite Hgate.
  change (Z.land flagRmMisplacedLOMs flagRmOldWork =? 0) with true.
  change (Z.land flagRmMisplacedLOMs flagRmMisplacedLOMs =? 0) with false.
  change (Z.land flagRmMisplacedLOMs flagRmMisplacedEC =? 0) with true.
  cbn [negb]. rewrite andb_true_r. case_bool_decide as Hl; cbn [negb].
  - rewrite Hl. reflexivity.
  - destruct (rmMisplacedLOMs E (misplaced_loms s) (mkRmcnt 0 0 0) s)
      as [[c s'] [|]]; reflexivity.
Qed.

End WithEnv.

(** *** The sample mountpath *)

Definition metaFQN : string := "/mp1/%mt/b1/o1".
Definition sliceFQN : string := "/mp1/%ec/b1/o1".
Definition misplacedFQN : string := "/mp1/%ob/b1/o2".

Definition E0 : Env := sampleEnv noMark noMark (mkArgs false 0).

Definition metaCT : CT :=
  mkCT metaFQN "o1" ECMetaCT (mkBck "b1" "ais" EmptyString (Some (mkBprops true)))
       "/mp1" 1 0 0.

Definition metaParsed : ParsedFQN := mkParsed sampleBck ECMetaCT "o1" "/mp1" 1.

Definition entries : list DirEntry :=
  [mkDirEntry misplacedFQN false; mkDirEntry sliceFQN false].

Lemma visit_too_early_skips_witness :
  visit E0 metaFQN (mkDirEntry metaFQN false) (sampleState [metaFQN] 8000)
  = Some (sampleState [metaFQN] 8000).
Proof.
  apply (visit_too_early_skips E0 metaFQN (mkDirEntry metaFQN false)
           (sampleState [metaFQN] 8000) (mkFinfo 1000 10)).
  - reflexivity.
  - vm_compute. reflexivity.
  - vm_compute. reflexivity.
Defined.

(** The metafile alone is queued and unlinked at the end of the walk; with
    the slice or the replica on disk it stays. *)
Example jogBck_stray_metafile :
  (λ s, files (world s) !! metaFQN)
    <$> jogBck E0 [mkDirEntry metaFQN false] None (sampleState [metaFQN] 10000)
  = Some None
  ∧ (λ s, files (world s) !! metaFQN)
      <$> jogBck E0 [mkDirEntry metaFQN false] None
            (sampleState [metaFQN; sliceFQN] 10000)
    = Some (Some (mkFinfo 1000 10))
  ∧ (λ s, files (world s) !! metaFQN)
      <$> jogBck E0 [mkDirEntry metaFQN false] None
            (sampleState [metaFQN; "/mp1/%ob/b1/o1"] 10000)
    = Some (Some (mkFinfo 1000 10)).
Proof. repeat split; vm_compute; reflexivity. Qed.


(** With force, a misplaced object goes when a rebalance was interrupted
    (and none is running); an interrupted resilver alone keeps the gate
    closed, with force or without. *)
Example rmMisplaced_force_interrupted :
  (λ s, files (world s) !! misplacedFQN)
    <$> jogBck (sampleEnv (mkMarked None true false) noMark (mkArgs true 0))
          entries None (sampleState [misplacedFQN; sliceFQN] 10000)
  = Some None
  ∧ rmMisplaced noMark (mkMarked None true false) (mkArgs true 0) = false
  ∧ rmMisplaced noMark (mkMarked (Some "resilver") false false) (mkArgs true 0)
    = false.
Proof. repeat split; vm_compute; reflexivity. Qed.
End SpaceSpec.

(** ** The cleanup jogger: queues, counters, directories, abort *)

Module SpaceExtra.
Import Int64 Space SpaceSpec.
Local Open Scope Z_scope.

(** *** What a removal leaves alone *)

Lemma os_Remove_frame fqn w w' ok f :
  os_Remove fqn w = (w', ok) → f ≠ fqn → files w' !! f = files w !! f.
Proof.
  unfold os_Remove. destruct (files w !! fqn); [|by intros [= <- _]].
  case_bool_decide; intros [= <- _] Hne; [done|]. simpl.
  by rewrite lookup_delete_ne.
Qed.

Lemma RemoveFile_frame fqn w w' ok f :
  RemoveFile fqn w = (w', ok) → f ≠ fqn → files w' !! f = files w !! f.
Proof.
  unfold RemoveFile. destruct (files w !! fqn); [apply os_Remove_frame|].
  by intros [= <- _].
Qed.

(** The queues, the visit counter, the statistics and the xaction's
    abort state and counters: all of a jogger but the disk, the error
    list, the clock and the bucket. *)
Definition qc (s : state) :=
  (oldWork s, misplaced_loms s, misplaced_ec s, nvisits s, norphan s,
   CleanupStoreCount s, CleanupStoreSize s,
   x_abort (xcln s), x_finished (xcln s), x_objs (xcln s), x_bytes (xcln s)).

Lemma qc_set_world w s : qc (set_world w s) = qc s.
Proof. reflexivity. Qed.

Lemma qc_AddErr e s : qc (AddErr e s) = qc s.
Proof. reflexivity. Qed.

Lemma qc_done s s' : qc s' = qc s → done s' = done s.
Proof. unfold qc, done. intros [= _ _ _ _ _ _ _ -> -> _ _]. done. Qed.

Lemma rmOldWork_qc (l : list string) :
  ∀ (c : rmcnt) (s : state), qc (rmOldWork l c s).2 = qc s.
Proof.
  induction l as [|fqn l IH]; intros c s; [done|]. simpl.
  destruct (Lstat fqn (world s)) as [fi|]; [|apply IH].
  destruct (RemoveFile fqn (world s)) as [w [|]]; by rewrite IH.
Qed.

Lemma rmOldWork_frame (l : list string) :
  ∀ (c : rmcnt) (s : state) (f : string),
    f ∉ l → files (world (rmOldWork l c s).2) !! f = files (world s) !! f.
Proof.
  induction l as [|fqn l IH]; intros c s f Hf; [done|]. simpl.
  apply not_elem_of_cons in Hf as [Hne Hf].
  destruct (Lstat fqn (world s)) as [fi|]; [|by apply IH].
  destruct (RemoveFile fqn (world s)) as [w ok] eqn:Hrm.
  pose proof (RemoveFile_frame _ _ _ _ f Hrm Hne) as Hfr.
  destruct ok; rewrite IH by done; exact Hfr.
Qed.

(** *** Accounting *)

(** The bytes that the regular files of the disk take. *)
Definition used_bytes (m : gmap string finfo) : Z :=
  map_fold (λ _ fi acc, fi_size fi + acc) 0 m.

Definition sizes_nonneg (m : gmap string finfo) : Prop :=
  map_Forall (λ _ fi, 0 <= fi_size fi) m.

Lemma used_bytes_delete (m : gmap string finfo) (f : string) (fi : finfo) :
  m !! f = Some fi → used_bytes m = fi_size fi + used_bytes (delete f m).
Proof.
  intros Hf. unfold used_bytes.
  apply (map_fold_delete_L (λ _ fi acc, fi_size fi + acc)); [|done].
  intros. lia.
Qed.

Lemma used_bytes_nonneg (m : gmap string finfo) :
  sizes_nonneg m → 0 <= used_bytes m.
Proof.
  unfold used_bytes, sizes_nonneg.
  induction m as [|f fi m Hf IH] using map_ind.
  - intros _. by rewrite map_fold_empty.
  - intros Hall. apply map_Forall_insert in Hall as [H0 Hall]; [|done].
    rewrite map_fold_insert_L; [|intros; lia|done].
    specialize (IH Hall). simpl in H0. lia.
Qed.

Lemma sizes_nonneg_delete (m : gmap string finfo) (f : string) :
  sizes_nonneg m → sizes_nonneg (delete f m).
Proof. apply map_Forall_delete. Qed.

(** What the loop over [j.oldWork] counts is what left the disk: the
    number of files and their bytes. *)
Lemma rmOldWork_account (l : list string) :
  ∀ (c : rmcnt) (s : state),
    sizes_nonneg (files (world s)) →
    0 <= nfiles c → 0 <= nbytes c →
    nfiles c + Z.of_nat (size (files (world s))) <= max_int →
    nbytes c + used_bytes (files (world s)) <= max_int →
    let r := rmOldWork l c s in
    nfiles r.1 + Z.of_nat (size (files (world r.2)))
    = nfiles c + Z.of_nat (size (files (world s)))
    ∧ nbytes r.1 + used_bytes (files (world r.2))
      = nbytes c + used_bytes (files (world s))
    ∧ sizes_nonneg (files (world r.2))
    ∧ nfiles c <= nfiles r.1 ∧ nbytes c <= nbytes r.1.
Proof.
  induction l as [|fqn l IH]; intros c s Hnn Hc Hb Hcm Hbm; simpl.
  { repeat split; try done; lia. }
  unfold Lstat, RemoveFile, os_Remove.
  destruct (files (world s) !! fqn) as [fi|] eqn:Hfi; [|by apply IH].
  case_bool_decide as Hu.
  - (* unlink refused *)
    by apply (IH c (AddErr fqn (set_world (world s) s))).
  - pose proof (used_bytes_delete _ _ _ Hfi) as Hub.
    pose proof (map_size_delete_Some fqn (files (world s)) (mk_is_Some _ _ Hfi)) as Hsz.
    assert (Hpos : (0 < size (files (world s)))%nat).
    { destruct (size (files (world s))) eqn:Hz; [|lia].
      apply map_size_empty_inv in Hz. rewrite Hz in Hfi.
      by rewrite lookup_empty in Hfi. }
    pose proof (Hnn _ _ Hfi) as Hfi0. simpl in Hfi0.
    pose proof (used_bytes_nonneg _ (sizes_nonneg_delete _ fqn Hnn)) as Hrest.
    set (w := set_files (delete fqn (files (world s))) (world s)).
    assert (Hw1 : wrap64 (nfiles c + 1) = nfiles c + 1).
    { unfold wrap64. unfold max_int in Hcm. rewrite Z.mod_small; lia. }
    assert (Hw2 : wrap64 (nbytes c + fi_size fi) = nbytes c + fi_size fi).
    { unfold wrap64. unfold max_int in Hbm. rewrite Z.mod_small; lia. }
    destruct (IH (count_removed (fi_size fi) c) (set_world w s))
      as (H1 & H2 & H3 & H4 & H5); simpl.
    + by apply sizes_nonneg_delete.
    + rewrite Hw1. lia.
    + rewrite Hw2. lia.
    + rewrite Hw1, Hsz. lia.
    + rewrite Hw2. lia.
    + simpl in H1, H2, H4, H5. rewrite Hw1 in H1, H4. rewrite Hw2 in H2, H5.
      rewrite Hsz in H1.
      repeat split; [lia|lia|done|lia|lia].
Qed.

Section WithEnv.
Context (E : Env).

Lemma rmMisplacedLOM_qc (mlom : LOM) (s : state) :
  qc (rmMisplacedLOM E mlom s).1 = qc s.
Proof.
  unfold rmMisplacedLOM.
  destruct (lom_InitBck E _ _).
  - destruct (os_Remove _ _) as [w [|]]; reflexivity.
  - destruct (negb _).
    + destruct (os_Remove _ _) as [w [|]]; reflexivity.
    + destruct (lom_DelExtraCopies E _ _ _) as [[w removed] [|]]; reflexivity.
Qed.

Lemma rmMisplacedLOMs_qc (l : list LOM) :
  ∀ (c : rmcnt) (s : state), qc (rmMisplacedLOMs E l c s).1.2 = qc s.
Proof.
  induction l as [|mlom l IH]; intros c s; [done|]. simpl.
  pose proof (rmMisplacedLOM_qc mlom s) as Hq.
  destruct (rmMisplacedLOM E mlom s) as [s1 [|]]; simpl in Hq.
  - destruct (done s1); [done|]. by rewrite IH.
  - by rewrite IH.
Qed.

Lemma rmMisplacedEC_qc (l : list CT) :
  ∀ (c : rmcnt) (s : state), qc (rmMisplacedEC E l c s).1.2 = qc s.
Proof.
  induction l as [|ct l IH]; intros c s; [done|]. simpl.
  destruct (Stat_ok _ _); [apply IH|].
  destruct (os_Remove _ _) as [w [|]].
  - destruct (done _); [done|]. by rewrite IH.
  - by rewrite IH.
Qed.

Lemma rmMisplacedEC_frame (l : list CT) :
  ∀ (c : rmcnt) (s : state) (f : string),
    f ∉ FQN <$> l →
    files (world (rmMisplacedEC E l c s).1.2) !! f = files (world s) !! f.
Proof.
  induction l as [|ct l IH]; intros c s f Hf; [done|]. simpl.
  rewrite fmap_cons in Hf. apply not_elem_of_cons in Hf as [Hne Hf].
  destruct (Stat_ok _ _); [by apply IH|].
  destruct (os_Remove (FQN ct) (world s)) as [w ok] eqn:Hrm.
  pose proof (os_Remove_frame _ _ _ _ f Hrm Hne) as Hfr.
  destruct ok.
  - destruct (done _); [exact Hfr|]. rewrite IH by done. exact Hfr.
  - rewrite IH by done. exact Hfr.
Qed.

(** *** The three steps of [rmLeftovers] *)

Definition step1 (specifier : Z) (s : state) : rmcnt * state :=
  if negb (Z.land specifier flagRmOldWork =? 0) then
    let '(c, s) := rmOldWork (oldWork s) (mkRmcnt 0 0 0) s in
    (c, set_now (wall (world s)) (set_oldWork [] s))
  else (mkRmcnt 0 0 0, s).

Definition step2 (specifier : Z) (c : rmcnt) (s : state) : rmcnt * state * bool :=
  if negb (Z.land specifier flagRmMisplacedLOMs =? 0) then
    let '(c, s, returned) :=
      if negb (bool_decide (misplaced_loms s = []))
         && rmMisplaced (RebMarked E) (ResilverMarked E) (Args E)
      then rmMisplacedLOMs E (misplaced_loms s) c s
      else (c, s, false) in
    if returned then (c, s, true)
    else (c, set_now (wall (world s)) (set_misplaced_loms [] s), false)
  else (c, s, false).

Definition step3 (specifier : Z) (c : rmcnt) (s : state) : rmcnt * state * bool :=
  if negb (Z.land specifier flagRmMisplacedEC =? 0) then
    let '(c, s, returned) := rmMisplacedEC E (misplaced_ec s) c s in
    if returned then (c, s, true)
    else (c, set_now (wall (world s)) (set_misplaced_ec [] s), false)
  else (c, s, false).

Lemma rmLeftovers_steps (specifier : Z) (s : state) :
  rmLeftovers E specifier s =
    let '(c, s) := step1 specifier s in
    let '(c, s, returned) := step2 specifier c s in
    if returned then s
    else
      let '(c, s, returned) := step3 specifier c s in
      if returned then s
      else ObjsAdd (nfiles c) (nbytes c) (StatsAdd (nfiles c) (nbytes c) s).
Proof. reflexivity. Qed.

(** The fields that no step of [rmLeftovers] changes but by emptying a
    queue: the other queues, the visit counter, the abort state. *)
Lemma step1_spec (specifier : Z) (s : state) :
  let s1 := (step1 specifier s).2 in
  (oldWork s1 = [] ∨ oldWork s1 = oldWork s)
  ∧ misplaced_loms s1 = misplaced_loms s
  ∧ misplaced_ec s1 = misplaced_ec s
  ∧ done s1 = done s
  ∧ ∀ f, f ∉ oldWork s → files (world s1) !! f = files (world s) !! f.
Proof.
  unfold step1. destruct (negb _); [|by repeat split; try right].
  pose proof (rmOldWork_qc (oldWork s) (mkRmcnt 0 0 0) s) as Hq.
  pose proof (rmOldWork_frame (oldWork s) (mkRmcnt 0 0 0) s) as Hf.
  destruct (rmOldWork _ _ s) as [c1 s1]. simpl in *.
  pose proof (qc_done _ _ Hq) as Hd.
  injection Hq as _ Hl He _ _ _ _ _ _ _ _.
  split; [by left|]. done.
Qed.

Lemma step2_spec (specifier : Z) (c : rmcnt) (s : state) :
  let s2 := (step2 specifier c s).1.2 in
  oldWork s2 = oldWork s
  ∧ misplaced_ec s2 = misplaced_ec s
  ∧ done s2 = done s
  ∧ (Z.land specifier flagRmMisplacedLOMs = 0 ∨ misplaced_loms s = [] →
     files (world s2) = files (world s)
     ∧ (step2 specifier c s).1.1 = c ∧ (step2 specifier c s).2 = false).
Proof.
  unfold step2.
  destruct (Z.eqb_spec (Z.land specifier flagRmMisplacedLOMs) 0) as [H0|H0];
    simpl; [done|].
  case_bool_decide as Hm; simpl.
  - repeat split; try done.
  - destruct (rmMisplaced _ _ _); simpl.
    + pose proof (rmMisplacedLOMs_qc (misplaced_loms s) c s) as Hq.
      destruct (rmMisplacedLOMs E _ c s) as [[c2 s2] ret]. simpl in Hq.
      pose proof (qc_done _ _ Hq) as Hd.
      injection Hq as Ho _ He _ _ _ _ _ _ _ _.
      destruct ret; simpl; (split; [exact Ho|]); (split; [exact He|]);
        (split; [exact Hd|]); by intros [?|?].
    + do 3 (split; [reflexivity|]). by intros [?|?].
Qed.

Lemma step3_spec (specifier : Z) (c : rmcnt) (s : state) :
  let s3 := (step3 specifier c s).1.2 in
  oldWork s3 = oldWork s
  ∧ misplaced_loms s3 = misplaced_loms s
  ∧ done s3 = done s
  ∧ ∀ f, f ∉ FQN <$> misplaced_ec s →
         files (world s3) !! f = files (world s) !! f.
Proof.
  unfold step3. destruct (negb _); [|done].
  pose proof (rmMisplacedEC_qc (misplaced_ec s) c s) as Hq.
  pose proof (rmMisplacedEC_frame (misplaced_ec s) c s) as Hf.
  destruct (rmMisplacedEC E _ c s) as [[c3 s3] ret]. simpl in Hq, Hf.
  pose proof (qc_done _ _ Hq) as Hd.
  injection Hq as Ho Hl _ _ _ _ _ _ _ _ _.
  by destruct ret.
Qed.

(** X12: a batch removal unlinks nothing but what was queued.  Unless
    misplaced objects are removed by the call (their copies are removed
    by [lom.DelExtraCopies]), a file that is neither on the old-work queue
    nor the path of a queued EC slice or replica is on disk after
    [rmLeftovers] exactly as before. *)
Theorem rmLeftovers_unlinks_only_queued (specifier : Z) (s : state) (f : string) :
  Z.land specifier flagRmMisplacedLOMs = 0 ∨ misplaced_loms s = [] →
  f ∉ oldWork s →
  f ∉ FQN <$> misplaced_ec s →
  files (world (rmLeftovers E specifier s)) !! f = files (world s) !! f.
Proof.
  intros Hgate Hw Hec. rewrite rmLeftovers_steps.
  destruct (step1_spec specifier s) as (_ & Hl1 & He1 & _ & Hf1).
  destruct (step1 specifier s) as [c1 s1]. simpl in *.
  destruct (step2_spec specifier c1 s1) as (_ & He2 & _ & Hg2).
  destruct Hg2 as (Hf2 & _ & Hr2); [by rewrite Hl1|].
  destruct (step2 specifier c1 s1) as [[c2 s2] ret2]. simpl in *. subst ret2.
  destruct (step3_spec specifier c2 s2) as (_ & _ & _ & Hf3).
  specialize (Hf3 f). rewrite He2, He1 in Hf3. specialize (Hf3 Hec).
  destruct (step3 specifier c2 s2) as [[c3 s3] ret3]. simpl in *.
  assert (Hgoal : files (world s3) !! f = files (world s) !! f).
  { by rewrite Hf3, Hf2, Hf1. }
  by destruct ret3.
Qed.

Lemma step2_closed (specifier : Z) (c : rmcnt) (s : state) :
  Z.land specifier flagRmMisplacedLOMs = 0 ∨ misplaced_loms s = [] →
  step2 specifier c s = (c, s, false)
  ∨ step2 specifier c s
    = (c, set_now (wall (world s)) (set_misplaced_loms [] s), false).
Proof.
  intros Hg. unfold step2.
  destruct (Z.eqb_spec (Z.land specifier flagRmMisplacedLOMs) 0) as [H0|H0];
    simpl; [by left|].
  destruct Hg as [?|Hm]; [done|]. rewrite Hm. by right.
Qed.

Lemma step3_closed (specifier : Z) (c : rmcnt) (s : state) :
  Z.land specifier flagRmMisplacedEC = 0 ∨ misplaced_ec s = [] →
  step3 specifier c s = (c, s, false)
  ∨ step3 specifier c s
    = (c, set_now (wall (world s)) (set_misplaced_ec [] s), false).
Proof.
  intros Hg. unfold step3.
  destruct (Z.eqb_spec (Z.land specifier flagRmMisplacedEC) 0) as [H0|H0];
    simpl; [by left|].
  destruct Hg as [?|Hm]; [done|]. rewrite Hm. by right.
Qed.

(** A counter with room for [room] more. *)
Definition has_room (z room : Z) : Prop := 0 <= z ∧ z + room <= max_int.

Lemma wrap64_add (z room d : Z) :
  has_room z room → 0 <= d <= room → wrap64 (z + d) = z + d.
Proof.
  unfold has_room, max_int, wrap64. intros [H0 H1] Hd.
  rewrite Z.mod_small; lia.
Qed.

(** X13: the counters count what left the disk.  When [rmLeftovers]
    removes old work only (no misplaced object and no EC slice is removed
    by the call), the xaction's object and byte counters and the two
    statistics ([cleanup.store.n], [cleanup.store.size]) grow by exactly
    the number of regular files that the call unlinked and by their bytes:
    a queued path that is gone already, is queued twice, or that [unlink]
    refuses is not counted.  (Sizes are not negative, and the counters
    have room: they are [int64].) *)
Theorem rmLeftovers_counts_unlinked (specifier : Z) (s : state) :
  Z.land specifier flagRmMisplacedLOMs = 0 ∨ misplaced_loms s = [] →
  Z.land specifier flagRmMisplacedEC = 0 ∨ misplaced_ec s = [] →
  sizes_nonneg (files (world s)) →
  has_room (x_objs (xcln s)) (Z.of_nat (size (files (world s)))) →
  has_room (x_bytes (xcln s)) (used_bytes (files (world s))) →
  has_room (CleanupStoreCount s) (Z.of_nat (size (files (world s)))) →
  has_room (CleanupStoreSize s) (used_bytes (files (world s))) →
  let s' := rmLeftovers E specifier s in
  let unlinked :=
    Z.of_nat (size (files (world s))) - Z.of_nat (size (files (world s'))) in
  let freed := used_bytes (files (world s)) - used_bytes (files (world s')) in
  x_objs (xcln s') = x_objs (xcln s) + unlinked
  ∧ x_bytes (xcln s') = x_bytes (xcln s) + freed
  ∧ CleanupStoreCount s' = CleanupStoreCount s + unlinked
  ∧ CleanupStoreSize s' = CleanupStoreSize s + freed
  ∧ 0 <= unlinked ∧ 0 <= freed.
Proof.
  intros Hg2 Hg3 Hnn Ho Hb Hsc Hss. cbv zeta. rewrite rmLeftovers_steps.
  assert (H1 : ∃ c1 s1,
             step1 specifier s = (c1, s1)
             ∧ nfiles c1 + Z.of_nat (size (files (world s1)))
               = Z.of_nat (size (files (world s)))
             ∧ nbytes c1 + used_bytes (files (world s1))
               = used_bytes (files (world s))
             ∧ 0 <= nfiles c1 ∧ 0 <= nbytes c1
             ∧ sizes_nonneg (files (world s1))
             ∧ x_objs (xcln s1) = x_objs (xcln s)
             ∧ x_bytes (xcln s1) = x_bytes (xcln s)
             ∧ CleanupStoreCount s1 = CleanupStoreCount s
             ∧ CleanupStoreSize s1 = CleanupStoreSize s
             ∧ misplaced_loms s1 = misplaced_loms s
             ∧ misplaced_ec s1 = misplaced_ec s).
  { unfold step1. destruct (negb _).
    - pose proof (rmOldWork_account (oldWork s) (mkRmcnt 0 0 0) s Hnn) as Ha.
      pose proof (rmOldWork_qc (oldWork s) (mkRmcnt 0 0 0) s) as Hq.
      destruct (rmOldWork _ _ s) as [c1 s1]. simpl in Ha, Hq.
      destruct Ha as (Ha1 & Ha2 & Ha3 & Ha4 & Ha5);
        [lia|lia|by destruct Ho; unfold max_int in *; lia
        |by destruct Hb; unfold max_int in *; lia|].
      injection Hq as _ Hl He _ _ Hc1 Hc2 _ _ Hx1 Hx2.
      eexists _, _. split; [reflexivity|]. simpl.
      repeat split; try done; lia.
    - eexists _, _. split; [reflexivity|]. simpl. repeat split; try done; lia. }
  destruct H1 as (c1 & s1 & -> & Hn1 & Hb1 & Hc0 & Hb0 & Hnn1 & Hx1 & Hx2 & Hc1 & Hc2
                  & Hl1 & He1).
  pose proof (used_bytes_nonneg _ Hnn1) as Hu1.
  assert (H2 : ∃ s2, step2 specifier c1 s1 = (c1, s2, false)
                     ∧ world s2 = world s1 ∧ xcln s2 = xcln s1
                     ∧ CleanupStoreCount s2 = CleanupStoreCount s1
                     ∧ CleanupStoreSize s2 = CleanupStoreSize s1
                     ∧ misplaced_ec s2 = misplaced_ec s1).
  { destruct (step2_closed specifier c1 s1) as [->| ->];
      [by rewrite Hl1|by eexists..]. }
  destruct H2 as (s2 & -> & Hw2 & Hxc2 & Hsc2 & Hss2 & He2).
  assert (H3 : ∃ s3, step3 specifier c1 s2 = (c1, s3, false)
                     ∧ world s3 = world s2 ∧ xcln s3 = xcln s2
                     ∧ CleanupStoreCount s3 = CleanupStoreCount s2
                     ∧ CleanupStoreSize s3 = CleanupStoreSize s2).
  { destruct (step3_closed specifier c1 s2) as [->| ->];
      [by rewrite He2, He1|by eexists..]. }
  destruct H3 as (s3 & -> & Hw3 & Hxc3 & Hsc3 & Hss3).
  cbn [ObjsAdd StatsAdd xcln x_objs x_bytes set_xcln set_stats world
       CleanupStoreCount CleanupStoreSize].
  rewrite Hxc3, Hxc2, Hsc3, Hsc2, Hss3, Hss2, Hw3, Hw2, Hx1, Hx2, Hc1, Hc2.
  rewrite (wrap64_add _ _ _ Ho) by lia.
  rewrite (wrap64_add _ _ _ Hb) by lia.
  rewrite (wrap64_add _ _ _ Hsc) by lia.
  rewrite (wrap64_add _ _ _ Hss) by lia.
  repeat split; lia.
Qed.

(** *** Directories *)

Lemma rmEmptyDir_spec (fqn : string) (s : state) :
  let s' := rmEmptyDir E fqn s in
  qc s' = qc s
  ∧ files (world s') = files (world s)
  ∧ undeletable (world s') = undeletable (world s)
  ∧ (∀ d, d ≠ fqn → dirs (world s') !! d = dirs (world s) !! d)
  ∧ (dirs (world s) !! fqn ≠ Some DirEmpty → dirs (world s') = dirs (world s)).
Proof.
  unfold rmEmptyDir.
  destruct (LikelyCT E _); [done|]. destruct (_ <? _)%nat; [done|].
  destruct (negb _); [done|].
  destruct (dirs (world s) !! fqn) as [[| | |]|] eqn:Hd; try done.
  simpl. repeat split; try done.
  intros d Hne. by rewrite lookup_delete_ne.
Qed.

(** X14: visiting a directory removes at most that directory, and only
    when it was found empty: no regular file is touched, nothing is
    queued or counted, every other directory stays, and a directory that
    is not empty (or cannot be opened or read) stays as well. *)
Theorem visit_dir_removes_only_empty (fqn : string) (de : DirEntry) (s : state) :
  IsDir de = true →
  ∃ s', visit E fqn de s = Some s'
        ∧ files (world s') = files (world s)
        ∧ oldWork s' = oldWork s
        ∧ misplaced_loms s' = misplaced_loms s
        ∧ misplaced_ec s' = misplaced_ec s
        ∧ nvisits s' = nvisits s
        ∧ (∀ d, d ≠ fqn → dirs (world s') !! d = dirs (world s) !! d)
        ∧ (dirs (world s) !! fqn ≠ Some DirEmpty →
           dirs (world s') = dirs (world s)).
Proof.
  intros Hd. unfold visit. rewrite Hd. eexists. split; [reflexivity|].
  destruct (rmEmptyDir_spec fqn s) as (Hq & Hf & _ & Ho & He).
  injection Hq as Hw Hl Hec Hn _ _ _ _ _ _ _. done.
Qed.

(** *** After an abort *)

Lemma visit_done (fqn : string) (de : DirEntry) (s : state) :
  done s = true →
  ∃ s', visit E fqn de s = Some s' ∧ qc s' = qc s
        ∧ files (world s') = files (world s).
Proof.
  intros Hd. unfold visit. destruct (IsDir de).
  - eexists. split; [reflexivity|].
    by destruct (rmEmptyDir_spec fqn s) as (Hq & Hf & _).
  - rewrite Hd. by eexists.
Qed.

(** X15: once the xaction is aborted or finished, the walk visits no
    file: whatever entries [fs.Walk] still hands to the callback, no
    regular file is removed, nothing is queued or counted, and the walk
    returns (directories found empty are still removed). *)
Theorem walk_after_abort (entries : list DirEntry) (s : state) :
  done s = true →
  ∃ s', walk E entries s = Some s'
        ∧ files (world s') = files (world s)
        ∧ oldWork s' = oldWork s
        ∧ misplaced_loms s' = misplaced_loms s
        ∧ misplaced_ec s' = misplaced_ec s
        ∧ nvisits s' = nvisits s
        ∧ x_objs (xcln s') = x_objs (xcln s)
        ∧ CleanupStoreCount s' = CleanupStoreCount s.
Proof.
  intros Hd.
  assert (H : ∃ s', walk E entries s = Some s' ∧ qc s' = qc s
                    ∧ files (world s') = files (world s)).
  { revert s Hd. induction entries as [|de entries IH]; intros s Hd.
    - by eexists.
    - simpl. destruct (visit_done (de_fqn de) de s Hd) as (s1 & -> & Hq & Hf).
      destruct (IH s1) as (s' & Hw & Hq' & Hf').
      + by rewrite (qc_done _ _ Hq).
      + exists s'. split; [done|]. split; congruence. }
  destruct H as (s' & Hw & Hq & Hf). exists s'. split; [done|].
  injection Hq as Ho Hl Hec Hn _ Hc _ _ _ Hx _. done.
Qed.

(** *** The bound of the old-work queue *)

(** The old-work queue holds fewer than [BatchSize] paths. *)
Definition oldWork_bounded (s : state) : Prop :=
  Z.of_nat (length (oldWork s)) < BatchSize E.

(** The queue was emptied or left as it was. *)
Definition no_growth (s s' : state) : Prop :=
  oldWork s' = [] ∨ oldWork s' = oldWork s.

Lemma no_growth_bounded (s s' : state) :
  0 < BatchSize E → oldWork_bounded s → no_growth s s' → oldWork_bounded s'.
Proof.
  unfold oldWork_bounded. intros Hb Hs [-> | ->]; [simpl; lia|done].
Qed.

Lemma no_growth_qc (s s' : state) : qc s' = qc s → no_growth s s'.
Proof. intros [= Ho _ _ _ _ _ _ _ _ _ _]. by right. Qed.

Lemma no_growth_rmLeftovers (specifier : Z) (s : state) :
  no_growth s (rmLeftovers E specifier s).
Proof.
  rewrite rmLeftovers_steps.
  destruct (step1_spec specifier s) as (H1 & _).
  destruct (step1 specifier s) as [c1 s1]. simpl in H1.
  destruct (step2_spec specifier c1 s1) as (H2 & _).
  destruct (step2 specifier c1 s1) as [[c2 s2] ret2]. simpl in H2.
  destruct (step3_spec specifier c2 s2) as (H3 & _).
  destruct (step3 specifier c2 s2) as [[c3 s3] ret3]. simpl in H3.
  unfold no_growth.
  destruct ret2; [rewrite H2; exact H1|].
  destruct ret3; [rewrite H3, H2; exact H1|].
  change (oldWork (ObjsAdd _ _ (StatsAdd _ _ s3))) with (oldWork s3).
  rewrite H3, H2. exact H1.
Qed.

Lemma no_growth_rmAnyBatch (specifier : Z) (s : state) :
  no_growth s (rmAnyBatch E specifier s).
Proof.
  unfold rmAnyBatch.
  repeat (destruct (_ =? _); [destruct (_ <? _);
                               [by right|apply no_growth_rmLeftovers]|]).
  by right.
Qed.

Lemma bounded_queueOldWork (fqn : string) (s : state) :
  0 < BatchSize E → oldWork_bounded (queueOldWork E fqn s).
Proof.
  intros Hb. unfold queueOldWork, rmAnyBatch, oldWork_bounded.
  change (flagRmOldWork =? flagRmOldWork) with true. cbn match.
  destruct (Z.ltb_spec (Z.of_nat (length (oldWork (set_oldWork (oldWork s ++ [fqn]) s))))
              (BatchSize E)) as [Hlt|Hge]; [done|].
  destruct (rmLeftovers_oldWork E (set_oldWork (oldWork s ++ [fqn]) s)) as [_ ->].
  simpl. lia.
Qed.

Lemma no_growth_queueMisplacedEC (ct : CT) (s : state) :
  no_growth s (queueMisplacedEC E ct s).
Proof.
  unfold queueMisplacedEC.
  exact (no_growth_rmAnyBatch _ (set_misplaced_ec (misplaced_ec s ++ [ct]) s)).
Qed.

Lemma no_growth_queueMisplacedLOM (lom : LOM) (s : state) :
  no_growth s (queueMisplacedLOM E lom s).
Proof.
  unfold queueMisplacedLOM.
  exact (no_growth_rmAnyBatch _ (set_misplaced_loms (misplaced_loms s ++ [lom]) s)).
Qed.

Lemma oldWork_Abort (e : string) (s : state) : oldWork (Abort e s) = oldWork s.
Proof.
  unfold Abort. destruct (x_abort _); [done|]. by destruct (x_finished _).
Qed.

Lemma oldWork_AddErrs (errs : list string) (s : state) :
  oldWork (fold_right AddErr s errs) = oldWork s.
Proof. induction errs as [|e errs IH]; [done|]. exact IH. Qed.

Lemma bounded_same (s s' : state) :
  oldWork s' = oldWork s → oldWork_bounded s → oldWork_bounded s'.
Proof. unfold oldWork_bounded. by intros ->. Qed.

Lemma bounded_visitChunk (chunkFQN : string) (lom : LOM) (uploadID : string)
      (s : state) :
  0 < BatchSize E → oldWork_bounded s →
  oldWork_bounded (visitChunk E chunkFQN lom uploadID s).
Proof.
  intros Hb Hs. unfold visitChunk.
  destruct (getCompletedID E (world s) lom) as [id errs].
  assert (Hs' : oldWork_bounded (fold_right AddErr s errs)).
  { eapply bounded_same; [apply oldWork_AddErrs|done]. }
  destruct (negb (String.eqb id EmptyString)).
  - destruct (negb _); [by apply bounded_queueOldWork|done].
  - destruct (Lstat _ _) as [fi|].
    + destruct (too_early _ _ _); [done|]. by apply bounded_queueOldWork.
    + by apply bounded_queueOldWork.
Qed.

Lemma bounded_initCTLOM (objName fqn : string) (s : state) :
  oldWork_bounded s → oldWork_bounded (initCTLOM E objName fqn s).1.
Proof.
  intros Hs. unfold initCTLOM. destruct (lom_InitBck E _ _); [|done].
  simpl. eapply bounded_same; [apply oldWork_Abort|done].
Qed.

Lemma bounded_visitCT (parsed : ParsedFQN) (fqn : string) (s s' : state) :
  0 < BatchSize E → oldWork_bounded s →
  visitCT E parsed fqn s = Some s' → oldWork_bounded s'.
Proof.
  intros Hb Hs. unfold visitCT.
  pose proof (bounded_queueOldWork fqn s Hb) as Hq.
  destruct (p_ContentType parsed).
  - destruct (_ && _); by intros [= <-].
  - by intros [= <-].
  - destruct (NewCTFromFQN E fqn) as [[ct|] [|]]; try by intros [= <-].
    destruct (negb _); [by intros [= <-]|].
    destruct (LoadSliceFromFS _ _) as [ct'|]; [|by intros [= <-]].
    destruct (too_early _ _ _); [by intros [= <-]|].
    destruct (negb _); intros [= <-]; [|done].
    eapply no_growth_bounded; [done|exact Hs|apply no_growth_queueMisplacedEC].
  - destruct (NewCTFromFQN E fqn) as [[ct|] [|]]; try by intros [= <-].
    destruct (negb _); [by intros [= <-]|].
    destruct (Stat_ok _ _); [by intros [= <-]|].
    destruct (Stat_ok _ _); by intros [= <-].
  - destruct (negb _); [by intros [= <-]|].
    destruct (ci_Extras _) as [|uploadID extras]; [done|].
    pose proof (bounded_initCTLOM (ci_Base (ParseUbase E ChunkCT (p_ObjName parsed)))
                  fqn s Hs) as Hi.
    destruct (initCTLOM E _ fqn s) as [s1 [|]]; simpl in Hi; intros [= <-];
      [by apply bounded_visitChunk|done].
  - destruct (negb _); [by intros [= <-]|].
    pose proof (bounded_initCTLOM (ci_Base (ParseUbase E ChunkMetaCT (p_ObjName parsed)))
                  fqn s Hs) as Hi.
    destruct (initCTLOM E _ fqn s) as [s1 [|]]; simpl in Hi; [|by intros [= <-]].
    destruct (ci_Extras _); intros [= <-]; [done|].
    by apply bounded_queueOldWork.
  - by intros [= <-].
Qed.

Lemma oldWork_rmExtraCopies (lom : LOM) (s : state) :
  oldWork (rmExtraCopies E lom s) = oldWork s.
Proof.
  unfold rmExtraCopies. destruct (negb _); [done|].
  destruct (lom_Load E _ _) as [[| | |]|lom']; try done.
  destruct (too_early _ _ _); [done|]. destruct (lom_IsCopy _); [done|].
  by destruct (lom_DelExtraCopies E _ _ _) as [[w r] [|]].
Qed.

Lemma no_growth_visitObj (fqn : string) (s : state) :
  no_growth s (visitObj E fqn s).
Proof.
  unfold visitObj.
  destruct (lom_InitFQN E fqn (bck s)) as [[|]|lom];
    [right; apply oldWork_Abort|by right|].
  destruct (lom_Load E _ _) as [[| | |]|lom'];
    try (by right);
    try (destruct (lom_RemoveMain E _ _) as [w [|]]; by right).
  destruct (too_early _ _ _); [by right|].
  destruct (lom_IsHRW lom').
  - assert (Hx : oldWork (if lom_HasCopies lom' then rmExtraCopies E lom' s else s)
                 = oldWork s).
    { destruct (lom_HasCopies lom'); [apply oldWork_rmExtraCopies|done]. }
    destruct (_ && _); [|by right].
    destruct (T_DeleteObject E _ _) as [w [|]]; by right.
  - destruct (lom_IsCopy lom'); [by right|].
    destruct (lom_ECEnabled lom').
    + destruct (negb _); [apply no_growth_queueMisplacedEC|by right].
    + apply no_growth_queueMisplacedLOM.
Qed.

Lemma bounded_visit (fqn : string) (de : DirEntry) (s s' : state) :
  0 < BatchSize E → oldWork_bounded s →
  visit E fqn de s = Some s' → oldWork_bounded s'.
Proof.
  intros Hb Hs. unfold visit. destruct (IsDir de).
  { intros [= <-]. eapply no_growth_bounded; [done|exact Hs|].
    apply no_growth_qc. by destruct (rmEmptyDir_spec fqn s). }
  destruct (done s); [by intros [= <-]|].
  destruct (match Lstat fqn (world s) with Some _ => _ | None => _ end);
    [by intros [= <-]|].
  destruct (ResolveFQN E fqn) as [[hrw parsed]|]; [|by intros [= <-]].
  case_bool_decide.
  - intros [= <-]. eapply no_growth_bounded; [done|exact Hs|].
    apply no_growth_visitObj.
  - destruct (visitCT E parsed fqn s) as [s1|] eqn:Hv; [|done].
    intros [= <-]. exact (bounded_visitCT parsed fqn s s1 Hb Hs Hv).
Qed.

(** X16: the old-work queue is bounded by the batch size.  With a
    positive [BatchSize], a jogger whose old-work queue holds fewer than
    [BatchSize] paths still does after any walk of a bucket, and after
    [jogBck]: the queue is flushed by the visit that fills it. *)
Theorem oldWork_stays_bounded
        (entries : list DirEntry) (walk_err : option string) (s : state) :
  0 < BatchSize E →
  Z.of_nat (length (oldWork s)) < BatchSize E →
  (∀ s', walk E entries s = Some s' →
         Z.of_nat (length (oldWork s')) < BatchSize E)
  ∧ (∀ s', jogBck E entries walk_err s = Some s' →
           Z.of_nat (length (oldWork s')) < BatchSize E).
Proof.
  intros Hb Hs.
  assert (Hw : ∀ s', walk E entries s = Some s' → oldWork_bounded s').
  { revert s Hs. induction entries as [|de entries IH]; intros s Hs s'.
    - by intros [= <-].
    - simpl. destruct (visit E (de_fqn de) de s) as [s1|] eqn:Hv; [|done].
      apply IH. by eapply bounded_visit. }
  split; [exact Hw|]. intros s'. unfold jogBck.
  destruct (walk E entries s) as [s1|]; [|done].
  specialize (Hw s1 eq_refl). destruct walk_err; intros [= <-]; [done|].
  eapply no_growth_bounded; [done|exact Hw|apply no_growth_rmLeftovers].
Qed.
(** *** The second look at the metafile *)

Lemma rmMisplacedEC_spared (l : list CT) :
  ∀ (c : rmcnt) (s : state),
    Forall (λ ct, Stat_ok (Gen E (ct_bck ct) (ct_mi ct) (ct_objName ct) ECMetaCT
                               EmptyString) (world s) = true) l →
    rmMisplacedEC E l c s = (c, s, false).
Proof.
  induction l as [|ct l IH]; intros c s Hall; [done|].
  apply Forall_cons in Hall as [Hct Hl]. simpl. rewrite Hct. by apply IH.
Qed.

(** X17: the metafile is looked up a second time when the batch runs.  An
    EC slice or replica was queued because its metafile was missing when
    it was visited; when the metafile of every queued slice is on disk by
    the time [rmLeftovers] runs, the call removes nothing: the disk is as
    before, the counters do not move, and the queue is emptied. *)
Theorem slices_with_metafile_spared (s : state) :
  Forall (λ ct, Stat_ok (Gen E (ct_bck ct) (ct_mi ct) (ct_objName ct) ECMetaCT
                             EmptyString) (world s) = true) (misplaced_ec s) →
  in_range (x_objs (xcln s)) → in_range (x_bytes (xcln s)) →
  let s' := rmLeftovers E flagRmMisplacedEC s in
  world s' = world s
  ∧ misplaced_ec s' = []
  ∧ oldWork s' = oldWork s
  ∧ misplaced_loms s' = misplaced_loms s
  ∧ x_objs (xcln s') = x_objs (xcln s)
  ∧ x_bytes (xcln s') = x_bytes (xcln s)
  ∧ x_errs (xcln s') = x_errs (xcln s).
Proof.
  intros Hall Ho Hb. cbv zeta. rewrite rmLeftovers_steps. unfold step1, step2, step3.
  change (Z.land flagRmMisplacedEC flagRmOldWork =? 0) with true.
  change (Z.land flagRmMisplacedEC flagRmMisplacedLOMs =? 0) with true.
  change (Z.land flagRmMisplacedEC flagRmMisplacedEC =? 0) with false.
  cbn [negb]. rewrite (rmMisplacedEC_spared _ _ _ Hall).
  cbn [ObjsAdd StatsAdd nfiles nbytes xcln x_objs x_bytes x_errs set_xcln set_stats
       set_now set_misplaced_ec world misplaced_ec oldWork misplaced_loms].
  rewrite !Z.add_0_r.
  unfold in_range, min_int, max_int, wrap64 in *.
  rewrite !Z.mod_small by lia.
  repeat split; lia.
Qed.
End WithEnv.

(** *** Samples *)

(** A jogger with one old work file queued, next to an object. *)
Definition workFQN : string := "/mp1/%wk/b1/w1".
Definition objFQN : string := "/mp1/%ob/b1/o1".
Definition sQueued : state :=
  set_oldWork [workFQN] (sampleState [workFQN; objFQN] 10000).

(** The same jogger after the xaction was aborted. *)
Definition sAborted : state :=
  set_xcln (mkXactCln [] (Some "abort") false 0 0) sQueued.

Lemma rmLeftovers_unlinks_only_queued_witness :
  files (world (rmLeftovers E0 flagRmOldWork sQueued)) !! objFQN
  = files (world sQueued) !! objFQN.
Proof.
  apply (rmLeftovers_unlinks_only_queued E0 flagRmOldWork sQueued objFQN).
  - left. reflexivity.
  - apply (bool_decide_unpack _). vm_compute. exact I.
  - apply (bool_decide_unpack _). vm_compute. exact I.
Defined.

Lemma rmLeftovers_counts_unlinked_witness :
  let s' := rmLeftovers E0 flagRmOldWork sQueued in
  let unlinked :=
    Z.of_nat (size (files (world sQueued))) - Z.of_nat (size (files (world s'))) in
  let freed := used_bytes (files (world sQueued)) - used_bytes (files (world s')) in
  x_objs (xcln s') = x_objs (xcln sQueued) + unlinked
  ∧ x_bytes (xcln s') = x_bytes (xcln sQueued) + freed
  ∧ CleanupStoreCount s' = CleanupStoreCount sQueued + unlinked
  ∧ CleanupStoreSize s' = CleanupStoreSize sQueued + freed
  ∧ 0 <= unlinked ∧ 0 <= freed.
Proof.
  apply (rmLeftovers_counts_unlinked E0 flagRmOldWork sQueued).
  - left. reflexivity.
  - left. reflexivity.
  - apply (bool_decide_unpack _). vm_compute. exact I.
  - split; vm_compute; discriminate.
  - split; vm_compute; discriminate.
  - split; vm_compute; discriminate.
  - split; vm_compute; discriminate.
Defined.

Lemma visit_dir_removes_only_empty_witness :
  ∃ s', visit E0 "/mp1/%ob/b1/d1" (mkDirEntry "/mp1/%ob/b1/d1" true) sQueued = Some s'
        ∧ files (world s') = files (world sQueued)
        ∧ oldWork s' = oldWork sQueued
        ∧ misplaced_loms s' = misplaced_loms sQueued
        ∧ misplaced_ec s' = misplaced_ec sQueued
        ∧ nvisits s' = nvisits sQueued
        ∧ (∀ d, d ≠ "/mp1/%ob/b1/d1" →
                dirs (world s') !! d = dirs (world sQueued) !! d)
        ∧ (dirs (world sQueued) !! "/mp1/%ob/b1/d1" ≠ Some DirEmpty →
           dirs (world s') = dirs (world sQueued)).
Proof.
  apply (visit_dir_removes_only_empty E0 "/mp1/%ob/b1/d1"
           (mkDirEntry "/mp1/%ob/b1/d1" true) sQueued).
  reflexivity.
Defined.

Lemma walk_after_abort_witness :
  ∃ s', walk E0 [mkDirEntry workFQN false; mkDirEntry objFQN false] sAborted = Some s'
        ∧ files (world s') = files (world sAborted)
        ∧ oldWork s' = oldWork sAborted
        ∧ misplaced_loms s' = misplaced_loms sAborted
        ∧ misplaced_ec s' = misplaced_ec sAborted
        ∧ nvisits s' = nvisits sAborted
        ∧ x_objs (xcln s') = x_objs (xcln sAborted)
        ∧ CleanupStoreCount s' = CleanupStoreCount sAborted.
Proof.
  apply (walk_after_abort E0 [mkDirEntry workFQN false; mkDirEntry objFQN false]
           sAborted).
  reflexivity.
Defined.

Lemma oldWork_stays_bounded_witness :
  (∀ s', walk E0 [mkDirEntry workFQN false; mkDirEntry objFQN false] sQueued = Some s' →
         Z.of_nat (length (oldWork s')) < BatchSize E0)
  ∧ (∀ s', jogBck E0 [mkDirEntry workFQN false; mkDirEntry objFQN false] None sQueued
           = Some s' →
           Z.of_nat (length (oldWork s')) < BatchSize E0).
Proof.
  apply (oldWork_stays_bounded E0 [mkDirEntry workFQN false; mkDirEntry objFQN false]
           None sQueued); reflexivity.
Defined.

(** A jogger with the slice of [o1] queued as misplaced, and the metafile
    of [o1] on disk by now. *)
Definition sSlice : state :=
  set_misplaced_ec
    [mkCT sliceFQN "o1" ECSliceCT sampleBck "/mp1" 1 10 1000]
    (sampleState [sliceFQN; metaFQN] 10000).

Lemma slices_with_metafile_spared_witness :
  let s' := rmLeftovers E0 flagRmMisplacedEC sSlice in
  world s' = world sSlice
  ∧ misplaced_ec s' = []
  ∧ oldWork s' = oldWork sSlice
  ∧ misplaced_loms s' = misplaced_loms sSlice
  ∧ x_objs (xcln s') = x_objs (xcln sSlice)
  ∧ x_bytes (xcln s') = x_bytes (xcln sSlice)
  ∧ x_errs (xcln s') = x_errs (xcln sSlice).
Proof.
  apply (slices_with_metafile_spared E0 sSlice).
  - repeat constructor.
  - split; vm_compute; discriminate.
  - split; vm_compute; discriminate.
Defined.
End SpaceExtra.

(** ** The cleanup jogger: what is removed *)

Module SpaceRemoval.
Import Int64 Space SpaceSpec SpaceExtra.
Local Open Scope Z_scope.

(** *** The removal functions of other packages *)

(** The disk [w'] is the disk [w] with some regular files unlinked. *)
Definition only_unlinks (w w' : World) : Prop :=
  undeletable w' = undeletable w
  ∧ ∀ f, files w !! f = None → files w' !! f = None.

(** [lom.RemoveMain], [lom.DelExtraCopies] and [T.DeleteObject] are not
    part of the sources.  What is asked of them: they remove files and
    create none. *)
Definition removals_only_unlink (E : Env) : Prop :=
  (∀ w lom, only_unlinks w (lom_RemoveMain E w lom).1)
  ∧ (∀ w lom fqn, only_unlinks w (lom_DelExtraCopies E w lom fqn).1.1)
  ∧ (∀ w lom, only_unlinks w (T_DeleteObject E w lom).1).

(** And of [lom.DelExtraCopies(fqn)], given a path: the path is gone after
    the call, unless [unlink] refuses it. *)
Definition DelExtraCopies_unlinks (E : Env) : Prop :=
  ∀ w lom f,
    files (lom_DelExtraCopies E w lom (Some f)).1.1 !! f = None
    ∨ f ∈ undeletable w.

Lemma only_unlinks_refl (w : World) : only_unlinks w w.
Proof. by split. Qed.

Lemma only_unlinks_trans (w1 w2 w3 : World) :
  only_unlinks w1 w2 → only_unlinks w2 w3 → only_unlinks w1 w3.
Proof.
  intros [Hu1 Hf1] [Hu2 Hf2]. split; [congruence|]. intros f Hf. by apply Hf2, Hf1.
Qed.

Lemma os_Remove_only_unlinks (fqn : string) (w : World) :
  only_unlinks w (os_Remove fqn w).1.
Proof.
  destruct (os_Remove fqn w) as [w' ok] eqn:H. split.
  - by eapply os_Remove_undeletable.
  - intros f. by eapply os_Remove_files.
Qed.

Lemma os_Remove_gone_or_refused (fqn : string) (w : World) :
  files (os_Remove fqn w).1 !! fqn = None ∨ fqn ∈ undeletable w.
Proof. destruct (os_Remove fqn w) as [w' ok] eqn:H. by eapply os_Remove_gone. Qed.

Lemma Stat_ok_false (f : string) (w : World) :
  Stat_ok f w = false ↔ files w !! f = None.
Proof.
  unfold Stat_ok. case_bool_decide as H; split; try done.
  - intros Hn. rewrite Hn in H. by destruct H.
  - intros _. destruct (files w !! f) eqn:Hf; [|done]. destruct H. by eexists.
Qed.

(** *** How a jogger's state moves *)

(** From [s] to [s']: files were unlinked and none created, and every
    path of the old-work queue is still queued, or gone, or refused by
    [unlink]. *)
Definition evolves (s s' : state) : Prop :=
  only_unlinks (world s) (world s')
  ∧ ∀ f, f ∈ oldWork s →
         f ∈ oldWork s' ∨ files (world s') !! f = None
         ∨ f ∈ undeletable (world s).

(** A path handed to the old-work removal. *)
Definition handed (f : string) (s : state) : Prop :=
  f ∈ oldWork s ∨ files (world s) !! f = None ∨ f ∈ undeletable (world s).

Lemma evolves_refl (s : state) : evolves s s.
Proof. split; [apply only_unlinks_refl|]. intros f Hf. by left. Qed.

Lemma evolves_trans (s1 s2 s3 : state) :
  evolves s1 s2 → evolves s2 s3 → evolves s1 s3.
Proof.
  intros [Hw1 Hq1] [Hw2 Hq2]. split; [by eapply only_unlinks_trans|].
  intros f Hf. destruct (Hq1 f Hf) as [Hin|[Hg|Hu]].
  - destruct (Hq2 f Hin) as [?|[?|Hu]]; [by left|by right; left|].
    right; right. destruct Hw1 as [Hu1 _]. by rewrite <- Hu1.
  - right; left. by apply Hw2.
  - by right; right.
Qed.

Lemma evolves_same (s s' : state) :
  oldWork s' = oldWork s → only_unlinks (world s) (world s') → evolves s s'.
Proof. intros Ho Hw. split; [done|]. intros f Hf. left. by rewrite Ho. Qed.

Lemma evolves_qc (s s' : state) :
  qc s' = qc s → only_unlinks (world s) (world s') → evolves s s'.
Proof. intros [= Ho _ _ _ _ _ _ _ _ _ _]. by apply evolves_same. Qed.

Lemma evolves_handed (f : string) (s s' : state) :
  evolves s s' → handed f s → handed f s'.
Proof.
  intros [[Hu Hw] Hq] [Hin|[Hg|Hr]].
  - destruct (Hq f Hin) as [?|[?|?]]; [by left|by right; left|].
    right; right. by rewrite Hu.
  - right; left. by apply Hw.
  - right; right. by rewrite Hu.
Qed.

Lemma rmOldWork_evolves (l : list string) (c : rmcnt) (s : state) :
  only_unlinks (world s) (world (rmOldWork l c s).2)
  ∧ ∀ f, f ∈ l → files (world (rmOldWork l c s).2) !! f = None
                 ∨ f ∈ undeletable (world s).
Proof.
  destruct (rmOldWork l c s) as [c' s'] eqn:H.
  destruct (rmOldWork_spec _ _ _ _ _ H) as (Hu & Hf & Hl). done.
Qed.

Section WithEnv.
Context (E : Env).
Context (Hrm : removals_only_unlink E).

Lemma rmMisplacedLOM_only_unlinks (mlom : LOM) (s : state) :
  only_unlinks (world s) (world (rmMisplacedLOM E mlom s).1).
Proof.
  destruct Hrm as (_ & Hdel & _). unfold rmMisplacedLOM.
  destruct (lom_InitBck E _ _).
  - pose proof (os_Remove_only_unlinks (lom_FQN mlom) (world s)) as H.
    by destruct (os_Remove _ _) as [w [|]].
  - destruct (negb _).
    + pose proof (os_Remove_only_unlinks (lom_FQN mlom) (world s)) as H.
      by destruct (os_Remove _ _) as [w [|]].
    + pose proof (Hdel (world s) mlom (Some (lom_FQN mlom))) as H.
      by destruct (lom_DelExtraCopies E _ _ _) as [[w removed] [|]].
Qed.

Lemma rmMisplacedLOMs_only_unlinks (l : list LOM) :
  ∀ (c : rmcnt) (s : state),
    only_unlinks (world s) (world (rmMisplacedLOMs E l c s).1.2).
Proof.
  induction l as [|mlom l IH]; intros c s; [apply only_unlinks_refl|]. simpl.
  pose proof (rmMisplacedLOM_only_unlinks mlom s) as H1.
  destruct (rmMisplacedLOM E mlom s) as [s1 [|]]; simpl in H1.
  - destruct (done s1); [done|]. eapply only_unlinks_trans; [exact H1|apply IH].
  - eapply only_unlinks_trans; [exact H1|apply IH].
Qed.

Lemma rmMisplacedEC_only_unlinks (l : list CT) (c : rmcnt) (s : state) :
  only_unlinks (world s) (world (rmMisplacedEC E l c s).1.2).
Proof.
  destruct (rmMisplacedEC E l c s) as [[c' s'] b] eqn:H.
  by destruct (rmMisplacedEC_spec E _ _ _ _ _ _ H).
Qed.

Lemma step1_evolves (specifier : Z) (s : state) :
  evolves s (step1 specifier s).2
  ∧ (Z.land specifier flagRmOldWork ≠ 0 →
     ∀ f, f ∈ oldWork s →
          files (world (step1 specifier s).2) !! f = None
          ∨ f ∈ undeletable (world s)).
Proof.
  unfold step1.
  destruct (Z.eqb_spec (Z.land specifier flagRmOldWork) 0) as [H0|H0]; simpl.
  - split; [apply evolves_refl|done].
  - destruct (rmOldWork_evolves (oldWork s) (mkRmcnt 0 0 0) s) as [Hw Hl].
    destruct (rmOldWork _ _ s) as [c1 s1]. simpl in *.
    split; [|by intros _]. split; [done|]. intros f Hf. right. by apply Hl.
Qed.

Lemma step2_evolves (specifier : Z) (c : rmcnt) (s : state) :
  evolves s (step2 E specifier c s).1.2.
Proof.
  destruct (step2_spec E specifier c s) as (Ho & _).
  apply evolves_same; [done|]. unfold step2.
  destruct (negb (Z.land specifier flagRmMisplacedLOMs =? 0));
    [|apply only_unlinks_refl].
  destruct (_ && _).
  - pose proof (rmMisplacedLOMs_only_unlinks (misplaced_loms s) c s) as H.
    by destruct (rmMisplacedLOMs E _ c s) as [[c2 s2] [|]].
  - apply only_unlinks_refl.
Qed.

Lemma step3_evolves (specifier : Z) (c : rmcnt) (s : state) :
  evolves s (step3 E specifier c s).1.2.
Proof.
  destruct (step3_spec E specifier c s) as (Ho & _).
  apply evolves_same; [done|]. unfold step3.
  destruct (negb _); [|apply only_unlinks_refl].
  pose proof (rmMisplacedEC_only_unlinks (misplaced_ec s) c s) as H.
  by destruct (rmMisplacedEC E _ c s) as [[c3 s3] [|]].
Qed.

(** [rmLeftovers] only unlinks; a path of the old-work queue is gone
    after it (or refused by [unlink]) when the call removes old work, and
    still queued when it does not. *)
Lemma rmLeftovers_evolves (specifier : Z) (s : state) :
  evolves s (rmLeftovers E specifier s)
  ∧ (Z.land specifier flagRmOldWork ≠ 0 →
     ∀ f, handed f s →
          files (world (rmLeftovers E specifier s)) !! f = None
          ∨ f ∈ undeletable (world s)).
Proof.
  rewrite rmLeftovers_steps.
  destruct (step1_evolves specifier s) as [H1 Hfl].
  destruct (step1 specifier s) as [c1 s1]. simpl in H1, Hfl.
  pose proof (step2_evolves specifier c1 s1) as H2.
  destruct (step2 E specifier c1 s1) as [[c2 s2] ret2]. simpl in H2.
  pose proof (step3_evolves specifier c2 s2) as H3.
  destruct (step3 E specifier c2 s2) as [[c3 s3] ret3]. simpl in H3.
  set (s' := if ret2 then s2 else if ret3 then s3
             else ObjsAdd (nfiles c3) (nbytes c3)
                    (StatsAdd (nfiles c3) (nbytes c3) s3)).
  assert (H23 : evolves s1 s').
  { subst s'. destruct ret2; [done|].
    eapply evolves_trans; [exact H2|]. destruct ret3; [done|].
    eapply evolves_trans; [exact H3|]. by apply evolves_same. }
  split; [by eapply evolves_trans|].
  intros Hbit f Hh.
  assert (Hg : files (world s1) !! f = None ∨ f ∈ undeletable (world s)).
  { destruct Hh as [Hin|[Hg|Hu]]; [by apply Hfl| |by right].
    left. by apply H1. }
  destruct Hg as [Hg|Hu]; [|by right]. left. by apply H23.
Qed.

Lemma rmAnyBatch_evolves (specifier : Z) (s : state) :
  evolves s (rmAnyBatch E specifier s).
Proof.
  unfold rmAnyBatch.
  repeat (destruct (_ =? _); [destruct (_ <? _);
                               [apply evolves_refl|apply rmLeftovers_evolves]|]).
  apply evolves_refl.
Qed.

Lemma queueOldWork_evolves (fqn : string) (s : state) :
  evolves s (queueOldWork E fqn s).
Proof.
  unfold queueOldWork. eapply evolves_trans; [|apply rmAnyBatch_evolves].
  split; [apply only_unlinks_refl|]. intros f Hf. left. simpl.
  apply elem_of_app. by left.
Qed.

Lemma queueOldWork_handed (fqn : string) (s : state) :
  handed fqn (queueOldWork E fqn s).
Proof.
  unfold queueOldWork.
  apply (evolves_handed fqn (set_oldWork (oldWork s ++ [fqn]) s));
    [apply rmAnyBatch_evolves|].
  left. simpl. apply elem_of_app. right. by apply list_elem_of_singleton.
Qed.

Lemma queueMisplacedEC_evolves (ct : CT) (s : state) :
  evolves s (queueMisplacedEC E ct s).
Proof.
  unfold queueMisplacedEC. eapply evolves_trans; [|apply rmAnyBatch_evolves].
  by apply evolves_same; [|apply only_unlinks_refl].
Qed.

Lemma queueMisplacedLOM_evolves (lom : LOM) (s : state) :
  evolves s (queueMisplacedLOM E lom s).
Proof.
  unfold queueMisplacedLOM. eapply evolves_trans; [|apply rmAnyBatch_evolves].
  by apply evolves_same; [|apply only_unlinks_refl].
Qed.

Lemma Abort_evolves (e : string) (s : state) : evolves s (Abort e s).
Proof.
  apply evolves_same; [apply oldWork_Abort|].
  unfold Abort. destruct (x_abort _); [apply only_unlinks_refl|].
  destruct (x_finished _); apply only_unlinks_refl.
Qed.

Lemma AddErrs_evolves (errs : list string) (s : state) :
  evolves s (fold_right AddErr s errs).
Proof.
  induction errs as [|e errs IH]; [apply evolves_refl|].
  eapply evolves_trans; [exact IH|]. by apply evolves_same; [|apply only_unlinks_refl].
Qed.

Lemma visitChunk_evolves (chunkFQN : string) (lom : LOM) (uploadID : string)
      (s : state) :
  evolves s (visitChunk E chunkFQN lom uploadID s).
Proof.
  unfold visitChunk. destruct (getCompletedID E (world s) lom) as [id errs].
  pose proof (AddErrs_evolves errs s) as He.
  destruct (negb (String.eqb id EmptyString)).
  - destruct (negb _); [|done].
    eapply evolves_trans; [exact He|apply queueOldWork_evolves].
  - destruct (Lstat _ _) as [fi|].
    + destruct (too_early _ _ _); [done|].
      eapply evolves_trans; [exact He|].
      eapply evolves_trans; [apply queueOldWork_evolves|].
      eapply evolves_trans; [|apply queueOldWork_evolves].
      by apply evolves_same; [|apply only_unlinks_refl].
    + eapply evolves_trans; [exact He|].
      eapply evolves_trans; [|apply queueOldWork_evolves].
      by apply evolves_same; [|apply only_unlinks_refl].
Qed.

Lemma initCTLOM_evolves (objName fqn : string) (s : state) :
  evolves s (initCTLOM E objName fqn s).1.
Proof.
  unfold initCTLOM. destruct (lom_InitBck E _ _); [apply Abort_evolves|].
  apply evolves_refl.
Qed.

Lemma visitCT_evolves (parsed : ParsedFQN) (fqn : string) (s s' : state) :
  visitCT E parsed fqn s = Some s' → evolves s s'.
Proof.
  unfold visitCT.
  pose proof (queueOldWork_evolves fqn s) as Hq.
  pose proof (evolves_refl s) as Hr.
  destruct (p_ContentType parsed).
  - destruct (_ && _); by intros [= <-].
  - by intros [= <-].
  - destruct (NewCTFromFQN E fqn) as [[ct|] [|]]; try by intros [= <-].
    destruct (negb _); [by intros [= <-]|].
    destruct (LoadSliceFromFS _ _) as [ct'|]; [|by intros [= <-]].
    destruct (too_early _ _ _); [by intros [= <-]|].
    destruct (negb _); intros [= <-]; [|done].
    apply queueMisplacedEC_evolves.
  - destruct (NewCTFromFQN E fqn) as [[ct|] [|]]; try by intros [= <-].
    destruct (negb _); [by intros [= <-]|].
    destruct (Stat_ok _ _); [by intros [= <-]|].
    destruct (Stat_ok _ _); by intros [= <-].
  - destruct (negb _); [by intros [= <-]|].
    destruct (ci_Extras _) as [|uploadID extras]; [done|].
    pose proof (initCTLOM_evolves (ci_Base (ParseUbase E ChunkCT (p_ObjName parsed)))
                  fqn s) as Hi.
    destruct (initCTLOM E _ fqn s) as [s1 [|]]; simpl in Hi; intros [= <-];
      [|done].
    eapply evolves_trans; [exact Hi|apply visitChunk_evolves].
  - destruct (negb _); [by intros [= <-]|].
    pose proof (initCTLOM_evolves (ci_Base (ParseUbase E ChunkMetaCT (p_ObjName parsed)))
                  fqn s) as Hi.
    destruct (initCTLOM E _ fqn s) as [s1 [|]]; simpl in Hi; [|by intros [= <-]].
    destruct (ci_Extras _); intros [= <-]; [done|].
    eapply evolves_trans; [exact Hi|apply queueOldWork_evolves].
  - by intros [= <-].
Qed.

Lemma rmExtraCopies_evolves (lom : LOM) (s : state) :
  evolves s (rmExtraCopies E lom s).
Proof.
  destruct Hrm as (_ & Hdel & _). unfold rmExtraCopies.
  destruct (negb _); [apply evolves_refl|].
  destruct (lom_Load E _ _) as [[| | |]|lom'];
    try apply evolves_refl;
    try (by apply evolves_same; [|apply only_unlinks_refl]).
  destruct (too_early _ _ _); [apply evolves_refl|].
  destruct (lom_IsCopy _); [apply evolves_refl|].
  pose proof (Hdel (world s) lom' None) as H.
  destruct (lom_DelExtraCopies E _ _ _) as [[w r] [|]]; by apply evolves_same.
Qed.

Lemma visitObj_evolves (fqn : string) (s : state) :
  evolves s (visitObj E fqn s).
Proof.
  destruct Hrm as (Hmain & _ & Hdelobj). unfold visitObj.
  destruct (lom_InitFQN E fqn (bck s)) as [[|]|lom];
    [apply Abort_evolves|apply evolves_refl|].
  destruct (lom_Load E _ _) as [[| | |]|lom'];
    try apply evolves_refl;
    try (pose proof (Hmain (world s) lom) as H;
         destruct (lom_RemoveMain E _ _) as [w [|]]; by apply evolves_same).
  destruct (too_early _ _ _); [apply evolves_refl|].
  destruct (lom_IsHRW lom').
  - set (s1 := if lom_HasCopies lom' then rmExtraCopies E lom' s else s).
    assert (H1 : evolves s s1).
    { subst s1. destruct (lom_HasCopies lom');
        [apply rmExtraCopies_evolves|apply evolves_refl]. }
    destruct (_ && _); [|done].
    pose proof (Hdelobj (world s1) lom') as H.
    eapply evolves_trans; [exact H1|].
    destruct (T_DeleteObject E _ _) as [w [|]]; by apply evolves_same.
  - destruct (lom_IsCopy lom'); [apply evolves_refl|].
    destruct (lom_ECEnabled lom').
    + destruct (negb _); [apply queueMisplacedEC_evolves|apply evolves_refl].
    + apply queueMisplacedLOM_evolves.
Qed.

Lemma rmEmptyDir_evolves (fqn : string) (s : state) :
  evolves s (rmEmptyDir E fqn s).
Proof.
  destruct (rmEmptyDir_spec E fqn s) as (Hq & Hf & Hu & _).
  apply evolves_qc; [done|]. split; [done|]. intros f. by rewrite Hf.
Qed.

Lemma visit_evolves (fqn : string) (de : DirEntry) (s s' : state) :
  visit E fqn de s = Some s' → evolves s s'.
Proof.
  unfold visit. destruct (IsDir de).
  { intros [= <-]. apply rmEmptyDir_evolves. }
  destruct (done s); [intros [= <-]; apply evolves_refl|].
  destruct (match Lstat fqn (world s) with Some _ => _ | None => _ end);
    [intros [= <-]; apply evolves_refl|].
  destruct (ResolveFQN E fqn) as [[hrw parsed]|];
    [|intros [= <-]; by apply evolves_same; [|apply only_unlinks_refl]].
  case_bool_decide.
  - intros [= <-]. eapply evolves_trans; [apply visitObj_evolves|].
    by apply evolves_same; [|apply only_unlinks_refl].
  - destruct (visitCT E parsed fqn s) as [s1|] eqn:Hv; [|done].
    intros [= <-]. eapply evolves_trans; [by eapply visitCT_evolves|].
    by apply evolves_same; [|apply only_unlinks_refl].
Qed.

Lemma walk_evolves (entries : list DirEntry) :
  ∀ (s s' : state), walk E entries s = Some s' → evolves s s'.
Proof.
  induction entries as [|de entries IH]; intros s s'.
  - intros [= <-]. apply evolves_refl.
  - simpl. destruct (visit E (de_fqn de) de s) as [s1|] eqn:Hv; [|done].
    intros Hw. eapply evolves_trans; [by eapply visit_evolves|by apply IH].
Qed.

Lemma walk_app (pre post : list DirEntry) (s : state) :
  walk E (pre ++ post) s
  = match walk E pre s with Some s1 => walk E post s1 | None => None end.
Proof.
  revert s. induction pre as [|de pre IH]; intros s; [done|]. simpl.
  destruct (visit E (de_fqn de) de s); [apply IH|done].
Qed.

(** *** The removal loops of a running xaction *)

Lemma rmMisplacedLOM_gone (mlom : LOM) (s : state) :
  DelExtraCopies_unlinks E →
  files (world (rmMisplacedLOM E mlom s).1) !! lom_FQN mlom = None
  ∨ lom_FQN mlom ∈ undeletable (world s).
Proof.
  intros Hdel. unfold rmMisplacedLOM.
  destruct (lom_InitBck E _ _).
  - pose proof (os_Remove_gone_or_refused (lom_FQN mlom) (world s)) as H.
    by destruct (os_Remove _ _) as [w [|]].
  - destruct (negb _).
    + pose proof (os_Remove_gone_or_refused (lom_FQN mlom) (world s)) as H.
      by destruct (os_Remove _ _) as [w [|]].
    + pose proof (Hdel (world s) mlom (lom_FQN mlom)) as H.
      by destruct (lom_DelExtraCopies E _ _ _) as [[w removed] [|]].
Qed.

Lemma rmMisplacedLOMs_complete (l : list LOM) :
  ∀ (c : rmcnt) (s : state),
    done s = false →
    (rmMisplacedLOMs E l c s).2 = false
    ∧ (DelExtraCopies_unlinks E →
       ∀ m, m ∈ l →
            files (world (rmMisplacedLOMs E l c s).1.2) !! lom_FQN m = None
            ∨ lom_FQN m ∈ undeletable (world s)).
Proof.
  induction l as [|mlom l IH]; intros c s Hd.
  { split; [done|]. intros _ m Hm. by apply elem_of_nil in Hm. }
  cbn [rmMisplacedLOMs].
  pose proof (rmMisplacedLOM_qc E mlom s) as Hq.
  pose proof (rmMisplacedLOM_only_unlinks mlom s) as [Hu Hl].
  pose proof (rmMisplacedLOM_gone mlom s) as Hg.
  destruct (rmMisplacedLOM E mlom s) as [s1 removed]. cbn [fst] in *.
  assert (Hd1 : done s1 = false) by (by rewrite (qc_done _ _ Hq)).
  assert (Hrest : ∀ c1,
             (rmMisplacedLOMs E l c1 s1).2 = false
             ∧ (DelExtraCopies_unlinks E →
                ∀ m, m ∈ mlom :: l →
                     files (world (rmMisplacedLOMs E l c1 s1).1.2) !! lom_FQN m = None
                     ∨ lom_FQN m ∈ undeletable (world s))).
  { intros c1. destruct (IH c1 s1 Hd1) as [Hret Hall]. split; [done|].
    intros Hdel m Hm. apply elem_of_cons in Hm as [->|Hm].
    - destruct (Hg Hdel) as [Hgone|?]; [|by right]. left.
      by apply (rmMisplacedLOMs_only_unlinks l c1 s1).
    - rewrite <- Hu. by apply Hall. }
  destruct removed; [rewrite Hd1|]; apply Hrest.
Qed.

Lemma rmMisplacedEC_complete (l : list CT) :
  ∀ (c : rmcnt) (s : state),
    done s = false →
    (rmMisplacedEC E l c s).2 = false
    ∧ ∀ ct, ct ∈ l →
            Stat_ok (Gen E (ct_bck ct) (ct_mi ct) (ct_objName ct) ECMetaCT
                         EmptyString) (world s) = false →
            files (world (rmMisplacedEC E l c s).1.2) !! FQN ct = None
            ∨ FQN ct ∈ undeletable (world s).
Proof.
  induction l as [|ct0 l IH]; intros c s Hd.
  { split; [done|]. intros ct Hct. by apply elem_of_nil in Hct. }
  cbn [rmMisplacedEC].
  destruct (Stat_ok _ (world s)) eqn:Hmeta.
  - destruct (IH c s Hd) as [Hret Hall]. split; [done|].
    intros ct Hct Hm. apply elem_of_cons in Hct as [->|Hct]; [congruence|].
    by apply Hall.
  - pose proof (os_Remove_only_unlinks (FQN ct0) (world s)) as [Hu Hl].
    pose proof (os_Remove_gone_or_refused (FQN ct0) (world s)) as Hg.
    destruct (os_Remove (FQN ct0) (world s)) as [w ok]. cbn [fst] in *.
    assert (Hrest : ∀ c1,
               (rmMisplacedEC E l c1 (set_world w s)).2 = false
               ∧ ∀ ct, ct ∈ ct0 :: l →
                       Stat_ok (Gen E (ct_bck ct) (ct_mi ct) (ct_objName ct) ECMetaCT
                                    EmptyString) (world s) = false →
                       files (world (rmMisplacedEC E l c1 (set_world w s)).1.2)
                         !! FQN ct = None
                       ∨ FQN ct ∈ undeletable (world s)).
    { intros c1. destruct (IH c1 (set_world w s) Hd) as [Hret Hall].
      split; [done|]. intros ct Hct Hm. apply elem_of_cons in Hct as [->|Hct].
      - destruct Hg as [Hgone|?]; [|by right]. left.
        by apply (rmMisplacedEC_only_unlinks l c1 (set_world w s)).
      - rewrite <- Hu. apply Hall; [done|]. apply Stat_ok_false.
        apply Stat_ok_false in Hm. by apply Hl. }
    destruct ok; [|apply Hrest].
    change (done (set_world w s)) with (done s). rewrite Hd. apply Hrest.
Qed.

Lemma step2_gate_closed (specifier : Z) (c : rmcnt) (s : state) :
  rmMisplaced (RebMarked E) (ResilverMarked E) (Args E) = false →
  Z.land specifier flagRmMisplacedLOMs ≠ 0 →
  step2 E specifier c s
  = (c, set_now (wall (world s)) (set_misplaced_loms [] s), false).
Proof.
  intros Hg Hbit. unfold step2. rewrite Hg, andb_false_r.
  by destruct (Z.eqb_spec (Z.land specifier flagRmMisplacedLOMs) 0).
Qed.

Lemma step2_gate_open (specifier : Z) (c : rmcnt) (s : state) :
  rmMisplaced (RebMarked E) (ResilverMarked E) (Args E) = true →
  Z.land specifier flagRmMisplacedLOMs ≠ 0 →
  done s = false →
  let s2 := (step2 E specifier c s).1.2 in
  (step2 E specifier c s).2 = false
  ∧ misplaced_loms s2 = []
  ∧ (DelExtraCopies_unlinks E →
     ∀ m, m ∈ misplaced_loms s →
          files (world s2) !! lom_FQN m = None
          ∨ lom_FQN m ∈ undeletable (world s)).
Proof.
  intros Hg Hbit Hd. unfold step2. rewrite Hg, andb_true_r.
  destruct (Z.eqb_spec (Z.land specifier flagRmMisplacedLOMs) 0); [done|].
  cbn [negb]. case_bool_decide as Hl; cbn [negb].
  - cbn. split; [done|]. split; [done|]. intros _ m Hm. rewrite Hl in Hm.
    by apply elem_of_nil in Hm.
  - destruct (rmMisplacedLOMs_complete (misplaced_loms s) c s Hd) as [Hret Hall].
    destruct (rmMisplacedLOMs E _ c s) as [[c2 s2] ret]. cbn [fst snd] in *.
    subst ret. cbn. done.
Qed.

Lemma step2_not_done (specifier : Z) (c : rmcnt) (s : state) :
  done s = false → (step2 E specifier c s).2 = false.
Proof.
  intros Hd. unfold step2. destruct (negb _); [|done].
  destruct (_ && _); [|done].
  destruct (rmMisplacedLOMs_complete (misplaced_loms s) c s Hd) as [Hret _].
  destruct (rmMisplacedLOMs E _ c s) as [[c2 s2] ret]. cbn [snd] in Hret.
  by subst ret.
Qed.

Lemma step3_not_done (specifier : Z) (c : rmcnt) (s : state) :
  Z.land specifier flagRmMisplacedEC ≠ 0 →
  done s = false →
  let s3 := (step3 E specifier c s).1.2 in
  (step3 E specifier c s).2 = false
  ∧ misplaced_ec s3 = []
  ∧ ∀ ct, ct ∈ misplaced_ec s →
          Stat_ok (Gen E (ct_bck ct) (ct_mi ct) (ct_objName ct) ECMetaCT
                       EmptyString) (world s) = false →
          files (world s3) !! FQN ct = None ∨ FQN ct ∈ undeletable (world s).
Proof.
  intros Hbit Hd. unfold step3.
  destruct (Z.eqb_spec (Z.land specifier flagRmMisplacedEC) 0); [done|].
  cbn [negb].
  destruct (rmMisplacedEC_complete (misplaced_ec s) c s Hd) as [Hret Hall].
  destruct (rmMisplacedEC E _ c s) as [[c3 s3] ret]. cbn [fst snd] in *.
  subst ret. cbn. done.
Qed.
End WithEnv.

(** *** Stray EC metafiles *)


(** *** The gate on misplaced objects, and what is behind it *)


(** *** The sample mountpath *)

(** The removal functions of the sample environment unlink the path in
    question, or nothing. *)
Lemma sampleEnv_removals (g l : Marked) (args : ArgsMsg) :
  removals_only_unlink (sampleEnv g l args)
  ∧ DelExtraCopies_unlinks (sampleEnv g l args).
Proof.
  split; [split; [|split]|].
  - intros w lom. apply os_Remove_only_unlinks.
  - intros w lom [f|]; [|apply only_unlinks_refl]. simpl.
    pose proof (os_Remove_only_unlinks f w) as H.
    by destruct (os_Remove f w) as [w' ok].
  - intros w lom. apply os_Remove_only_unlinks.
  - intros w lom f. simpl.
    pose proof (os_Remove_gone_or_refused f w) as H.
    by destruct (os_Remove f w) as [w' ok].
Qed.



End SpaceRemoval.

(** ** The out-of-space trigger *)

Module TgtSpaceSpec.
Import Int64 TgtSpace.
Local Open Scope Z_scope.

(** The traces of one trigger. *)
Lemma OOS_traces (E : Env) (csRefreshed : option CapStatus) (lastTrigOOS : Z) :
  let tr := (OOS E csRefreshed lastTrigOOS).1.2 in
  tr = []
  ∨ (∃ f, tr = [SetFlag f] ∧ RenewStoreCleanup_new E = false)
  ∨ (∃ f, tr = [SetFlag f; RunCleanup (RunCleanup_cs E)]
          ∧ (Err (RunCleanup_cs E) = None ∨ RenewLRU_new E = false))
  ∨ (∃ f, tr = [SetFlag f; RunCleanup (RunCleanup_cs E); RunLRU]
          ∧ Err (RunCleanup_cs E) ≠ None).
Proof.
  unfold OOS, oos_goroutine, runSpaceCleanup, runLRU.
  destruct csRefreshed as [cs|]; [|destruct (CapRefresh E) as [[cs [|]] errCap]];
    simpl; try (by left).
  - destruct (Err cs); [|by left].
    destruct (_ <? minAutoDetectInterval); [by left|].
    destruct (RenewStoreCleanup_new E); simpl; [|right; left; by eexists].
    destruct (Err (RunCleanup_cs E)) eqn:He; simpl.
    + destruct (RenewLRU_new E); simpl.
      * right; right; right. eexists. done.
      * right; right; left. eexists. split; [done|by right].
    + right; right; left. eexists. split; [done|by left].
  - destruct errCap; [|by left].
    destruct (_ <? minAutoDetectInterval); [by left|].
    destruct (RenewStoreCleanup_new E); simpl; [|right; left; by eexists].
    destruct (Err (RunCleanup_cs E)) eqn:He; simpl.
    + destruct (RenewLRU_new E); simpl.
      * right; right; right. eexists. done.
      * right; right; left. eexists. split; [done|by right].
    + right; right; left. eexists. split; [done|by left].
Qed.

(** A trigger that goes ahead: the capacity status it works with (the one
    handed in, or the one that [fs.CapRefresh] gave without error) carries
    a capacity error, and the previous trigger is at least
    [minAutoDetectInterval] back. *)
Definition triggered (E : Env) (csRefreshed : option CapStatus) (lastTrigOOS : Z)
           (cs : CapStatus) : Prop :=
  (match csRefreshed with
   | Some cs0 => cs0 = cs ∧ Err cs0 ≠ None
   | None => ∃ e, CapRefresh E = (cs, false, Some e)
   end)
  ∧ minAutoDetectInterval <= wrap64 (NanoTime E - lastTrigOOS).

(** C7: a trigger that goes ahead sets the node alert and then runs the
    cleanup first (when a cleanup xaction can be started); LRU eviction
    follows the cleanup exactly when the capacity status that the cleanup
    returned still reports a capacity error (and an LRU xaction can be
    started).  In the trace of any trigger, LRU is started only after the
    cleanup has run and only with a capacity error in the status it
    returned: when that status reports no error, or no cleanup was run by
    the trigger, LRU is not started. *)
Theorem OOS_cleanup_then_LRU
    (E : Env) (csRefreshed : option CapStatus) (lastTrigOOS : Z) :
  let tr := (OOS E csRefreshed lastTrigOOS).1.2 in
  (∀ cs, triggered E csRefreshed lastTrigOOS cs →
     let alert := SetFlag (if IsOOS cs then FlagOOS else FlagLowCapacity) in
     let cs2 := RunCleanup_cs E in
     (RenewStoreCleanup_new E = true →
      tr = alert :: RunCleanup cs2
             :: (if bool_decide (Err cs2 ≠ None) && RenewLRU_new E
                 then [RunLRU] else []))
     ∧ (RenewStoreCleanup_new E = false → tr = [alert]))
  ∧ (RunLRU ∈ tr →
     ∃ f cs2, tr = [SetFlag f; RunCleanup cs2; RunLRU]
              ∧ cs2 = RunCleanup_cs E ∧ Err cs2 ≠ None)
  ∧ (Err (RunCleanup_cs E) = None → RunLRU ∉ tr)
  ∧ (RenewStoreCleanup_new E = false → RunLRU ∉ tr).
Proof.
  cbv zeta. split.
  { intros cs [Hcs Hint].
    assert (Hlim : (wrap64 (NanoTime E - lastTrigOOS) <? minAutoDetectInterval)
                   = false) by (apply Z.ltb_ge; exact Hint).
    assert (Hgo : OOS E csRefreshed lastTrigOOS
                  = (cs, SetFlag (if IsOOS cs then FlagOOS else FlagLowCapacity)
                           :: (oos_goroutine E).1, (oos_goroutine E).2)).
    { unfold OOS. destruct csRefreshed as [cs0|].
      - destruct Hcs as [-> He]. destruct (Err cs) eqn:Hc; [|done].
        rewrite Hlim. by destruct (oos_goroutine E).
      - destruct Hcs as [e ->]. rewrite Hlim. by destruct (oos_goroutine E). }
    rewrite Hgo. cbn [fst snd]. unfold oos_goroutine, runSpaceCleanup, runLRU.
    split; intros Hr; rewrite Hr; cbn [negb].
    - destruct (Err (RunCleanup_cs E)) eqn:He.
      + rewrite bool_decide_eq_true_2 by done. by destruct (RenewLRU_new E).
      + by rewrite bool_decide_eq_false_2 by (intros H; by apply H).
    - reflexivity. }
  pose proof (OOS_traces E csRefreshed lastTrigOOS) as H. simpl in *.
  destruct H as [H|[[f [H Hn]]|[[f [H Hc]]|[f [H Hc]]]]]; rewrite H.
  - split; [intros Hin; by apply elem_of_nil in Hin|].
    split; intros _ Hin; by apply elem_of_nil in Hin.
  - split; [intros Hin; apply list_elem_of_singleton in Hin; done|].
    split; intros _ Hin; apply list_elem_of_singleton in Hin; done.
  - assert (Hnot : RunLRU ∉ [SetFlag f; RunCleanup (RunCleanup_cs E)]).
    { intros Hin. repeat (apply elem_of_cons in Hin as [Hin|Hin]; [done|]).
      by apply elem_of_nil in Hin. }
    split; [done|]. split; by intros _.
  - split; [intros _; by eexists _, _|].
    split; [done|]. intros Hn.
    (* the cleanup was run: the renewal gave a new xaction *)
    exfalso. revert H. unfold OOS, oos_goroutine, runSpaceCleanup. rewrite Hn.
    simpl. destruct csRefreshed as [cs|];
      [|destruct (CapRefresh E) as [[cs [|]] errCap]]; simpl; try done.
    + destruct (Err cs); [|done]. by destruct (_ <? minAutoDetectInterval).
    + destruct errCap; [|done]. by destruct (_ <? minAutoDetectInterval).
Qed.

(** A trigger at 85% used with the high watermark at 80%, ten minutes and
    more after the previous one: the cleanup leaves usage at 82%, and the
    trace is the alert, the cleanup, LRU. *)
Definition envStillFull : Env :=
  mkEnv (mkCapStatus 85 80 95, false, Some (ErrCapExceeded (mkCapStatus 85 80 95)))
        700000000000 800000000000 true (mkCapStatus 82 80 95) true.

Lemma OOS_cleanup_then_LRU_witness :
  triggered envStillFull None 0 (mkCapStatus 85 80 95)
  ∧ (OOS envStillFull None 0).1.2
    = [SetFlag FlagLowCapacity; RunCleanup (mkCapStatus 82 80 95); RunLRU].
Proof.
  assert (Ht : triggered envStillFull None 0 (mkCapStatus 85 80 95)).
  { split; [by eexists|]. vm_compute. discriminate. }
  split; [exact Ht|].
  apply (proj1 (proj1 (OOS_cleanup_then_LRU envStillFull None 0)
                  (mkCapStatus 85 80 95) Ht)).
  reflexivity.
Defined.

(** A trigger at 85% used with the high watermark at 80%: the cleanup
    brings usage down to 70% and LRU is not started; it leaves usage at
    82% and LRU runs after it. *)
Example OOS_sample_traces :
  (OOS (mkEnv (mkCapStatus 85 80 95, false, Some (ErrCapExceeded (mkCapStatus 85 80 95)))
              700000000000 800000000000 true (mkCapStatus 70 80 95) true)
       None 0).1.2
  = [SetFlag FlagLowCapacity; RunCleanup (mkCapStatus 70 80 95)]
  ∧ (OOS (mkEnv (mkCapStatus 85 80 95, false, Some (ErrCapExceeded (mkCapStatus 85 80 95)))
                700000000000 800000000000 true (mkCapStatus 82 80 95) true)
         None 0).1.2
    = [SetFlag FlagLowCapacity; RunCleanup (mkCapStatus 82 80 95); RunLRU].
Proof. split; reflexivity. Qed.
End TgtSpaceSpec.

(** ** The shared data mover *)

Module SDMSpec.
Import Transport SDM.

(** Every entry is registered under the id of its receiver. *)
Definition keyed_by_id (sdm : sharedDM) : Prop :=
  ∀ xid en, receivers sdm !! xid = Some en → ID (rx en) = xid.

Lemma keyed_empty (b : bool) : keyed_by_id (mkSDM ∅ b).
Proof. intros xid en H. simpl in H. by rewrite lookup_empty in H. Qed.

Lemma keyed_RegRecv (r : Receiver) (sdm : sharedDM) :
  keyed_by_id sdm → keyed_by_id (RegRecv r sdm).
Proof.
  intros Hk xid en. unfold RegRecv. destruct (isOpen sdm); [|apply Hk]. simpl.
  destruct (decide (ID r = xid)) as [<-|Hne].
  - rewrite lookup_insert_eq. by intros [= <-].
  - rewrite lookup_insert_ne by done. apply Hk.
Qed.

Lemma keyed_UseRecv (r : Receiver) (sdm : sharedDM) :
  keyed_by_id sdm → keyed_by_id (UseRecv r sdm).
Proof.
  intros Hk. unfold UseRecv. destruct (receivers sdm !! ID r); [done|].
  by apply keyed_RegRecv.
Qed.

Lemma keyed_UnregRecv (xid : string) (sdm : sharedDM) :
  keyed_by_id sdm → keyed_by_id (UnregRecv xid sdm).
Proof.
  intros Hk x en. unfold UnregRecv. simpl. intros H.
  apply lookup_delete_Some in H as [_ H]. by apply Hk.
Qed.

Lemma keyed_housekeep (sdm : sharedDM) :
  keyed_by_id sdm → keyed_by_id (housekeep sdm).
Proof.
  intros Hk x en. unfold housekeep. destruct (negb (isOpen sdm)); [apply Hk|].
  simpl. rewrite lookup_fmap. destruct (receivers sdm !! x) as [en0|] eqn:E; [|done].
  simpl. intros [= <-]. simpl. by apply Hk.
Qed.

Lemma RegRecv_lookup (r : Receiver) (sdm : sharedDM) :
  isOpen sdm = true → receivers (RegRecv r sdm) !! ID r = Some (mkRxent r 0).
Proof. intros Ho. unfold RegRecv. rewrite Ho. simpl. apply lookup_insert_eq. Qed.

(** No [RecvObj] invocation was made. *)
Ltac no_call := intros c Hc; by apply elem_of_nil in Hc.

(** [recv] returned an error before it got to a receiver. *)
Ltac refused :=
  split; [no_call|]; split; [simpl; lia|];
  split; [intros _; split; [by eexists|done]|];
  intros; congruence.

(** C8: [recv] invokes [RecvObj] at most once, and only on the receiver
    registered under the UUID of the frame's [Demux] header, with the
    frame's header and payload; a frame whose [Demux] is not a valid UUID
    or has no receiver registered under it makes [recv] return an error
    without any [RecvObj] invocation; a frame that arrives without a
    transport error, with a valid [Demux] under which a receiver is
    registered, is delivered to exactly that receiver. *)
Theorem recv_demux (CheckValidUUID : string → bool) (sdm : sharedDM)
        (hdr : ObjHdr) (r : list Z) (err : option string) :
  let '(res, calls, sdm') := recv CheckValidUUID sdm hdr r err in
  (∀ c, c ∈ calls →
        ∃ en, receivers sdm !! Demux hdr = Some en
              ∧ ID (rx en) = Demux hdr ∧ c = (rx en, hdr, r))
  ∧ (length calls ≤ 1)%nat
  ∧ (CheckValidUUID (Demux hdr) = false ∨ receivers sdm !! Demux hdr = None →
     is_Some res ∧ calls = [])
  ∧ (keyed_by_id sdm → err = None → CheckValidUUID (Demux hdr) = true →
     ∀ en, receivers sdm !! Demux hdr = Some en → calls = [(rx en, hdr, r)]).
Proof.
  unfold recv. destruct err as [e|]; [refused|].
  destruct (CheckValidUUID (Demux hdr)) eqn:Hv; simpl; [|refused].
  destruct (receivers sdm !! Demux hdr) as [en|] eqn:Hl; [|refused].
  destruct (String.eqb_spec (ID (rx en)) (Demux hdr)) as [Heq|Hne]; simpl.
  2:{ split; [no_call|]. split; [simpl; lia|].
      split; [intros [[=]|[=]]|]. intros Hk _ _ en' [= <-].
      by specialize (Hk _ _ Hl). }
  destruct (RecvObj (rx en) hdr r) as [e|].
  - split; [intros c Hc; apply list_elem_of_singleton in Hc; eauto|].
    split; [simpl; lia|]. split; [intros [[=]|[=]]|].
    by intros _ _ _ en' [= <-].
  - split; [intros c Hc; apply list_elem_of_singleton in Hc; eauto|].
    split; [simpl; lia|]. split; [intros [[=]|[=]]|].
    by intros _ _ _ en' [= <-].
Qed.

(** Two xactions registered with an open data mover: a frame for the
    second is handed to the second only; a frame with an unknown UUID and
    a frame with an invalid one are refused with no delivery. *)
Definition rxA : Receiver := mkReceiver "xid-A" (λ _ _, None).
Definition rxB : Receiver := mkReceiver "xid-B" (λ _ _, None).
Definition sdm2 : sharedDM := RegRecv rxB (RegRecv rxA (Open true (mkSDM ∅ false)).1).
Definition frame (xid : string) : ObjHdr := mkHdr "t2" xid "obj" 0 [].
Definition validUUID (xid : string) : bool := (3 <=? String.length xid)%nat.

Example recv_sample :
  (recv validUUID sdm2 (frame "xid-B") [1; 2] None).1
  = (None, [(rxB, frame "xid-B", [1; 2])])
  ∧ (recv validUUID sdm2 (frame "xid-C") [1; 2] None).1
    = (Some (ErrNotFound "xid-C" "obj"), [])
  ∧ (recv validUUID sdm2 (frame "x") [1; 2] None).1
    = (Some (ErrInvalidUUID "x"), []).
Proof. repeat split; vm_compute; reflexivity. Qed.

Lemma keyed_sdm2 : keyed_by_id sdm2.
Proof. apply keyed_RegRecv, keyed_RegRecv. apply keyed_empty. Qed.
End SDMSpec.


(** ** The out-of-space trigger: what starts it and how often *)

Module TgtSpaceExtra.
Import Int64 TgtSpace.
Local Open Scope Z_scope.

Lemma wrap64_small (z : Z) : min_int <= z <= max_int → wrap64 z = z.
Proof.
  unfold min_int, max_int, wrap64. intros H. rewrite Z.mod_small; lia.
Qed.

(** X18: the trigger is rate-limited.  A trigger that did anything (set
    the node alert) leaves in [lastTrigOOS] the time at which its cleanup
    returned, whether or not a cleanup xaction could be started; a trigger
    that did nothing leaves [lastTrigOOS] as it was.  Any trigger that
    comes less than [minAutoDetectInterval] (ten minutes) after the
    recorded time does nothing: no alert, no cleanup, no LRU, and
    [lastTrigOOS] stays. *)
Theorem OOS_rate_limited
    (E : Env) (csRefreshed : option CapStatus) (lastTrigOOS : Z) :
  let '(_, evs, last1) := OOS E csRefreshed lastTrigOOS in
  (evs ≠ [] →
   last1 = NanoTime_after_cleanup E ∧ (∃ f, head evs = Some (SetFlag f)))
  ∧ (evs = [] → last1 = lastTrigOOS)
  ∧ ∀ (E2 : Env) (cs2 : option CapStatus),
      0 <= NanoTime E2 - last1 < minAutoDetectInterval →
      (OOS E2 cs2 last1).1.2 = [] ∧ (OOS E2 cs2 last1).2 = last1.
Proof.
  assert (Hlim : ∀ (E2 : Env) (cs2 : option CapStatus) (l : Z),
             0 <= NanoTime E2 - l < minAutoDetectInterval →
             (OOS E2 cs2 l).1.2 = [] ∧ (OOS E2 cs2 l).2 = l).
  { intros E2 cs2 l Hd. unfold OOS.
    assert (Hw : (wrap64 (NanoTime E2 - l) <? minAutoDetectInterval) = true).
    { rewrite wrap64_small.
      - apply Z.ltb_lt. lia.
      - unfold minAutoDetectInterval, min_int, max_int in *. lia. }
    destruct cs2 as [cs|]; [|destruct (CapRefresh E2) as [[cs [|]] errCap]];
      simpl; try done.
    - destruct (Err cs); [|done]. by rewrite Hw.
    - destruct errCap; [|done]. by rewrite Hw. }
  unfold OOS, oos_goroutine, runSpaceCleanup, runLRU.
  destruct csRefreshed as [cs|]; [|destruct (CapRefresh E) as [[cs [|]] errCap]];
    simpl; try (split; [done|split; [done|intros E2 cs2; apply Hlim]]).
  - destruct (Err cs); [|split; [done|split; [done|intros E2 cs2; apply Hlim]]].
    destruct (_ <? minAutoDetectInterval);
      [split; [done|split; [done|intros E2 cs2; apply Hlim]]|].
    destruct (negb (RenewStoreCleanup_new E)); simpl.
    + destruct (Err CapStatus0); simpl;
        (split; [intros _; split; [done|by eexists]|split; [done|intros E2 cs2; apply Hlim]]).
    + destruct (Err (RunCleanup_cs E)); simpl;
        (split; [intros _; split; [done|by eexists]|split; [done|intros E2 cs2; apply Hlim]]).
  - destruct errCap; [|split; [done|split; [done|intros E2 cs2; apply Hlim]]].
    destruct (_ <? minAutoDetectInterval);
      [split; [done|split; [done|intros E2 cs2; apply Hlim]]|].
    destruct (negb (RenewStoreCleanup_new E)); simpl.
    + destruct (Err CapStatus0); simpl;
        (split; [intros _; split; [done|by eexists]|split; [done|intros E2 cs2; apply Hlim]]).
    + destruct (Err (RunCleanup_cs E)); simpl;
        (split; [intros _; split; [done|by eexists]|split; [done|intros E2 cs2; apply Hlim]]).
Qed.

End TgtSpaceExtra.

(** ** The shared data mover: registration, idle ticks, closing *)

Module SDMExtra.
Import Int64 Transport SDM SDMSpec.
Local Open Scope Z_scope.

(** The calls that reach the shared data mover, in any order. *)
Inductive op : Type :=
| OpOpen (regOk : bool)
| OpClose
| OpRegRecv (r : Receiver)
| OpUseRecv (r : Receiver)
| OpUnregRecv (xid : string)
| OpHousekeep
| OpRecv (hdr : ObjHdr) (payload : list Z) (err : option string).

Definition step (V : string → bool) (sdm : sharedDM) (o : op) : sharedDM :=
  match o with
  | OpOpen regOk => (Open regOk sdm).1
  | OpClose => (Close sdm).1
  | OpRegRecv r => RegRecv r sdm
  | OpUseRecv r => UseRecv r sdm
  | OpUnregRecv xid => UnregRecv xid sdm
  | OpHousekeep => housekeep sdm
  | OpRecv hdr payload err => (recv V sdm hdr payload err).2
  end.

Definition run (V : string → bool) (ops : list op) (sdm : sharedDM) : sharedDM :=
  fold_left (step V) ops sdm.

(** The data mover before [InitSDM] and the first [Open]. *)
Definition closed0 : sharedDM := mkSDM ∅ false.

Lemma keyed_Open (regOk : bool) (sdm : sharedDM) :
  keyed_by_id sdm → keyed_by_id (Open regOk sdm).1.
Proof.
  intros Hk. unfold Open. destruct (isOpen sdm); [done|].
  destruct regOk; apply keyed_empty.
Qed.

Lemma keyed_Close (sdm : sharedDM) :
  keyed_by_id sdm → keyed_by_id (Close sdm).1.
Proof.
  intros Hk. unfold Close. destruct (getActive sdm); [done|apply keyed_empty].
Qed.

Lemma keyed_recv (V : string → bool) (sdm : sharedDM)
      (hdr : ObjHdr) (p : list Z) (err : option string) :
  keyed_by_id sdm → keyed_by_id (recv V sdm hdr p err).2.
Proof.
  intros Hk. unfold recv. destruct err; [done|].
  destruct (negb (V (Demux hdr))); [done|].
  destruct (receivers sdm !! Demux hdr) as [en|] eqn:Hl; [|done].
  destruct (negb _); [done|]. destruct (RecvObj _ _ _); [done|].
  intros xid en'. simpl. destruct (decide (xid = Demux hdr)) as [->|Hne].
  - rewrite lookup_alter_eq, Hl. simpl. intros [= <-]. simpl. by apply Hk.
  - rewrite lookup_alter_ne by done. apply Hk.
Qed.

Lemma keyed_step (V : string → bool) (sdm : sharedDM) (o : op) :
  keyed_by_id sdm → keyed_by_id (step V sdm o).
Proof.
  destruct o; simpl;
    eauto using keyed_Open, keyed_Close, keyed_RegRecv, keyed_UseRecv,
                keyed_UnregRecv, keyed_housekeep, keyed_recv.
Qed.

Lemma keyed_run (V : string → bool) (ops : list op) (sdm : sharedDM) :
  keyed_by_id sdm → keyed_by_id (run V ops sdm).
Proof.
  revert sdm. induction ops as [|o ops IH]; intros sdm Hk; [done|].
  apply IH. by apply keyed_step.
Qed.

(** X19: whatever sequence of [Open], [Close], [RegRecv], [UseRecv],
    [UnregRecv], [housekeep] and [recv] calls the shared data mover has
    gone through since start, every entry of the demux table is stored
    under the id of its receiver, and [recv] never returns the xid
    mismatch error (the branch that the source marks unlikely is never
    taken). *)
Theorem recv_never_mismatch (V : string → bool) (ops : list op)
        (hdr : ObjHdr) (p : list Z) (err : option string) :
  (∀ xid en, receivers (run V ops closed0) !! xid = Some en → ID (rx en) = xid)
  ∧ ∀ xid id,
      (recv V (run V ops closed0) hdr p err).1.1 ≠ Some (ErrMismatch xid id).
Proof.
  assert (Hk : keyed_by_id (run V ops closed0)) by apply keyed_run, keyed_empty.
  split; [exact Hk|]. intros xid id. unfold recv. destruct err; [done|].
  destruct (negb (V (Demux hdr))); [done|].
  destruct (receivers _ !! Demux hdr) as [en|] eqn:Hl; [|done].
  rewrite (Hk _ _ Hl), String.eqb_refl. simpl.
  by destruct (RecvObj _ _ _).
Qed.

(** *** Registration *)

(** X20: register, receive, unregister.  With the data mover open, a
    receiver registered by [RegRecv] gets the next frame whose [Demux] is
    its id (whatever was registered under that id before), and the result
    of [recv] is the result of its [RecvObj]; after [UnregRecv] of that id
    the same frame is refused as not found, with no [RecvObj] call. *)
Theorem RegRecv_recv_UnregRecv (V : string → bool) (sdm : sharedDM)
        (r : Receiver) (hdr : ObjHdr) (p : list Z) :
  isOpen sdm = true →
  Demux hdr = ID r →
  V (ID r) = true →
  (recv V (RegRecv r sdm) hdr p None).1
  = (match RecvObj r hdr p with Some e => Some (ErrRecvObj e) | None => None end,
     [(r, hdr, p)])
  ∧ (recv V (UnregRecv (ID r) (RegRecv r sdm)) hdr p None).1
    = (Some (ErrNotFound (ID r) (ObjName hdr)), []).
Proof.
  intros Ho Hd HV. split.
  - unfold recv. rewrite Hd, HV. simpl. rewrite (RegRecv_lookup _ _ Ho). simpl.
    rewrite String.eqb_refl. simpl. by destruct (RecvObj r hdr p).
  - unfold recv, UnregRecv. rewrite Hd, HV. simpl.
    by rewrite lookup_delete_eq.
Qed.

Lemma RegRecv_recv_UnregRecv_witness :
  (recv validUUID (RegRecv rxA sdm2) (frame "xid-A") [7] None).1
  = (match RecvObj rxA (frame "xid-A") [7] with
     | Some e => Some (ErrRecvObj e)
     | None => None
     end, [(rxA, frame "xid-A", [7])])
  ∧ (recv validUUID (UnregRecv (ID rxA) (RegRecv rxA sdm2)) (frame "xid-A") [7] None).1
    = (Some (ErrNotFound (ID rxA) (ObjName (frame "xid-A"))), []).
Proof.
  apply (RegRecv_recv_UnregRecv validUUID sdm2 rxA (frame "xid-A") [7]);
    reflexivity.
Defined.

(** X21: [UseRecv] never replaces: when a receiver is already registered
    under the id, it stays, and the frames of that id keep going to it;
    [RegRecv] with the same id replaces it. *)
Theorem UseRecv_keeps_RegRecv_replaces (sdm : sharedDM) (r1 r2 : Receiver) :
  ID r1 = ID r2 →
  isOpen sdm = true →
  rx <$> receivers (UseRecv r2 (RegRecv r1 sdm)) !! ID r2 = Some r1
  ∧ rx <$> receivers (RegRecv r2 (RegRecv r1 sdm)) !! ID r2 = Some r2.
Proof.
  intros Hid Ho. split.
  - unfold UseRecv. rewrite <- Hid, (RegRecv_lookup _ _ Ho).
    by rewrite (RegRecv_lookup _ _ Ho).
  - assert (Ho' : isOpen (RegRecv r1 sdm) = true).
    { unfold RegRecv. by rewrite Ho. }
    by rewrite (RegRecv_lookup _ _ Ho').
Qed.

Lemma UseRecv_keeps_RegRecv_replaces_witness :
  rx <$> receivers (UseRecv (mkReceiver "xid-A" (λ _ _, Some "busy")) (RegRecv rxA sdm2))
         !! ID (mkReceiver "xid-A" (λ _ _, Some "busy")) = Some rxA
  ∧ rx <$> receivers (RegRecv (mkReceiver "xid-A" (λ _ _, Some "busy")) (RegRecv rxA sdm2))
           !! ID (mkReceiver "xid-A" (λ _ _, Some "busy"))
    = Some (mkReceiver "xid-A" (λ _ _, Some "busy")).
Proof.
  apply (UseRecv_keeps_RegRecv_replaces sdm2 rxA
           (mkReceiver "xid-A" (λ _ _, Some "busy"))); reflexivity.
Defined.

(** *** Idle ticks and closing *)

Definition aged (en : rxent) : Prop := oldAgeTickCount ≤ ticks en.

Lemma getActive_None (sdm : sharedDM) :
  getActive sdm = None ↔ ∀ xid en, receivers sdm !! xid = Some en → aged en.
Proof.
  unfold getActive, aged. split.
  - intros H xid en Hl.
    destruct (List.find _ _) as [kv|] eqn:Hf; [done|].
    apply elem_of_map_to_list, list_elem_of_In in Hl.
    pose proof (List.find_none _ _ Hf _ Hl) as Hn. simpl in Hn. lia.
  - intros H. destruct (List.find _ _) as [[xid en]|] eqn:Hf; [|done].
    apply List.find_some in Hf as [Hin Hlt]. simpl in Hlt.
    apply list_elem_of_In, elem_of_map_to_list in Hin.
    specialize (H _ _ Hin). lia.
Qed.

Lemma Close_aged_aux (sdm : sharedDM) :
  (Close sdm).2 = true
  ↔ ∀ xid en, receivers sdm !! xid = Some en → oldAgeTickCount ≤ ticks en.
Proof.
  pose proof (getActive_None sdm) as Hg. unfold Close, aged in *.
  destruct (getActive sdm) as [xid|]; simpl.
  - split; [done|]. intros H. by apply Hg in H.
  - split; [|done]. intros _. by apply Hg.
Qed.




Lemma housekeep_iter_ticks (k : nat) (sdm : sharedDM) (xid : string) (en : rxent) :
  isOpen sdm = true →
  receivers sdm !! xid = Some en →
  0 ≤ ticks en → ticks en + Z.of_nat k < 2 ^ 31 →
  isOpen (Nat.iter k housekeep sdm) = true
  ∧ receivers (Nat.iter k housekeep sdm) !! xid
    = Some (mkRxent (rx en) (ticks en + Z.of_nat k)).
Proof.
  intros Ho Hl H0. induction k as [|k IH]; intros Hmax.
  - simpl. split; [done|]. rewrite Hl. destruct en. simpl. do 2 f_equal. lia.
  - destruct IH as [IHo IHl]; [lia|]. simpl.
    unfold housekeep at 1 3. rewrite IHo. simpl. split; [done|].
    rewrite lookup_fmap, IHl. simpl. do 2 f_equal.
    unfold wrap32. rewrite Z.mod_small by lia. lia.
Qed.

Lemma housekeep_iter_None (k : nat) (sdm : sharedDM) (xid : string) :
  receivers sdm !! xid = None →
  receivers (Nat.iter k housekeep sdm) !! xid = None.
Proof.
  intros Hl. induction k as [|k IH]; [done|]. simpl.
  unfold housekeep at 1. destruct (negb _); [done|]. simpl.
  by rewrite lookup_fmap, IH.
Qed.



(** X25: once [Close] has gone through, the data mover takes no
    registration: [RegRecv] and [UseRecv] leave it as it is, and every
    frame is refused with no [RecvObj] call, until the next [Open]. *)
Theorem closed_takes_no_registration (V : string → bool) (sdm sdm' : sharedDM)
        (r : Receiver) (hdr : ObjHdr) (p : list Z) (err : option string) :
  Close sdm = (sdm', true) →
  RegRecv r sdm' = sdm'
  ∧ UseRecv r sdm' = sdm'
  ∧ ∃ e, (recv V (UseRecv r (RegRecv r sdm')) hdr p err).1 = (Some e, []).
Proof.
  unfold Close. destruct (getActive sdm); [done|]. intros [= <-].
  split; [done|]. split; [done|].
  unfold recv. simpl. destruct err; [by eexists|].
  destruct (negb (V (Demux hdr))); [by eexists|].
  change (receivers (UseRecv r (RegRecv r (mkSDM ∅ false)))) with (∅ : gmap string rxent).
  rewrite lookup_empty. by eexists.
Qed.

Lemma closed_takes_no_registration_witness :
  RegRecv rxA (mkSDM ∅ false) = mkSDM ∅ false
  ∧ UseRecv rxA (mkSDM ∅ false) = mkSDM ∅ false
  ∧ ∃ e, (recv validUUID (UseRecv rxA (RegRecv rxA (mkSDM ∅ false)))
               (frame "xid-A") [1] None).1 = (Some e, []).
Proof.
  apply (closed_takes_no_registration validUUID
           (Nat.iter 5 housekeep sdm2) (mkSDM ∅ false) rxA (frame "xid-A") [1] None).
  vm_compute. reflexivity.
Defined.
End SDMExtra.

(** ** The data mover: renewal, registration, quiescence, closing *)

Module DMExtra.
Import Int64 Transport DM.
Local Open Scope Z_scope.

(** The names that a call registered with [transport.Handle], the names
    it passed to [transport.Unhandle], and those of them that
    [transport.Unhandle] did unregister (it returned [nil]). *)
Definition handled (evs : list event) : list string :=
  omap (λ e, match e with Handle name true => Some name | _ => None end) evs.

Definition unhandle_calls (evs : list event) : list string :=
  omap (λ e, match e with Unhandle name _ => Some name | _ => None end) evs.

Definition unhandled (evs : list event) : list string :=
  omap (λ e, match e with Unhandle name true => Some name | _ => None end) evs.

(** [dm.xctn != nil && dm.xctn.IsAborted()]. *)
Definition aborted (dm : DM) : bool :=
  match xctn dm with
  | Some x => Xact.IsAborted (x_base x)
  | None => false
  end.

Section WithConsts.
Context (K : Consts).

(** X26: renewal compares what [init] stored.  For a data mover set up by
    [init] with [extra], [Renew] with [extra'] returns [nil] exactly when
    multiplier, PDU size, maximum header size and compression agree, an
    empty compression counting as [apc.CompressNever]; so it returns
    [nil] for [extra] itself.  The configuration is refreshed in either
    case, the stage (registered, open) is left alone, and a data mover
    that [Renew] returns is new: neither registered nor open, and in no
    need of renewal for [extra']. *)
Theorem Renew_after_init (tr : string) (cb : option RecvObj) (owt_ : Z)
        (extra extra' : Extra) (dm0 : DM) :
  let dm := init K tr cb owt_ extra dm0 in
  ((Renew K tr cb owt_ extra' dm).2 = None
   ↔ Multiplier extra' = Multiplier extra
     ∧ compression_of K extra' = compression_of K extra
     ∧ SizePDU extra' = SizePDU extra
     ∧ MaxHdrSize extra' = MaxHdrSize extra)
  ∧ (Renew K tr cb owt_ extra dm).2 = None
  ∧ config (Renew K tr cb owt_ extra' dm).1 = Config extra'
  ∧ stage (Renew K tr cb owt_ extra' dm).1 = stage dm0
  ∧ ∀ dm', (Renew K tr cb owt_ extra' dm).2 = Some dm' →
           IsFree dm' = true ∧ opened (stage dm') = false
           ∧ (Renew K tr cb owt_ extra' dm').2 = None.
Proof.
  assert (Hsame : ∀ e d, (Renew K tr cb owt_ e (init K tr cb owt_ e d)).2 = None).
  { intros e d. unfold Renew, init. cbn [set_config multiplier compression sizePDU maxHdrSize].
    by rewrite !Z.eqb_refl, String.eqb_refl. }
  cbv zeta. split; [|split; [apply Hsame|split; [|split]]].
  - unfold Renew, init.
    cbn [set_config multiplier compression sizePDU maxHdrSize].
    destruct (Z.eqb_spec (Multiplier extra) (Multiplier extra')) as [Hm|Hm];
      destruct (String.eqb_spec (compression_of K extra) (compression_of K extra'))
        as [Hc|Hc];
      destruct (Z.eqb_spec (SizePDU extra) (SizePDU extra')) as [Hp|Hp];
      destruct (Z.eqb_spec (MaxHdrSize extra) (MaxHdrSize extra')) as [Hh|Hh];
      simpl; split; try done; try (intros (? & ? & ? & ?); congruence).
  - unfold Renew. by destruct (_ && _).
  - unfold Renew. by destruct (_ && _).
  - intros dm'. unfold Renew at 1. destruct (_ && _); [done|].
    intros [= <-]. split; [done|]. split; [done|]. apply Hsame.
Qed.
End WithConsts.

(** X27: registration is all or nothing as far as [transport.Unhandle]
    succeeds, and undone by [UnregRecv].  When [RegRecv] returns an error,
    the data mover is as before, and a handler that the call registered is
    passed to [transport.Unhandle] by the call: this is the data handler,
    when the ACK handler could not be registered; it is unregistered when
    that [Unhandle] returns [nil], and stays registered when it fails (the
    case that the source logs as fatal).  When [RegRecv] returns [nil], the
    data mover was free and no longer is, the data handler and (with ACKs
    in use) the ACK handler are registered, nothing was unregistered, and
    a second [RegRecv] is refused as duplicated; [UnregRecv] then passes
    exactly these handlers to [transport.Unhandle], which unregisters
    those for which it returns [nil], frees the data mover in either case,
    and a second [UnregRecv] does nothing. *)
Theorem RegRecv_all_or_nothing (handle unhandle : string → bool) (dm : DM) :
  let '(dm1, err, evs) := RegRecv handle unhandle dm in
  match err with
  | Some e =>
      dm1 = dm
      ∧ unhandle_calls evs = handled evs
      ∧ unhandled evs = List.filter unhandle (handled evs)
      ∧ (handled evs ≠ [] →
         handled evs = [trname (data dm)] ∧ e = ErrHandle (trname (ack dm)))
  | None =>
      IsFree dm = true ∧ IsFree dm1 = false
      ∧ handled evs
        = trname (data dm) :: (if useACKs dm then [trname (ack dm)] else [])
      ∧ unhandle_calls evs = []
      ∧ (RegRecv handle unhandle dm1).1 = (dm1, Some ErrDuplicatedReg)
      ∧ ∀ (q : Z) (rx : bool) (u : string → bool),
          let '(dm2, evs2) := UnregRecv q rx u dm1 in
          IsFree dm2 = true
          ∧ unhandle_calls evs2 = handled evs
          ∧ unhandled evs2 = List.filter u (handled evs)
          ∧ UnregRecv q rx u dm2 = (dm2, [])
  end.
Proof.
  unfold RegRecv, IsFree. destruct (regged (stage dm)) eqn:Hr; [done|].
  destruct (handle (trname (data dm))) eqn:Hd; simpl; [|done].
  destruct (useACKs dm) eqn:Ha.
  - destruct (handle (trname (ack dm))) eqn:Hk; simpl.
    + do 5 (split; [done|]).
      intros q rx u. unfold UnregRecv at 1. simpl.
      destruct (xctn dm); simpl; unfold useACKs in *; simpl in *; rewrite Ha;
        simpl; (split; [done|]); (split; [done|]);
        (split; [by destruct (u (trname (data dm))), (u (trname (ack dm)))|]);
        reflexivity.
    + split; [done|]. split; [done|].
      split; [by destruct (unhandle (trname (data dm)))|]. done.
  - do 5 (split; [done|]).
    intros q rx u. unfold UnregRecv at 1. simpl.
    destruct (xctn dm); simpl; unfold useACKs in *; simpl in *; rewrite Ha;
      simpl; (split; [done|]); (split; [done|]);
      (split; [by destruct (u (trname (data dm)))|]); reflexivity.
Qed.

Lemma quicb_eq (dm : DM) :
  quicb dm = if aborted dm then (QuiInactiveCB, dm)
             else if laterx (stage dm) then (QuiActive, set_laterx false dm)
                  else (QuiInactiveCB, dm).
Proof. reflexivity. Qed.

(** X28: a reception is reported to quiescence once.  After a frame went
    through [wrapRecvData] of a data mover other than the shared one,
    whose xaction is not aborted, the next [quicb] returns [QuiActive] and
    the one after it [QuiInactiveCB]; the frame's error is that of the
    receive callback.  The shared data mover hands the frame to its
    callback and records nothing; and with the xaction aborted [quicb]
    returns [QuiInactiveCB] whatever was received. *)
Theorem rx_active_once (bckName : string) (size : Z) (hdr : ObjHdr)
        (reader : list Z) (err : option string) (dm dm1 : DM) (e : option string) :
  wrapRecvData bckName size hdr reader err dm = Some (dm1, e) →
  (∃ cb, recv (data dm) = Some cb ∧ e = cb hdr reader err)
  ∧ (trname (data dm) = SDMName → dm1 = dm)
  ∧ (aborted dm1 = true → quicb dm1 = (QuiInactiveCB, dm1))
  ∧ (trname (data dm) ≠ SDMName → aborted dm1 = false →
     (quicb dm1).1 = QuiActive
     ∧ (quicb (quicb dm1).2).1 = QuiInactiveCB).
Proof.
  unfold wrapRecvData. destruct (recv (data dm)) as [cb|] eqn:Hcb; [|done].
  destruct (String.eqb_spec (trname (data dm)) SDMName) as [Hn|Hn].
  - intros [= <- <-]. split; [by eexists|]. split; [done|].
    split; [|done]. intros Ha. by rewrite quicb_eq, Ha.
  - intros H.
    assert (Hl : laterx (stage dm1) = true ∧ e = cb hdr reader err).
    { destruct (xctn dm); [by injection H as <- <-|].
      destruct (_ && _); [done|]. by injection H as <- <-. }
    destruct Hl as [Hl ->]. split; [by eexists|]. split; [done|]. split.
    + intros Ha. by rewrite quicb_eq, Ha.
    + intros _ Ha. rewrite quicb_eq, Ha, Hl. split; [done|].
      cbn [snd]. rewrite quicb_eq.
      change (aborted (set_laterx false dm1)) with (aborted dm1).
      by rewrite Ha.
Qed.

(** X29: [Close] closes the streams once.  On a data mover that is not
    open it does nothing.  On an open one it closes the data streams and,
    with ACKs in use, the ACK streams, both gracefully exactly when no
    error was passed and the xaction (if any) is not aborted, and leaves
    the data mover not open: a second [Close], with whatever error, does
    nothing. *)
Theorem Close_once (err err2 : option string) (dm : DM) :
  let '(dm1, evs) := Close err dm in
  Close err2 dm1 = (dm1, [])
  ∧ opened (stage dm1) = false
  ∧ (opened (stage dm) = false → dm1 = dm ∧ evs = [])
  ∧ (opened (stage dm) = true →
     evs = StreamsClose (trname (data dm))
                        (bool_decide (err = None) && negb (aborted dm))
             :: (if useACKs dm
                 then [StreamsClose (trname (ack dm))
                                    (bool_decide (err = None) && negb (aborted dm))]
                 else []))
  ∧ (opened (stage (Open dm)) = true ∧ (Close err (Open dm)).2 ≠ []).
Proof.
  unfold Close. destruct (opened (stage dm)) eqn:Ho; simpl.
  - repeat split; try done.
  - rewrite Ho. repeat split; try done.
Qed.

(** *** Samples *)

Definition K0 : Consts := mkConsts "never" "data" "control".

(** A data mover for the transport name [tcb], with ACKs, driven by a
    running xaction. *)
Definition dmTcb : DM :=
  set_xctn (Some (mkXact Xact.running 0 0))
    (NewDM K0 "tcb" (Some (λ _ _ e, e)) 1
       (mkExtra (Some (λ _ _ e, e)) 7 EmptyString 1 0 0)).

Lemma rx_active_once_witness :
  (∃ cb, recv (data dmTcb) = Some cb
         ∧ None = cb (mkHdr "t2" EmptyString "o1" 0 []) [1; 2] None)
  ∧ (trname (data dmTcb) = SDMName →
     set_laterx true
       (set_xctn (Some (InObjsAdd 1 2 (mkXact Xact.running 0 0))) dmTcb) = dmTcb)
  ∧ (aborted (set_laterx true
                (set_xctn (Some (InObjsAdd 1 2 (mkXact Xact.running 0 0))) dmTcb))
     = true →
     quicb (set_laterx true
              (set_xctn (Some (InObjsAdd 1 2 (mkXact Xact.running 0 0))) dmTcb))
     = (QuiInactiveCB,
        set_laterx true
          (set_xctn (Some (InObjsAdd 1 2 (mkXact Xact.running 0 0))) dmTcb)))
  ∧ (trname (data dmTcb) ≠ SDMName →
     aborted (set_laterx true
                (set_xctn (Some (InObjsAdd 1 2 (mkXact Xact.running 0 0))) dmTcb))
     = false →
     (quicb (set_laterx true
               (set_xctn (Some (InObjsAdd 1 2 (mkXact Xact.running 0 0))) dmTcb))).1
     = QuiActive
     ∧ (quicb (quicb (set_laterx true
                        (set_xctn (Some (InObjsAdd 1 2 (mkXact Xact.running 0 0)))
                                  dmTcb))).2).1
       = QuiInactiveCB).
Proof.
  apply (rx_active_once "b1" 2 (mkHdr "t2" EmptyString "o1" 0 []) [1; 2] None dmTcb).
  reflexivity.
Defined.
End DMExtra.
